(** * Minesweeper-AI: the knowledge-based agent of [minesweeper.py]

    A shallow embedding of the classes [Minesweeper], [Sentence] and
    [MinesweeperAI], and the properties of the inference engine.

    Modelling conventions.
    - A cell is a pair of Python integers, here [Z * Z].
    - A Python [set] of cells is a [gset (Z * Z)]; [len] is [size].
    - Python does not fix the order in which a [for] loop walks a set.
      Every such loop of the source goes through the parameter [iter],
      which lists the elements of a set in some order; the theorems
      assume nothing of it but that it lists exactly the elements, once
      each.
    - [self.knowledge] is a Python list that the code appends to,
      removes from and walks by position: a [list] of sentences.
    - Methods that mutate [self] take the agent and return the new one.
    - [additional_check] is recursive and [inference] walks a list
      while appending to it: both are defined with a step budget
      ([fuel]), and [None] means that the budget ran out. That a budget
      is enough is proved: for [additional_check] on every agent, for
      [add_knowledge] in every game.
    - [random.randrange] is the list of what it draws.
    - For the agent, [Minesweeper] is what the agent is told: the size
      of the board, [is_mine] and [nearby_mines] over the set of
      mines. The class with its board of booleans, as [__init__]
      builds it, is [Board]; that the two agree is proved. *)

From stdpp Require Import gmap list.

#[local] Set Warnings "-clear-no-such-hyp".
Local Open Scope Z_scope.

Abbreviation Cell := (Z * Z)%type.

(** [range(a, b)] *)
Definition range (a b : Z) : list Z := seqZ a (b - a).

(** A Python [for] loop over [l] whose body may run out of fuel. *)
Fixpoint for_each {A S : Type} (body : S → A → option S) (l : list A) (s : S)
  : option S :=
  match l with
  | [] => Some s
  | x :: l' =>
      match body s x with
      | Some s' => for_each body l' s'
      | None => None
      end
  end.

(** [if cells:] on a value that is [None] or a set: true for a set that
    is not empty. *)
Definition truthy (r : option (gset Cell)) : option (gset Cell) :=
  match r with
  | Some X => if decide (X = ∅) then None else Some X
  | None => None
  end.

(** ** class Minesweeper *)
Module Minesweeper.

(** [board[i][j]] is [True] exactly for the cells of [mines]
    (see [__init__]). *)
Record t : Type := mk { height : Z; width : Z; mines : gset Cell }.

Definition is_mine (g : t) (cell : Cell) : bool :=
  bool_decide (cell ∈ mines g).

Definition nearby_mines (g : t) (cell : Cell) : Z :=
  foldl (λ count i,
    foldl (λ count j,
      if bool_decide ((i, j) = cell) then count
      else if bool_decide (0 ≤ i < height g) && bool_decide (0 ≤ j < width g)
           then (if is_mine g (i, j) then count + 1 else count)
           else count)
      count (range (cell.2 - 1) (cell.2 + 2)))
    0 (range (cell.1 - 1) (cell.1 + 2)).

End Minesweeper.

(** ** class Sentence *)
Module Sentence.

Record t : Type := mk { cells : gset Cell; count : Z }.

(** [__eq__]: same cells and same count. *)
#[global] Instance eq_dec : EqDecision t.
Proof. solve_decision. Defined.

Definition known_mines (s : t) : option (gset Cell) :=
  if bool_decide (count s = Z.of_nat (size (cells s))) && bool_decide (count s > 0)
  then Some (cells s)
  else None.

Definition known_safes (s : t) : option (gset Cell) :=
  if bool_decide (count s = 0) && bool_decide (Z.of_nat (size (cells s)) > 0)
  then Some (cells s)
  else None.

Definition mark_mine (s : t) (cell : Cell) : t :=
  if bool_decide (cell ∈ cells s)
  then mk (cells s ∖ {[cell]}) (count s - 1)
  else s.

Definition mark_safe (s : t) (cell : Cell) : t :=
  mk (cells s ∖ {[cell]}) (count s).

End Sentence.

(** [list.remove(x)] inside [try ... except ValueError: pass]: the first
    element equal to [x] goes, and nothing happens when there is none. *)
Fixpoint list_remove (x : Sentence.t) (l : list Sentence.t) : list Sentence.t :=
  match l with
  | [] => []
  | y :: l' => if decide (y = x) then l' else y :: list_remove x l'
  end.

(** ** class MinesweeperAI *)
Module MinesweeperAI.

Record t : Type := mk {
  height : Z;
  width : Z;
  moves_made : gset Cell;
  mines : gset Cell;
  safes : gset Cell;
  knowledge : list Sentence.t
}.

(** [__init__] *)
Definition init (height width : Z) : t := mk height width ∅ ∅ ∅ [].

Definition set_knowledge (ai : t) (k : list Sentence.t) : t :=
  mk (height ai) (width ai) (moves_made ai) (mines ai) (safes ai) k.

Definition mark_mine (ai : t) (cell : Cell) : t :=
  mk (height ai) (width ai) (moves_made ai) ({[cell]} ∪ mines ai) (safes ai)
     ((λ sentence, Sentence.mark_mine sentence cell) <$> knowledge ai).

Definition mark_safe (ai : t) (cell : Cell) : t :=
  mk (height ai) (width ai) (moves_made ai) (mines ai) ({[cell]} ∪ safes ai)
     ((λ sentence, Sentence.mark_safe sentence cell) <$> knowledge ai).

(** The local function of [add_knowledge]; it reads [self.mines],
    [self.safes], [self.height] and [self.width]. *)
Definition sentenceOfSurroundings (ai : t) (cell : Cell) (count : Z)
  : option Sentence.t :=
  let to_height := cell.1 + 2 in
  let to_width := cell.2 + 2 in
  let from_height := cell.1 - 1 in
  let from_width := cell.2 - 1 in
  let from_height := if bool_decide (from_height < 0) then 0 else from_height in
  let from_width := if bool_decide (from_width < 0) then 0 else from_width in
  let to_height := if bool_decide (to_height > height ai) then height ai else to_height in
  let to_width := if bool_decide (to_width > width ai) then width ai else to_width in
  let '(count2, cells) :=
    foldl (λ acc i,
      foldl (λ (acc : Z * gset Cell) j,
        let '(count2, cells) := acc in
        if bool_decide ((i, j) ∈ mines ai) then (count2 - 1, cells)
        else if bool_decide ((i, j) ∉ safes ai) then (count2, {[(i, j)]} ∪ cells)
        else (count2, cells))
        acc (range from_width to_width))
      (count, ∅) (range from_height to_height) in
  if bool_decide (Z.of_nat (size cells) > 0)
  then Some (Sentence.mk cells count2)
  else None.

(** Steps 1 to 3 of [add_knowledge]: the move is recorded, the cell is
    marked safe and the sentence of its surroundings, if there is one,
    is appended. *)
Definition add_observation (ai : t) (cell : Cell) (count : Z) : t :=
  let ai := mk (height ai) (width ai) ({[cell]} ∪ moves_made ai) (mines ai)
               (safes ai) (knowledge ai) in
  let ai := mark_safe ai cell in
  match sentenceOfSurroundings ai cell count with
  | Some sent => set_knowledge ai (knowledge ai ++ [sent])
  | None => ai
  end.

Section Iteration.

(** The order in which a [for] loop walks a set. *)
Variable iter : gset Cell → list Cell.

Fixpoint additional_check (fuel : nat) (ai : t) : option t :=
  match fuel with
  | O => None
  | S fuel =>
      let knowledge_copy := knowledge ai in
      for_each (λ ai sentence,
        let ai :=
          if bool_decide (Z.of_nat (size (Sentence.cells sentence)) ≤ 0)
          then set_knowledge ai (list_remove sentence (knowledge ai))
          else ai in
        match truthy (Sentence.known_mines sentence) with
        | Some cells =>
            for_each (λ ai mine, additional_check fuel (mark_mine ai mine))
                     (iter cells) ai
        | None =>
            match truthy (Sentence.known_safes sentence) with
            | Some cells =>
                for_each (λ ai safe, additional_check fuel (mark_safe ai safe))
                         (iter cells) ai
            | None => Some ai
            end
        end) knowledge_copy ai
  end.

(** The sentence [inference] builds from [s1] and [s2]. *)
Definition derived (s1 s2 : Sentence.t) : Sentence.t :=
  Sentence.mk (Sentence.cells s2 ∖ Sentence.cells s1)
              (Sentence.count s2 - Sentence.count s1).

(** The body of the inner loop of [inference], for the sentences [s1]
    and [s2] the two loops stand on. *)
Definition inference_body (s1 s2 : Sentence.t) (st : bool * t) : bool * t :=
  let '(checkNeed, ai) := st in
  if bool_decide (Sentence.cells s1 ⊆ Sentence.cells s2) then
    let s3 := derived s1 s2 in
    if bool_decide (Z.of_nat (size (Sentence.cells s3)) > 0)
       && bool_decide (s3 ∉ knowledge ai) then
      match truthy (Sentence.known_mines s3) with
      | Some cells => (true, foldl mark_mine ai (iter cells))
      | None =>
          match truthy (Sentence.known_safes s3) with
          | Some cells => (true, foldl mark_safe ai (iter cells))
          | None => (checkNeed, set_knowledge ai (knowledge ai ++ [s3]))
          end
      end
    else (checkNeed, ai)
  else (checkNeed, ai).

(** The two nested loops of [inference] walk [self.knowledge] by
    position while the body appends to it: [i] and [j] are the positions
    of the outer and of the inner loop. One step of the walk; [None]
    when the outer loop is over. *)
Definition inference_step (c : nat * nat * (bool * t))
  : option (nat * nat * (bool * t)) :=
  let '(i, j, st) := c in
  match knowledge st.2 !! i with
  | None => None
  | Some s1 =>
      match knowledge st.2 !! j with
      | None => Some (S i, O, st)
      | Some s2 => Some (i, S j, inference_body s1 s2 st)
      end
  end.

Fixpoint inference_loop (fuel : nat) (c : nat * nat * (bool * t))
  : option (bool * t) :=
  match fuel with
  | O => None
  | S fuel =>
      match inference_step c with
      | None => Some c.2
      | Some c' => inference_loop fuel c'
      end
  end.

Definition inference (fuel : nat) (ai : t) : option t :=
  match inference_loop fuel (O, O, (false, ai)) with
  | Some (checkNeed, ai) =>
      if checkNeed then additional_check fuel ai else Some ai
  | None => None
  end.

Definition add_knowledge (fuel : nat) (ai : t) (cell : Cell) (count : Z)
  : option t :=
  let ai := add_observation ai cell count in
  match additional_check fuel ai with
  | Some ai => inference fuel ai
  | None => None
  end.

(** [make_safe_move] and [make_random_move] return their answer and the
    agent they leave behind. *)
Definition make_safe_move (ai : t) : option Cell * t :=
  match iter (safes ai ∖ moves_made ai) with
  | cell :: _ => (Some cell, ai)
  | [] => (None, ai)
  end.

End Iteration.

(** [make_random_move]: [draws] are the successive results of the two
    calls of [random.randrange] in an iteration of the [while True]
    loop. The answer [None] means that the loop is still running when
    the draws are used up; [Some None] is Python's [None]. *)
Fixpoint random_loop (ai : t) (draws : list Cell) : option (option Cell) * t :=
  match draws with
  | [] => (None, ai)
  | (i, j) :: draws =>
      if bool_decide ((i, j) ∉ moves_made ai ∪ mines ai)
      then (Some (Some (i, j)), ai)
      else random_loop ai draws
  end.

Definition make_random_move (ai : t) (draws : list Cell)
  : option (option Cell) * t :=
  if bool_decide (Z.of_nat (size (moves_made ai)) + Z.of_nat (size (mines ai))
                  < height ai * width ai)
  then random_loop ai draws
  else (Some None, ai).

End MinesweeperAI.

(** ** The grid, valid observations and the states they lead to *)

Definition in_grid (h w : Z) (c : Cell) : Prop := 0 ≤ c.1 < h ∧ 0 ≤ c.2 < w.

#[global] Instance in_grid_dec h w c : Decision (in_grid h w c).
Proof. unfold in_grid. apply _. Defined.

(** The pairs two nested loops over [rows] and [cols] go through. *)
Definition pairs (rows cols : list Z) : list Cell :=
  i ← rows; j ← cols; [(i, j)].

(** All the cells of a grid of [h] rows and [w] columns. *)
Definition grid_cells (h w : Z) : gset Cell :=
  list_to_set (pairs (range 0 h) (range 0 w)).

(** The 8-neighbourhood of [cell], clipped to the grid. *)
Definition neighbours (h w : Z) (cell : Cell) : gset Cell :=
  list_to_set (filter (in_grid h w)
    [ (cell.1 - 1, cell.2 - 1); (cell.1 - 1, cell.2); (cell.1 - 1, cell.2 + 1);
      (cell.1, cell.2 - 1); (cell.1, cell.2 + 1);
      (cell.1 + 1, cell.2 - 1); (cell.1 + 1, cell.2); (cell.1 + 1, cell.2 + 1) ]).

(** The sentence [s] is true of the mines [T]: exactly [count] of its
    cells are mines. *)
Definition holds (T : gset Cell) (s : Sentence.t) : Prop :=
  Sentence.count s = Z.of_nat (size (Sentence.cells s ∩ T)).

(** The count of a sentence lies between 0 and the number of its cells. *)
Definition count_in_range (s : Sentence.t) : Prop :=
  0 ≤ Sentence.count s ≤ Z.of_nat (size (Sentence.cells s)).

(** What the board [g] tells about a probed cell: the cell is on the
    grid, it is not a mine, and [count] is the number of mines around. *)
Definition valid_observation (g : Minesweeper.t) (cell : Cell) (count : Z) : Prop :=
  in_grid (Minesweeper.height g) (Minesweeper.width g) cell
  ∧ Minesweeper.is_mine g cell = false
  ∧ count = Minesweeper.nearby_mines g cell.

#[global] Instance valid_observation_dec g cell count :
  Decision (valid_observation g cell count).
Proof. unfold valid_observation. apply _. Defined.

(** The agents a game on the board [g] leads to: a new agent of the
    size of the board, then [add_knowledge] with what the board tells. *)
Inductive reachable (iter : gset Cell → list Cell) (g : Minesweeper.t)
  : MinesweeperAI.t → Prop :=
| reachable_init :
    reachable iter g
      (MinesweeperAI.init (Minesweeper.height g) (Minesweeper.width g))
| reachable_add_knowledge ai fuel cell count ai' :
    reachable iter g ai →
    valid_observation g cell count →
    MinesweeperAI.add_knowledge iter fuel ai cell count = Some ai' →
    reachable iter g ai'.

(** The agents any sequence of [add_knowledge] calls leads to, whatever
    the cells and counts. *)
Inductive called (iter : gset Cell → list Cell) (h w : Z)
  : MinesweeperAI.t → Prop :=
| called_init : called iter h w (MinesweeperAI.init h w)
| called_add_knowledge ai fuel cell count ai' :
    called iter h w ai →
    MinesweeperAI.add_knowledge iter fuel ai cell count = Some ai' →
    called iter h w ai'.

(** One operation of [MinesweeperAI] takes the agent [ai] to [ai']. *)
Inductive operation (iter : gset Cell → list Cell)
  : MinesweeperAI.t → MinesweeperAI.t → Prop :=
| op_mark_mine ai cell :
    operation iter ai (MinesweeperAI.mark_mine ai cell)
| op_mark_safe ai cell :
    operation iter ai (MinesweeperAI.mark_safe ai cell)
| op_add_knowledge ai fuel cell count ai' :
    MinesweeperAI.add_knowledge iter fuel ai cell count = Some ai' →
    operation iter ai ai'
| op_additional_check ai fuel ai' :
    MinesweeperAI.additional_check iter fuel ai = Some ai' →
    operation iter ai ai'
| op_inference ai fuel ai' :
    MinesweeperAI.inference iter fuel ai = Some ai' →
    operation iter ai ai'
| op_make_safe_move ai :
    operation iter ai (MinesweeperAI.make_safe_move iter ai).2
| op_make_random_move ai draws :
    operation iter ai (MinesweeperAI.make_random_move ai draws).2.

(** What a game on [g] keeps true of the agent. *)
Record consistent (g : Minesweeper.t) (ai : MinesweeperAI.t) : Prop := {
  consistent_height : MinesweeperAI.height ai = Minesweeper.height g;
  consistent_width : MinesweeperAI.width ai = Minesweeper.width g;
  consistent_mines : MinesweeperAI.mines ai ⊆ Minesweeper.mines g;
  consistent_safes : MinesweeperAI.safes ai ## Minesweeper.mines g;
  consistent_moves : MinesweeperAI.moves_made ai ⊆ MinesweeperAI.safes ai;
  consistent_mines_grid :
    MinesweeperAI.mines ai ⊆ grid_cells (Minesweeper.height g) (Minesweeper.width g);
  consistent_moves_grid :
    MinesweeperAI.moves_made ai
      ⊆ grid_cells (Minesweeper.height g) (Minesweeper.width g);
  consistent_holds :
    Forall (holds (Minesweeper.mines g)) (MinesweeperAI.knowledge ai);
  consistent_live :
    Forall (λ s, Sentence.cells s ## MinesweeperAI.mines ai ∪ MinesweeperAI.safes ai)
           (MinesweeperAI.knowledge ai);
  consistent_grid :
    Forall (λ s, Sentence.cells s
                   ⊆ grid_cells (Minesweeper.height g) (Minesweeper.width g))
           (MinesweeperAI.knowledge ai)
}.

(** A sentence that is true of the board and lies on its grid. *)
Definition sound (g : Minesweeper.t) (s : Sentence.t) : Prop :=
  holds (Minesweeper.mines g) s
  ∧ Sentence.cells s ⊆ grid_cells (Minesweeper.height g) (Minesweeper.width g).

(** The number of (cell, sentence) memberships of the knowledge base. *)
Definition weight (ai : MinesweeperAI.t) : nat :=
  sum_list ((λ s, size (Sentence.cells s)) <$> MinesweeperAI.knowledge ai).

(** A sentence [additional_check] has something to do with: it is
    empty, or it tells its cells to be mines, or to be safe. *)
Definition pending (s : Sentence.t) : Prop :=
  Sentence.cells s = ∅
  ∨ truthy (Sentence.known_mines s) ≠ None
  ∨ truthy (Sentence.known_safes s) ≠ None.

#[global] Instance pending_dec s : Decision (pending s).
Proof. unfold pending. apply _. Defined.

(** No sentence of the knowledge base is pending. *)
Definition settled (ai : MinesweeperAI.t) : Prop :=
  Forall (λ s, ¬ pending s) (MinesweeperAI.knowledge ai).

(** The three sets of the agent [b] contain those of [a]. *)
Definition grows (a b : MinesweeperAI.t) : Prop :=
  MinesweeperAI.moves_made a ⊆ MinesweeperAI.moves_made b
  ∧ MinesweeperAI.mines a ⊆ MinesweeperAI.mines b
  ∧ MinesweeperAI.safes a ⊆ MinesweeperAI.safes b.

(** The cells of the grid in the square of side 3 around [cell]: its
    neighbours, and [cell] itself when it is on the grid. *)
Definition block (h w : Z) (cell : Cell) : gset Cell :=
  neighbours h w cell ∪ (if decide (in_grid h w cell) then {[cell]} else ∅).

(** The agent [ai] stands at the positions [i] and [j] of the two loops
    of [inference], in a call of [add_knowledge] of a game on [g]. *)
Inductive inferring (iter : gset Cell → list Cell) (g : Minesweeper.t)
  : nat → nat → MinesweeperAI.t → Prop :=
| inferring_intro ai0 fuel cell count ai1 i j checkNeed ai :
    reachable iter g ai0 →
    valid_observation g cell count →
    MinesweeperAI.additional_check iter fuel
      (MinesweeperAI.add_observation ai0 cell count) = Some ai1 →
    rtc (λ c c', MinesweeperAI.inference_step iter c = Some c')
        (O, O, (false, ai1)) (i, j, (checkNeed, ai)) →
    inferring iter g i j ai.

(** A game: a new agent of the size of the board [g] probes the cells
    [probes] one after the other and is told what the board tells. *)
Definition play (iter : gset Cell → list Cell) (fuel : nat) (g : Minesweeper.t)
    (probes : list Cell) : option MinesweeperAI.t :=
  for_each
    (λ ai cell, MinesweeperAI.add_knowledge iter fuel ai cell
                  (Minesweeper.nearby_mines g cell))
    probes
    (MinesweeperAI.init (Minesweeper.height g) (Minesweeper.width g)).

(** Fact extraction, then derivation, once more. *)
Definition closure_again (iter : gset Cell → list Cell) (fuel : nat)
    (ai : MinesweeperAI.t) : option MinesweeperAI.t :=
  MinesweeperAI.additional_check iter fuel ai ≫= MinesweeperAI.inference iter fuel.

(** What the closure keeps, whatever the observations: the sets contain
    those of [ai0] and every move made is known safe. *)
Definition grown_from (ai0 ai : MinesweeperAI.t) : Prop :=
  grows ai0 ai ∧ MinesweeperAI.moves_made ai ⊆ MinesweeperAI.safes ai.

(** An order that walks the sets of at most one cell as [elements] does
    and the other sets as [iter] does. *)
Definition small_first (iter : gset Cell → list Cell) (X : gset Cell) : list Cell :=
  if decide (size X ≤ 1)%nat then elements X else iter X.

(** ** A budget for [inference] *)

(** All the sets of cells of [l]. *)
Fixpoint subsets (l : list Cell) : list (gset Cell) :=
  match l with
  | [] => [∅]
  | x :: l => subsets l ++ (({[x]} ∪.) <$> subsets l)
  end.

(** The sets of cells [inference] may still append as the cells of a new
    sentence: sets of cells of the grid with no cell in [mines] or
    [safes] that are not the cells of a sentence of the knowledge
    base. *)
Definition candidates (ai : MinesweeperAI.t) : list (gset Cell) :=
  filter (λ X, X ## MinesweeperAI.mines ai ∪ MinesweeperAI.safes ai
               ∧ X ∉ (Sentence.cells <$> MinesweeperAI.knowledge ai))
         (subsets (elements (grid_cells (MinesweeperAI.height ai)
                                        (MinesweeperAI.width ai)))).

(** A bound on the length the knowledge base can reach. *)
Definition slack (ai : MinesweeperAI.t) : nat :=
  (length (MinesweeperAI.knowledge ai) + length (candidates ai))%nat.

(** A bound on the steps that the loops of [inference], standing at the
    positions [i] and [j], still make. *)
Definition inference_budget (c : nat * nat * (bool * MinesweeperAI.t)) : nat :=
  let '(i, j, st) := c in
  let L := slack st.2 in
  ((L - i) * (L + 2) + (L + 1 - j))%nat.

(** ** Some boards and agents *)

(** A board of 3 rows and 3 columns with mines at (1,0) and (2,2); the
    cells (0,1), (2,1), (1,2) and (0,0) are probed in this order. *)
Definition closure_board : Minesweeper.t := Minesweeper.mk 3 3 {[ (1, 0); (2, 2) ]}.

Definition closure_probes : list Cell := [ (0, 1); (2, 1); (1, 2); (0, 0) ].

(** The agent after the four calls. *)
Definition closure_agent : MinesweeperAI.t :=
  MinesweeperAI.mk 3 3
    {[ (0, 1); (2, 1); (1, 2); (0, 0) ]}
    ∅
    {[ (0, 1); (2, 1); (1, 2); (0, 0); (0, 2) ]}
    [ Sentence.mk {[ (1, 0); (1, 1) ]} 1;
      Sentence.mk {[ (1, 0); (1, 1); (2, 0); (2, 2) ]} 2;
      Sentence.mk {[ (1, 1); (2, 2) ]} 1;
      Sentence.mk {[ (1, 0); (1, 1) ]} 1;
      Sentence.mk {[ (2, 0); (2, 2) ]} 1 ].

(** A board of 3 rows and 4 columns with mines at (0,0) and (1,2); the
    cells (1,1), (1,3), (2,0), (0,2) and (2,2) are probed in this
    order. *)
Definition missed_board : Minesweeper.t := Minesweeper.mk 3 4 {[ (0, 0); (1, 2) ]}.

Definition missed_probes : list Cell := [ (1, 1); (1, 3); (2, 0); (0, 2); (2, 2) ].

(** The agent after the five calls. *)
Definition missed_agent : MinesweeperAI.t :=
  MinesweeperAI.mk 3 4
    {[ (1, 1); (1, 3); (2, 0); (0, 2); (2, 2) ]}
    ∅
    {[ (1, 1); (1, 3); (2, 0); (0, 2); (2, 2); (1, 0); (2, 1); (0, 3) ]}
    [ Sentence.mk {[ (0, 0); (0, 1); (1, 2) ]} 2;
      Sentence.mk {[ (1, 2); (2, 3) ]} 1;
      Sentence.mk {[ (0, 1); (1, 2) ]} 1;
      Sentence.mk {[ (1, 2); (2, 3) ]} 1 ].

(** A grid of 1 row and 3 columns. Told that (0,0) has one mine around,
    the agent holds (0,1) for a mine. *)
Definition mined_agent : MinesweeperAI.t :=
  MinesweeperAI.mk 1 3 {[ (0, 0) ]} {[ (0, 1) ]} {[ (0, 0) ]} [].

(** An agent whose only sentence tells that both its cells are mines. *)
Definition pending_agent : MinesweeperAI.t :=
  MinesweeperAI.mk 1 3 {[ (0, 1) ]} ∅ {[ (0, 1) ]}
    [ Sentence.mk {[ (0, 0); (0, 2) ]} 2 ].

(** ** What the agent knows of, and what the closure has to do *)

Definition known_cells (ai : MinesweeperAI.t) : gset Cell :=
  MinesweeperAI.mines ai ∪ MinesweeperAI.safes ai
  ∪ ⋃ (Sentence.cells <$> MinesweeperAI.knowledge ai).
(** A knowledge base is closed when [inference] has nothing to add:
    the sentence it would derive from two sentences of the knowledge
    base has no cell or is in the knowledge base already. *)
Definition closed (ai : MinesweeperAI.t) : Prop :=
  ∀ s1 s2,
    s1 ∈ MinesweeperAI.knowledge ai → s2 ∈ MinesweeperAI.knowledge ai →
    Sentence.cells s1 ⊆ Sentence.cells s2 →
    Sentence.cells s2 ∖ Sentence.cells s1 = ∅
    ∨ MinesweeperAI.derived s1 s2 ∈ MinesweeperAI.knowledge ai.

(** What the closure leaves alone: the moves made and the size of the
    grid; and it adds no cell to those the agent knows of. *)
Definition framed (ai0 ai : MinesweeperAI.t) : Prop :=
  known_cells ai ⊆ known_cells ai0
  ∧ MinesweeperAI.moves_made ai = MinesweeperAI.moves_made ai0
  ∧ MinesweeperAI.height ai = MinesweeperAI.height ai0
  ∧ MinesweeperAI.width ai = MinesweeperAI.width ai0.

(** The sets of [a] hold what the sentence [s] tells. *)
Definition concluded (s : Sentence.t) (a : MinesweeperAI.t) : Prop :=
  (∀ X, Sentence.known_mines s = Some X → X ⊆ MinesweeperAI.mines a)
  ∧ (∀ X, Sentence.known_safes s = Some X → X ⊆ MinesweeperAI.safes a).

(** ** class Minesweeper, with its board

    The board as the source has it: a list of rows of booleans, read
    and written with Python's indexing. *)
Module Board.

Inductive exn : Type := ValueError | IndexError.

(** How a call ends: it returns, it raises, or its loop is still
    running when the draws of [random.randrange] are used up. *)
Inductive outcome (A : Type) : Type :=
| Returned (a : A)
| Raised (e : exn)
| Running.
Arguments Returned {A} a.
Arguments Raised {A} e.
Arguments Running {A}.

(** The position that [l[i]] reads or writes: a negative index counts
    from the end, and an index out of range raises [IndexError]. *)
Definition position {A : Type} (l : list A) (i : Z) : option nat :=
  if bool_decide (0 ≤ i < Z.of_nat (length l)) then Some (Z.to_nat i)
  else if bool_decide (- Z.of_nat (length l) ≤ i < 0)
       then Some (Z.to_nat (Z.of_nat (length l) + i))
       else None.

(** [l[i]] *)
Definition item {A : Type} (l : list A) (i : Z) : option A :=
  n ← position l i; l !! n.

(** [l[i] = v] *)
Definition set_item {A : Type} (l : list A) (i : Z) (v : A) : option (list A) :=
  n ← position l i; Some (<[n := v]> l).

Record t : Type := mk {
  height : Z;
  width : Z;
  mines : gset Cell;
  board : list (list bool);
  mines_found : gset Cell
}.

(** The two loops of [__init__] that build the field with no mines. *)
Definition empty_board (height width : Z) : list (list bool) :=
  foldl (λ board _,
    board ++ [foldl (λ row _, row ++ [false]) [] (range 0 width)])
    [] (range 0 height).

(** [board[i][j]] *)
Definition board_item (board : list (list bool)) (cell : Cell) : option bool :=
  row ← item board cell.1; item row cell.2.

(** [board[i][j] = v] *)
Definition board_set_item (board : list (list bool)) (cell : Cell) (v : bool)
  : option (list (list bool)) :=
  row ← item board cell.1;
  row' ← set_item row cell.2 v;
  set_item board cell.1 row'.

(** The loop [while len(self.mines) != mines] of [__init__]; [st] is
    [self.mines] and [self.board]. [random.randrange(n)] raises
    [ValueError] when [n <= 0], and otherwise returns the next draw. *)
Fixpoint add_mines (height width mines : Z)
    (st : gset Cell * list (list bool)) (draws : list Cell)
  : outcome (gset Cell * list (list bool)) :=
  if bool_decide (Z.of_nat (size st.1) ≠ mines) then
    if bool_decide (height ≤ 0) || bool_decide (width ≤ 0) then Raised ValueError
    else
      match draws with
      | [] => Running
      | (i, j) :: draws =>
          match board_item st.2 (i, j) with
          | None => Raised IndexError
          | Some true => add_mines height width mines st draws
          | Some false =>
              match board_set_item st.2 (i, j) true with
              | None => Raised IndexError
              | Some board =>
                  add_mines height width mines ({[ (i, j) ]} ∪ st.1, board) draws
              end
          end
      end
  else Returned st.

(** [__init__] *)
Definition init (height width mines : Z) (draws : list Cell) : outcome t :=
  match add_mines height width mines (∅, empty_board height width) draws with
  | Returned (ms, board) => Returned (mk height width ms board ∅)
  | Raised e => Raised e
  | Running => Running
  end.

(** [is_mine]; [None] is [IndexError]. *)
Definition is_mine (b : t) (cell : Cell) : option bool :=
  board_item (board b) cell.

(** [nearby_mines]; [None] is [IndexError]. *)
Definition nearby_mines (b : t) (cell : Cell) : option Z :=
  for_each (λ count i,
    for_each (λ count j,
      if bool_decide ((i, j) = cell) then Some count
      else if bool_decide (0 ≤ i < height b) && bool_decide (0 ≤ j < width b)
           then v ← board_item (board b) (i, j);
                Some (if v : bool then count + 1 else count)
           else Some count)
      (range (cell.2 - 1) (cell.2 + 2)) count)
    (range (cell.1 - 1) (cell.1 + 2)) 0.

(** [won] *)
Definition won (b : t) : bool := bool_decide (mines_found b = mines b).

End Board.

(** What the agent is told of a board. *)
Definition game (b : Board.t) : Minesweeper.t :=
  Minesweeper.mk (Board.height b) (Board.width b) (Board.mines b).

(** The board has [height] rows of [width] squares, and [board[i][j]]
    is [True] exactly for the cells of [mines]. *)
Record well_formed (b : Board.t) : Prop := {
  wf_rows : length (Board.board b) = Z.to_nat (Board.height b);
  wf_cols : Forall (λ row, length row = Z.to_nat (Board.width b)) (Board.board b);
  wf_mines : Board.mines b ⊆ grid_cells (Board.height b) (Board.width b);
  wf_board : ∀ cell, in_grid (Board.height b) (Board.width b) cell →
               Board.board_item (Board.board b) cell
               = Some (bool_decide (cell ∈ Board.mines b))
}.

(** A board of [h] rows of [w] squares. *)
Definition shaped (h w : Z) (board : list (list bool)) : Prop :=
  length board = Z.to_nat h ∧ Forall (λ row, length row = Z.to_nat w) board.

(** The squares of [board] are [True] exactly for the cells of [ms]. *)
Definition agrees (h w : Z) (ms : gset Cell) (board : list (list bool)) : Prop :=
  shaped h w board
  ∧ ms ⊆ grid_cells h w
  ∧ ∀ cell, in_grid h w cell →
      Board.board_item board cell = Some (bool_decide (cell ∈ ms)).

(** ** More boards and agents *)

(** The agent [pending_agent] after [additional_check]. *)
Definition checked_agent : MinesweeperAI.t :=
  MinesweeperAI.mk 1 3 {[ (0, 1) ]} {[ (0, 0); (0, 2) ]} {[ (0, 1) ]} [].

(** A board of 1 row and 3 columns with a mine at (0,2), and the agent
    after the probe of (0,0). *)
Definition strip_board : Minesweeper.t := Minesweeper.mk 1 3 {[ (0, 2) ]}.

Definition strip_agent : MinesweeperAI.t :=
  MinesweeperAI.mk 1 3 {[ (0, 0) ]} ∅ {[ (0, 0); (0, 1) ]} [].



(** An agent with two sentences, none among the cells of the other. *)
Definition chain_agent : MinesweeperAI.t :=
  MinesweeperAI.mk 1 3 ∅ ∅ ∅
    [ Sentence.mk {[ (0, 0); (0, 1) ]} 1;
      Sentence.mk {[ (0, 1); (0, 2) ]} 1 ].

(** A grid of 1 row and 4 columns. Told that (0,0) has one mine
    around, the agent holds (0,1) for a mine. *)
Definition flagged_agent : MinesweeperAI.t :=
  MinesweeperAI.mk 1 4 {[ (0, 0) ]} {[ (0, 1) ]} {[ (0, 0) ]} [].

(** A board of 1 row and 3 columns with mines at both ends. Told that
    (0,1) has two mines around, a new agent is [pending_agent] when
    [additional_check] is called. *)
Definition flanked_board : Minesweeper.t := Minesweeper.mk 1 3 {[ (0, 0); (0, 2) ]}.

(** The board of 2 rows and 2 columns with one mine, drawn at (1,0). *)
Definition drawn_board : Board.t :=
  Board.mk 2 2 {[ (1, 0) ]} [ [false; false]; [true; false] ] ∅.

(** * Properties *)

(** ** Sentence *)

Lemma known_mines_Some s X :
  Sentence.known_mines s = Some X ↔
  X = Sentence.cells s
  ∧ Sentence.count s = Z.of_nat (size (Sentence.cells s)) ∧ Sentence.count s > 0.
Proof.
  unfold Sentence.known_mines.
  repeat case_bool_decide; simpl; intuition congruence.
Qed.

Lemma known_safes_Some s X :
  Sentence.known_safes s = Some X ↔
  X = Sentence.cells s
  ∧ Sentence.count s = 0 ∧ Z.of_nat (size (Sentence.cells s)) > 0.
Proof.
  unfold Sentence.known_safes.
  repeat case_bool_decide; simpl; intuition congruence.
Qed.

Lemma known_mines_None s :
  Sentence.known_mines s = None ↔
  ¬ (Sentence.count s = Z.of_nat (size (Sentence.cells s)) ∧ Sentence.count s > 0).
Proof.
  unfold Sentence.known_mines.
  repeat case_bool_decide; simpl; intuition congruence.
Qed.

Lemma known_safes_None s :
  Sentence.known_safes s = None ↔
  ¬ (Sentence.count s = 0 ∧ Z.of_nat (size (Sentence.cells s)) > 0).
Proof.
  unfold Sentence.known_safes.
  repeat case_bool_decide; simpl; intuition congruence.
Qed.

(** C5. The two queries of a sentence: [known_mines] answers with the
    cells exactly when the count is the number of cells and is positive,
    [known_safes] exactly when the count is 0 and there is a cell; each
    answers [None] otherwise, and a sentence with count 0 and no cell
    gets [None] from both. *)
Theorem sentence_query_contract (s : Sentence.t) :
  (Sentence.known_mines s =
     if decide (Sentence.count s = Z.of_nat (size (Sentence.cells s))
                ∧ Sentence.count s > 0)
     then Some (Sentence.cells s) else None)
  ∧ (Sentence.known_safes s =
     if decide (Sentence.count s = 0 ∧ Z.of_nat (size (Sentence.cells s)) > 0)
     then Some (Sentence.cells s) else None)
  ∧ (Sentence.known_mines (Sentence.mk ∅ 0) = None
     ∧ Sentence.known_safes (Sentence.mk ∅ 0) = None).
Proof.
  split; [|split; [|split; reflexivity]].
  - case_decide as H.
    + apply known_mines_Some. tauto.
    + by apply known_mines_None.
  - case_decide as H.
    + apply known_safes_Some. tauto.
    + by apply known_safes_None.
Qed.

Lemma sentence_mark_mine_in s c :
  c ∈ Sentence.cells s →
  Sentence.mark_mine s c = Sentence.mk (Sentence.cells s ∖ {[c]}) (Sentence.count s - 1).
Proof. intros H. unfold Sentence.mark_mine. by rewrite bool_decide_eq_true_2. Qed.

Lemma sentence_mark_mine_notin s c :
  c ∉ Sentence.cells s → Sentence.mark_mine s c = s.
Proof. intros H. unfold Sentence.mark_mine. by rewrite bool_decide_eq_false_2. Qed.

Lemma sentence_mark_safe_notin s c :
  c ∉ Sentence.cells s → Sentence.mark_safe s c = s.
Proof.
  intros H. destruct s as [X n]. unfold Sentence.mark_safe. simpl in *.
  f_equal. set_solver.
Qed.

Lemma sentence_mark_mine_cells s c :
  Sentence.cells (Sentence.mark_mine s c) = Sentence.cells s ∖ {[c]}.
Proof.
  unfold Sentence.mark_mine. case_bool_decide; simpl; set_solver.
Qed.

(** C6. Marking a cell in a sentence: [mark_mine] takes the cell out
    and lowers the count by one when the cell is in the sentence and
    changes nothing otherwise; [mark_safe] takes the cell out and keeps
    the count, and changes nothing when the cell is not in the sentence;
    doing either twice with the same cell is the same as doing it
    once. *)
Theorem sentence_marking (s : Sentence.t) (c : Cell) :
  (Sentence.mark_mine s c =
     if decide (c ∈ Sentence.cells s)
     then Sentence.mk (Sentence.cells s ∖ {[c]}) (Sentence.count s - 1)
     else s)
  ∧ (Sentence.cells (Sentence.mark_safe s c) = Sentence.cells s ∖ {[c]}
     ∧ Sentence.count (Sentence.mark_safe s c) = Sentence.count s
     ∧ Sentence.mark_safe s c = if decide (c ∈ Sentence.cells s)
                                then Sentence.mark_safe s c else s)
  ∧ Sentence.mark_mine (Sentence.mark_mine s c) c = Sentence.mark_mine s c
  ∧ Sentence.mark_safe (Sentence.mark_safe s c) c = Sentence.mark_safe s c.
Proof.
  repeat split.
  - case_decide.
    + by apply sentence_mark_mine_in.
    + by apply sentence_mark_mine_notin.
  - case_decide; [done|]. by apply sentence_mark_safe_notin.
  - apply sentence_mark_mine_notin. rewrite sentence_mark_mine_cells. set_solver.
  - apply sentence_mark_safe_notin. simpl. set_solver.
Qed.

(** ** Loops *)

Lemma for_each_preserves {A S : Type} (I : S → Prop) (R : A → Prop)
    (body : S → A → option S) l s s' :
  (∀ s x s', I s → R x → body s x = Some s' → I s') →
  Forall R l → I s → for_each body l s = Some s' → I s'.
Proof.
  intros Hbody Hl. revert s. induction Hl as [|x l Hx Hl IH]; simpl; intros s Hs Hrun.
  - by simplify_eq.
  - destruct (body s x) as [s1|] eqn:E; [|done]. eauto.
Qed.

Lemma for_each_mono {A S : Type} (body1 body2 : S → A → option S) l s s' :
  (∀ s x s', body1 s x = Some s' → body2 s x = Some s') →
  for_each body1 l s = Some s' → for_each body2 l s = Some s'.
Proof.
  intros H. revert s. induction l as [|x l IH]; simpl; intros s; [done|].
  destruct (body1 s x) as [s1|] eqn:E; [|done].
  rewrite (H _ _ _ E). apply IH.
Qed.

Lemma foldl_ext_eq {A S : Type} (f g : S → A → S) l s :
  (∀ s x, f s x = g s x) → foldl f s l = foldl g s l.
Proof.
  intros H. revert s. induction l as [|x l IH]; intros s; simpl; [done|].
  by rewrite H, IH.
Qed.

Lemma foldl_preserves {A S : Type} (I : S → Prop) (R : A → Prop)
    (f : S → A → S) l s :
  (∀ s x, I s → R x → I (f s x)) → Forall R l → I s → I (foldl f s l).
Proof.
  intros Hf Hl. revert s. induction Hl; simpl; eauto.
Qed.

Lemma truthy_Some r X : truthy r = Some X ↔ r = Some X ∧ X ≠ ∅.
Proof.
  unfold truthy. destruct r as [Y|]; [|naive_solver].
  case_decide; naive_solver.
Qed.

Lemma truthy_known_mines s X :
  truthy (Sentence.known_mines s) = Some X ↔ Sentence.known_mines s = Some X.
Proof.
  rewrite truthy_Some. split; [tauto|]. intros H. split; [done|].
  apply known_mines_Some in H as (-> & H1 & H2).
  intros E. rewrite E, size_empty in H1. lia.
Qed.

Lemma truthy_known_safes s X :
  truthy (Sentence.known_safes s) = Some X ↔ Sentence.known_safes s = Some X.
Proof.
  rewrite truthy_Some. split; [tauto|]. intros H. split; [done|].
  apply known_safes_Some in H as (-> & H1 & H2).
  intros E. rewrite E, size_empty in H2. lia.
Qed.

Lemma for_each_total {A S : Type} (I : S → list A → Prop)
    (body : S → A → option S) l s :
  (∀ s x l', I s (x :: l') → ∃ s', body s x = Some s' ∧ I s' l') →
  I s l → ∃ s', for_each body l s = Some s' ∧ I s' [].
Proof.
  intros Hbody. revert s. induction l as [|x l IH]; intros s Hs; simpl.
  - by exists s.
  - destruct (Hbody _ _ _ Hs) as (s1 & -> & Hs1). by apply IH.
Qed.

Lemma for_each_preserves_rest {A S : Type} (I : S → list A → Prop)
    (body : S → A → option S) l s s' :
  (∀ s x l' s', I s (x :: l') → body s x = Some s' → I s' l') →
  I s l → for_each body l s = Some s' → I s' [].
Proof.
  intros Hbody. revert s. induction l as [|x l IH]; simpl; intros s Hs Hrun.
  - by simplify_eq.
  - destruct (body s x) as [s1|] eqn:E; [|done]. eauto.
Qed.

Lemma for_each_last {A S : Type} (R : S → Prop)
    (body : S → A → option S) l s s' :
  l ≠ [] →
  (∀ s x s', x ∈ l → body s x = Some s' → R s') →
  for_each body l s = Some s' → R s'.
Proof.
  revert s. induction l as [|x l IH]; simpl; intros s Hne Hbody Hrun; [done|].
  destruct (body s x) as [s1|] eqn:E; [|done].
  destruct l as [|y l].
  - simpl in Hrun. simplify_eq. eapply Hbody; [left|done].
  - eapply IH; [done| |done]. intros. eapply Hbody; [by right|done].
Qed.

Lemma for_each_id {A S : Type} (body : S → A → option S) l s :
  (∀ x, x ∈ l → body s x = Some s) → for_each body l s = Some s.
Proof.
  induction l as [|x l IH]; simpl; intros H; [done|].
  rewrite H by left. apply IH. intros. apply H. by right.
Qed.

Lemma for_each_ext {A S : Type} (body1 body2 : S → A → option S) l s :
  (∀ s x, body1 s x = body2 s x) →
  for_each body1 l s = for_each body2 l s.
Proof.
  intros H. revert s. induction l as [|x l IH]; simpl; intros s; [done|].
  rewrite H. by destruct (body2 s x).
Qed.

(** ** [list.remove] *)

Lemma list_remove_subseteq x l : list_remove x l ⊆ l.
Proof.
  induction l as [|y l IH]; simpl; [done|].
  case_decide; set_solver.
Qed.

Lemma Forall_list_remove (R : Sentence.t → Prop) x l :
  Forall R l → Forall R (list_remove x l).
Proof.
  rewrite !Forall_forall. intros H y Hy. apply H. by eapply list_remove_subseteq.
Qed.

Lemma elem_of_list_remove x y l : y ∈ l → y ≠ x → y ∈ list_remove x l.
Proof.
  induction l as [|z l IH]; simpl; intros Hy Hne; [done|].
  case_decide as Hz.
  - subst z. apply elem_of_cons in Hy as [->|Hy]; done.
  - apply elem_of_cons in Hy as [->|Hy]; [left|right; auto].
Qed.

Lemma filter_list_remove_submseteq (P : Sentence.t → Prop)
    `{!∀ s, Decision (P s)} x l :
  filter P (list_remove x l) ⊆+ filter P l.
Proof.
  induction l as [|y l IH]; simpl; [done|].
  case_decide as E.
  - rewrite filter_cons. case_decide; [by constructor|done].
  - rewrite !filter_cons. case_decide; [by constructor|done].
Qed.

Lemma filter_list_remove_elem (P : Sentence.t → Prop)
    `{!∀ s, Decision (P s)} x l :
  x ∈ l → P x → filter P l ≡ₚ x :: filter P (list_remove x l).
Proof.
  intros Hx HP. induction l as [|y l IH]; simpl; [by apply elem_of_nil in Hx|].
  case_decide as E.
  - subst y. by rewrite filter_cons_True.
  - apply elem_of_cons in Hx as [->|Hx]; [done|].
    rewrite !filter_cons. case_decide.
    + rewrite IH by done. apply Permutation_swap.
    + by apply IH.
Qed.

(** ** Ranges, nested loops and counting *)

Lemma elem_of_range a b x : x ∈ range a b ↔ a ≤ x < b.
Proof. unfold range. rewrite elem_of_seqZ. lia. Qed.

Lemma NoDup_range a b : NoDup (range a b).
Proof. apply NoDup_seqZ. Qed.

Lemma elem_of_pairs rows cols p : p ∈ pairs rows cols ↔ p.1 ∈ rows ∧ p.2 ∈ cols.
Proof.
  unfold pairs. rewrite list_elem_of_bind. split.
  - intros (i & Hp & Hi). apply list_elem_of_bind in Hp as (j & Hp & Hj).
    apply list_elem_of_singleton in Hp as ->. done.
  - intros [H1 H2]. exists p.1. split; [|done].
    apply list_elem_of_bind. exists p.2. split; [|done].
    destruct p. simpl. left.
Qed.

Lemma NoDup_pairs rows cols : NoDup rows → NoDup cols → NoDup (pairs rows cols).
Proof.
  intros Hr Hc. unfold pairs. induction Hr as [|i rows Hi Hr IH]; simpl.
  { constructor. }
  apply NoDup_app. split; [|split; [|done]].
  - clear -Hc. induction Hc as [|j cols Hj Hc IH]; simpl; [constructor|].
    constructor; [|done].
    intros H. apply list_elem_of_bind in H as (j' & H & Hj').
    apply list_elem_of_singleton in H. by simplify_eq.
  - intros p Hp Hp'.
    apply list_elem_of_bind in Hp as (j & Hp & _).
    apply list_elem_of_singleton in Hp as ->.
    apply (elem_of_pairs rows cols) in Hp' as [? _]. done.
Qed.

Lemma foldl_pairs {S : Type} (f : S → Cell → S) rows cols s :
  foldl (λ acc i, foldl (λ acc j, f acc (i, j)) acc cols) s rows
  = foldl f s (pairs rows cols).
Proof.
  unfold pairs. revert s. induction rows as [|i rows IH]; intros s; simpl; [done|].
  rewrite foldl_app, <- IH. f_equal.
  clear. revert s. induction cols as [|j cols IH]; intros s; simpl; [done|].
  by rewrite IH.
Qed.

Lemma length_filter_size (M : gset Cell) (l : list Cell) :
  NoDup l →
  length (filter (.∈ M) l) = size ((list_to_set l : gset Cell) ∩ M).
Proof.
  intros Hl.
  rewrite <- (size_list_to_set (C := gset Cell) (filter (.∈ M) l))
    by by apply NoDup_filter.
  f_equal. apply set_eq. intros p.
  rewrite elem_of_list_to_set, list_elem_of_filter, elem_of_intersection,
    elem_of_list_to_set. tauto.
Qed.

(** ** The neighbourhood of a cell *)

Lemma elem_of_neighbours h w cell p :
  p ∈ neighbours h w cell ↔
  in_grid h w p ∧ p ≠ cell
  ∧ cell.1 - 1 ≤ p.1 ≤ cell.1 + 1 ∧ cell.2 - 1 ≤ p.2 ≤ cell.2 + 1.
Proof.
  unfold neighbours. rewrite elem_of_list_to_set, list_elem_of_filter.
  destruct cell as [r c], p as [i j]. simpl.
  rewrite !elem_of_cons, elem_of_nil. split.
  - intros [Hg H]. split; [done|].
    repeat destruct H as [H|H]; try done; simplify_eq;
      (split; [intros [=]; lia|lia]).
  - intros (Hg & Hne & Hi & Hj). split; [done|].
    assert (i = r - 1 ∨ i = r ∨ i = r + 1) as [->|[->| ->]] by lia;
    assert (j = c - 1 ∨ j = c ∨ j = c + 1) as [->|[->| ->]] by lia;
      try done; tauto.
Qed.

Lemma elem_of_block h w cell p :
  p ∈ block h w cell ↔
  in_grid h w p
  ∧ cell.1 - 1 ≤ p.1 ≤ cell.1 + 1 ∧ cell.2 - 1 ≤ p.2 ≤ cell.2 + 1.
Proof.
  unfold block. rewrite elem_of_union, elem_of_neighbours.
  destruct (decide (p = cell)) as [->|Hne].
  - case_decide; set_solver by lia.
  - case_decide; set_solver.
Qed.

Lemma elem_of_grid_cells h w p : p ∈ grid_cells h w ↔ in_grid h w p.
Proof.
  unfold grid_cells. rewrite elem_of_list_to_set.
  rewrite elem_of_pairs, !elem_of_range. done.
Qed.

Lemma neighbours_grid h w cell : neighbours h w cell ⊆ grid_cells h w.
Proof.
  intros p Hp. apply elem_of_grid_cells. by apply elem_of_neighbours in Hp as [? _].
Qed.

Lemma block_neighbours h w cell : neighbours h w cell = block h w cell ∖ {[cell]}.
Proof.
  apply set_eq. intros p.
  rewrite elem_of_difference, elem_of_block, elem_of_neighbours, elem_of_singleton.
  tauto.
Qed.

(** ** The sentence of an observation *)

(** The cells the two loops of [sentenceOfSurroundings] go through. *)
Lemma surroundings_pairs h w cell :
  let from_height := if bool_decide (cell.1 - 1 < 0) then 0 else cell.1 - 1 in
  let from_width := if bool_decide (cell.2 - 1 < 0) then 0 else cell.2 - 1 in
  let to_height := if bool_decide (cell.1 + 2 > h) then h else cell.1 + 2 in
  let to_width := if bool_decide (cell.2 + 2 > w) then w else cell.2 + 2 in
  let l := pairs (range from_height to_height) (range from_width to_width) in
  NoDup l ∧ list_to_set l = block h w cell.
Proof.
  simpl. split.
  - apply NoDup_pairs; apply NoDup_range.
  - apply set_eq. intros p.
    rewrite elem_of_list_to_set, elem_of_pairs, !elem_of_range, elem_of_block.
    unfold in_grid. repeat case_bool_decide; lia.
Qed.

Lemma surroundings_fold (M Sf : gset Cell) (l : list Cell) (n : Z) (X : gset Cell) :
  foldl (λ (acc : Z * gset Cell) p,
           let '(count2, cells) := acc in
           if bool_decide (p ∈ M) then (count2 - 1, cells)
           else if bool_decide (p ∉ Sf) then (count2, {[p]} ∪ cells)
           else (count2, cells)) (n, X) l
  = (n - Z.of_nat (length (filter (.∈ M) l)),
     X ∪ list_to_set (filter (λ p, (p ∉ M) ∧ (p ∉ Sf)) l)).
Proof.
  revert n X. induction l as [|p l IH]; intros n X; simpl.
  { f_equal; [lia|set_solver]. }
  rewrite !filter_cons. repeat case_bool_decide.
  - rewrite IH. rewrite decide_True by done.
    rewrite decide_False by tauto. simpl. f_equal. lia.
  - rewrite IH. rewrite decide_False by done.
    rewrite decide_True by done. simpl. f_equal. set_solver.
  - rewrite IH. rewrite decide_False by done.
    rewrite decide_False by tauto. done.
Qed.

Lemma sentenceOfSurroundings_spec ai cell count :
  let B := block (MinesweeperAI.height ai) (MinesweeperAI.width ai) cell in
  let N := B ∖ MinesweeperAI.mines ai ∖ MinesweeperAI.safes ai in
  MinesweeperAI.sentenceOfSurroundings ai cell count
  = if decide (N = ∅) then None
    else Some (Sentence.mk N
                 (count - Z.of_nat (size (B ∩ MinesweeperAI.mines ai)))).
Proof.
  intros B N. unfold MinesweeperAI.sentenceOfSurroundings.
  destruct (surroundings_pairs (MinesweeperAI.height ai) (MinesweeperAI.width ai) cell)
    as [Hnd Hset].
  simpl in Hnd, Hset. cbv zeta.
  set (l := pairs _ _) in *.
  match goal with
  | |- context [foldl _ (count, ∅) (range ?a ?b)] =>
      pose proof (foldl_pairs
        (λ (acc : Z * gset Cell) p,
           let '(count2, cells) := acc in
           if bool_decide (p ∈ MinesweeperAI.mines ai) then (count2 - 1, cells)
           else if bool_decide (p ∉ MinesweeperAI.safes ai)
                then (count2, {[p]} ∪ cells)
                else (count2, cells))
        (range a b)
        (range (if bool_decide (cell.2 - 1 < 0) then 0 else cell.2 - 1)
               (if bool_decide (cell.2 + 2 > MinesweeperAI.width ai)
                then MinesweeperAI.width ai else cell.2 + 2))
        (count, ∅)) as E
  end.
  cbv beta in E. rewrite E. clear E.
  fold l. rewrite surroundings_fold.
  rewrite length_filter_size by done. rewrite Hset. fold B.
  assert (∅ ∪ list_to_set
            (filter (λ p, (p ∉ MinesweeperAI.mines ai) ∧ (p ∉ MinesweeperAI.safes ai)) l)
          = N) as ->.
  { apply set_eq. intros p. subst N B. rewrite <- Hset.
    rewrite elem_of_union, elem_of_list_to_set, list_elem_of_filter,
      !elem_of_difference, elem_of_list_to_set. set_solver. }
  case_decide as HN.
  - rewrite HN, size_empty. by rewrite bool_decide_eq_false_2 by lia.
  - rewrite bool_decide_eq_true_2; [done|].
    assert (size N ≠ 0%nat) by (by apply size_non_empty_iff; intros ?%leibniz_equiv).
    lia.
Qed.

Lemma add_observation_moves_made ai cell count :
  MinesweeperAI.moves_made (MinesweeperAI.add_observation ai cell count)
  = {[cell]} ∪ MinesweeperAI.moves_made ai.
Proof.
  unfold MinesweeperAI.add_observation.
  by destruct (MinesweeperAI.sentenceOfSurroundings _ _ _).
Qed.

Lemma add_observation_mines ai cell count :
  MinesweeperAI.mines (MinesweeperAI.add_observation ai cell count)
  = MinesweeperAI.mines ai.
Proof.
  unfold MinesweeperAI.add_observation.
  by destruct (MinesweeperAI.sentenceOfSurroundings _ _ _).
Qed.

Lemma add_observation_safes ai cell count :
  MinesweeperAI.safes (MinesweeperAI.add_observation ai cell count)
  = {[cell]} ∪ MinesweeperAI.safes ai.
Proof.
  unfold MinesweeperAI.add_observation.
  by destruct (MinesweeperAI.sentenceOfSurroundings _ _ _).
Qed.

Lemma add_observation_height ai cell count :
  MinesweeperAI.height (MinesweeperAI.add_observation ai cell count)
  = MinesweeperAI.height ai.
Proof.
  unfold MinesweeperAI.add_observation.
  by destruct (MinesweeperAI.sentenceOfSurroundings _ _ _).
Qed.

Lemma add_observation_width ai cell count :
  MinesweeperAI.width (MinesweeperAI.add_observation ai cell count)
  = MinesweeperAI.width ai.
Proof.
  unfold MinesweeperAI.add_observation.
  by destruct (MinesweeperAI.sentenceOfSurroundings _ _ _).
Qed.

Lemma size_block_mines (h w : Z) (cell : Cell) (M : gset Cell) :
  Z.of_nat (size (block h w cell ∩ M))
  = Z.of_nat (size (neighbours h w cell ∩ M))
    + (if decide (in_grid h w cell ∧ cell ∈ M) then 1 else 0).
Proof.
  assert (cell ∉ neighbours h w cell) as Hc.
  { rewrite elem_of_neighbours. tauto. }
  unfold block. case_decide as Hg.
  - destruct (decide (cell ∈ M)) as [HM|HM].
    + rewrite decide_True by done.
      replace ((neighbours h w cell ∪ {[cell]}) ∩ M)
        with ((neighbours h w cell ∩ M) ∪ {[cell]}) by set_solver.
      rewrite size_union by set_solver. rewrite size_singleton. lia.
    + rewrite decide_False by tauto.
      replace ((neighbours h w cell ∪ {[cell]}) ∩ M)
        with (neighbours h w cell ∩ M) by set_solver.
      lia.
  - rewrite decide_False by tauto.
    replace ((neighbours h w cell ∪ ∅) ∩ M)
      with (neighbours h w cell ∩ M) by set_solver.
    lia.
Qed.

Lemma add_observation_knowledge ai cell count :
  let h := MinesweeperAI.height ai in
  let w := MinesweeperAI.width ai in
  let N := neighbours h w cell ∖ MinesweeperAI.safes ai ∖ MinesweeperAI.mines ai in
  let m := Z.of_nat (size (neighbours h w cell ∩ MinesweeperAI.mines ai)) in
  let self := if decide (in_grid h w cell ∧ cell ∈ MinesweeperAI.mines ai)
              then 1 else 0 in
  MinesweeperAI.knowledge (MinesweeperAI.add_observation ai cell count)
  = ((λ s, Sentence.mark_safe s cell) <$> MinesweeperAI.knowledge ai)
    ++ (if decide (N = ∅) then [] else [Sentence.mk N (count - m - self)]).
Proof.
  intros h w N m self. unfold MinesweeperAI.add_observation.
  rewrite sentenceOfSurroundings_spec. simpl. fold h w.
  assert (block h w cell ∖ MinesweeperAI.mines ai ∖ ({[cell]} ∪ MinesweeperAI.safes ai)
          = N) as ->.
  { subst N. rewrite block_neighbours. set_solver. }
  rewrite size_block_mines. fold m self.
  case_decide; simpl.
  - by rewrite app_nil_r.
  - do 3 f_equal. lia.
Qed.


(** C4. Steps 1 to 3 of [add_knowledge(cell, count)], for a cell that
    the agent does not hold for a mine, as is every cell that a game
    probes: with [N] the neighbours of [cell] on the grid that are in
    neither [safes] nor [mines] and [m] the number of neighbours of
    [cell] on the grid that are in [mines], the knowledge base, in which
    [cell] has been marked safe, gets exactly one new sentence
    [(N, count - m)] at its end when [N] is not empty and none when it
    is empty. The closure then runs on this agent. *)
Theorem observation_sentence (fuel : nat) (ai : MinesweeperAI.t) (cell : Cell)
    (count : Z) :
  cell ∉ MinesweeperAI.mines ai →
  let h := MinesweeperAI.height ai in
  let w := MinesweeperAI.width ai in
  let N := neighbours h w cell ∖ MinesweeperAI.safes ai ∖ MinesweeperAI.mines ai in
  let m := Z.of_nat (size (neighbours h w cell ∩ MinesweeperAI.mines ai)) in
  MinesweeperAI.knowledge (MinesweeperAI.add_observation ai cell count)
  = MinesweeperAI.knowledge (MinesweeperAI.mark_safe ai cell)
    ++ (if decide (N = ∅) then [] else [Sentence.mk N (count - m)])
  ∧ (∀ iter, MinesweeperAI.add_knowledge iter fuel ai cell count
     = MinesweeperAI.additional_check iter fuel
         (MinesweeperAI.add_observation ai cell count)
       ≫= MinesweeperAI.inference iter fuel).
Proof.
  intros Hcell h w N m. split; [|done].
  rewrite add_observation_knowledge. fold h w N m.
  rewrite (decide_False (P := in_grid h w cell ∧ cell ∈ MinesweeperAI.mines ai))
    by (by intros [_ ?]).
  simpl. case_decide; [done|]. do 3 f_equal. lia.
Qed.

(** ** What the board tells *)

Lemma count_fold (P : Cell → Prop) `{!∀ p, Decision (P p)} (l : list Cell) (n : Z) :
  foldl (λ count p, if decide (P p) then count + 1 else count) n l
  = n + Z.of_nat (length (filter P l)).
Proof.
  revert n. induction l as [|p l IH]; intros n; simpl; [lia|].
  rewrite filter_cons, IH. case_decide; simpl; lia.
Qed.

Lemma nearby_mines_spec g cell :
  Minesweeper.nearby_mines g cell
  = Z.of_nat (size (neighbours (Minesweeper.height g) (Minesweeper.width g) cell
                    ∩ Minesweeper.mines g)).
Proof.
  unfold Minesweeper.nearby_mines.
  set (P := λ p : Cell,
         p ≠ cell
         ∧ in_grid (Minesweeper.height g) (Minesweeper.width g) p
         ∧ p ∈ Minesweeper.mines g).
  pose proof (foldl_pairs
    (λ count p, if decide (P p) then count + 1 else count)
    (range (cell.1 - 1) (cell.1 + 2)) (range (cell.2 - 1) (cell.2 + 2)) 0) as E.
  cbv beta in E.
  etrans; [|etrans; [exact E|]].
  - apply foldl_ext_eq. intros n i. apply foldl_ext_eq. intros count j.
    unfold P, in_grid, Minesweeper.is_mine. simpl.
    repeat case_bool_decide; simpl; case_decide; tauto || (exfalso; tauto).
  - rewrite count_fold.
    set (l := pairs _ _).
    assert (NoDup l) as Hnd by (apply NoDup_pairs; apply NoDup_range).
    rewrite <- (size_list_to_set (C := gset Cell) (filter P l))
      by by apply NoDup_filter.
    rewrite Z.add_0_l. do 2 f_equal. apply set_eq. intros p.
    rewrite elem_of_list_to_set, list_elem_of_filter, elem_of_intersection,
      elem_of_neighbours.
    subst l. rewrite elem_of_pairs, !elem_of_range. unfold P. intuition lia.
Qed.

(** ** Sentences that are true of the board *)

Lemma holds_count_in_range T s : holds T s → count_in_range s.
Proof.
  unfold holds, count_in_range. intros ->.
  assert (size (Sentence.cells s ∩ T) ≤ size (Sentence.cells s))%nat.
  { apply subseteq_size. set_solver. }
  lia.
Qed.

Lemma holds_known_mines T s :
  holds T s → Sentence.known_mines s = Some (Sentence.cells s) →
  Sentence.cells s ⊆ T.
Proof.
  unfold holds. intros H (_ & Hc & _)%known_mines_Some.
  assert (Sentence.cells s ∩ T ≡ Sentence.cells s) as E.
  { apply set_subseteq_size_equiv; [set_solver|lia]. }
  set_solver.
Qed.

Lemma holds_known_safes T s :
  holds T s → Sentence.known_safes s = Some (Sentence.cells s) →
  Sentence.cells s ## T.
Proof.
  unfold holds. intros H (_ & Hc & _)%known_safes_Some.
  assert (Sentence.cells s ∩ T ≡ ∅) as E.
  { apply size_empty_iff. lia. }
  set_solver.
Qed.

Lemma holds_mark_mine T s c :
  c ∈ T → holds T s → holds T (Sentence.mark_mine s c).
Proof.
  unfold holds, Sentence.mark_mine. intros Hc H.
  case_bool_decide as Hin; [|done]. simpl.
  replace (Sentence.cells s ∩ T) with ({[c]} ∪ (Sentence.cells s ∖ {[c]}) ∩ T) in H.
  - rewrite size_union in H by set_solver. rewrite size_singleton in H. lia.
  - apply set_eq. intros p. destruct (decide (p = c)); set_solver.
Qed.

Lemma holds_mark_safe T s c :
  c ∉ T → holds T s → holds T (Sentence.mark_safe s c).
Proof.
  unfold holds, Sentence.mark_safe. intros Hc H. simpl.
  replace ((Sentence.cells s ∖ {[c]}) ∩ T) with (Sentence.cells s ∩ T); [done|].
  set_solver.
Qed.

Lemma holds_derived T s1 s2 :
  holds T s1 → holds T s2 → Sentence.cells s1 ⊆ Sentence.cells s2 →
  holds T (MinesweeperAI.derived s1 s2).
Proof.
  unfold holds, MinesweeperAI.derived. intros H1 H2 Hsub. simpl.
  replace ((Sentence.cells s2 ∖ Sentence.cells s1) ∩ T)
    with ((Sentence.cells s2 ∩ T) ∖ (Sentence.cells s1 ∩ T)) by set_solver.
  rewrite size_difference by set_solver.
  assert (size (Sentence.cells s1 ∩ T) ≤ size (Sentence.cells s2 ∩ T))%nat.
  { apply subseteq_size. set_solver. }
  lia.
Qed.

(** ** The agent stays consistent with the board *)

Lemma consistent_init g :
  consistent g
    (MinesweeperAI.init (Minesweeper.height g) (Minesweeper.width g)).
Proof. split; simpl; (done || set_solver || constructor). Qed.

Lemma consistent_remove g ai s :
  consistent g ai →
  consistent g
    (MinesweeperAI.set_knowledge ai (list_remove s (MinesweeperAI.knowledge ai))).
Proof.
  intros [Hh Hw Hm Hs Hmv Hmg Hmvg Hho Hli Hgr].
  split; simpl; try done; by apply Forall_list_remove.
Qed.

Lemma consistent_mark_mine g ai c :
  consistent g ai → c ∈ Minesweeper.mines g →
  c ∈ grid_cells (Minesweeper.height g) (Minesweeper.width g) →
  consistent g (MinesweeperAI.mark_mine ai c).
Proof.
  intros [Hh Hw Hm Hs Hmv Hmg Hmvg Hho Hli Hgr] HT Hg. split; simpl; try done.
  - set_solver.
  - set_solver.
  - rewrite Forall_fmap. eapply Forall_impl; [exact Hho|].
    intros s Hs'. simpl. by apply holds_mark_mine.
  - rewrite Forall_fmap. eapply Forall_impl; [exact Hli|].
    intros s Hs'. simpl. rewrite sentence_mark_mine_cells. set_solver.
  - rewrite Forall_fmap. eapply Forall_impl; [exact Hgr|].
    intros s Hs'. simpl. rewrite sentence_mark_mine_cells. set_solver.
Qed.

Lemma consistent_mark_safe g ai c :
  consistent g ai → c ∉ Minesweeper.mines g →
  consistent g (MinesweeperAI.mark_safe ai c).
Proof.
  intros [Hh Hw Hm Hs Hmv Hmg Hmvg Hho Hli Hgr] HT. split; simpl; try done.
  - set_solver.
  - set_solver.
  - rewrite Forall_fmap. eapply Forall_impl; [exact Hho|].
    intros s Hs'. simpl. by apply holds_mark_safe.
  - rewrite Forall_fmap. eapply Forall_impl; [exact Hli|].
    intros s Hs'. simpl. set_solver.
  - rewrite Forall_fmap. eapply Forall_impl; [exact Hgr|].
    intros s Hs'. simpl. set_solver.
Qed.

Lemma consistent_append g ai s1 s2 :
  consistent g ai →
  s1 ∈ MinesweeperAI.knowledge ai → s2 ∈ MinesweeperAI.knowledge ai →
  Sentence.cells s1 ⊆ Sentence.cells s2 →
  consistent g
    (MinesweeperAI.set_knowledge ai
       (MinesweeperAI.knowledge ai ++ [MinesweeperAI.derived s1 s2])).
Proof.
  intros [Hh Hw Hm Hs Hmv Hmg Hmvg Hho Hli Hgr] H1 H2 Hsub.
  pose proof Hho as Hho'. pose proof Hli as Hli'. pose proof Hgr as Hgr'.
  rewrite Forall_forall in Hho', Hli', Hgr'.
  split; simpl; try done; (apply Forall_app; split; [done|]);
    apply Forall_singleton.
  - apply holds_derived; auto.
  - simpl. specialize (Hli' _ H2). set_solver.
  - simpl. specialize (Hgr' _ H2). set_solver.
Qed.

Lemma consistent_add_observation g ai cell count :
  consistent g ai → valid_observation g cell count →
  consistent g (MinesweeperAI.add_observation ai cell count).
Proof.
  intros [Hh Hw Hm Hs Hmv Hmg Hmvg Hho Hli Hgr] (Hgrid & Hmine & ->).
  apply bool_decide_eq_false in Hmine.
  apply elem_of_grid_cells in Hgrid.
  pose proof (add_observation_knowledge ai cell (Minesweeper.nearby_mines g cell)) as HK.
  cbv zeta in HK. rewrite Hh, Hw in HK.
  set (nb := neighbours (Minesweeper.height g) (Minesweeper.width g) cell) in *.
  assert (nb ⊆ grid_cells (Minesweeper.height g) (Minesweeper.width g)) as Hnb
    by apply neighbours_grid.
  assert (cell ∉ nb) as Hcell by (subst nb; rewrite elem_of_neighbours; tauto).
  split.
  - by rewrite add_observation_height.
  - by rewrite add_observation_width.
  - by rewrite add_observation_mines.
  - rewrite add_observation_safes. set_solver.
  - rewrite add_observation_moves_made, add_observation_safes. set_solver.
  - by rewrite add_observation_mines.
  - rewrite add_observation_moves_made. set_solver.
  - rewrite HK. apply Forall_app. split.
    + rewrite Forall_fmap. eapply Forall_impl; [exact Hho|].
      intros s Hs'. simpl. by apply holds_mark_safe.
    + case_decide as HN; [constructor|]. apply Forall_singleton.
      unfold holds. simpl. rewrite decide_False by set_solver.
      rewrite nearby_mines_spec. fold nb.
      replace ((nb ∖ MinesweeperAI.safes ai ∖ MinesweeperAI.mines ai)
                 ∩ Minesweeper.mines g)
        with ((nb ∩ Minesweeper.mines g) ∖ (nb ∩ MinesweeperAI.mines ai))
        by set_solver.
      rewrite (size_difference (nb ∩ Minesweeper.mines g)
                 (nb ∩ MinesweeperAI.mines ai)) by set_solver.
      assert (size (nb ∩ MinesweeperAI.mines ai)
              ≤ size (nb ∩ Minesweeper.mines g))%nat.
      { apply subseteq_size. set_solver. }
      lia.
  - rewrite HK, add_observation_mines, add_observation_safes.
    apply Forall_app. split.
    + rewrite Forall_fmap. eapply Forall_impl; [exact Hli|].
      intros s Hs'. simpl. set_solver.
    + case_decide as HN; [constructor|]. apply Forall_singleton. simpl. set_solver.
  - rewrite HK. apply Forall_app. split.
    + rewrite Forall_fmap. eapply Forall_impl; [exact Hgr|].
      intros s Hs'. simpl. set_solver.
    + case_decide as HN; [constructor|]. apply Forall_singleton. simpl. set_solver.
Qed.

Lemma length_pairs rows cols :
  length (pairs rows cols) = (length rows * length cols)%nat.
Proof.
  unfold pairs. induction rows as [|i rows IH]; [done|].
  rewrite bind_cons, length_app, IH. simpl. f_equal.
  clear. induction cols as [|j cols IH]; [done|].
  rewrite bind_cons. simpl. by rewrite IH.
Qed.

Lemma size_grid_cells h w :
  0 ≤ h → 0 ≤ w → Z.of_nat (size (grid_cells h w)) = h * w.
Proof.
  intros Hh Hw. unfold grid_cells.
  rewrite size_list_to_set by (apply NoDup_pairs; apply NoDup_range).
  rewrite length_pairs. unfold range. rewrite !length_seqZ. lia.
Qed.

(** ** The weight of the knowledge base *)

Lemma sum_list_fmap_le {A : Type} (f f' : A → nat) (l : list A) :
  (∀ x, x ∈ l → (f' x ≤ f x)%nat) →
  (sum_list (f' <$> l) ≤ sum_list (f <$> l))%nat.
Proof.
  induction l as [|x l IH]; csimpl; intros H; [done|].
  assert (f' x ≤ f x)%nat by (apply H; left).
  assert (sum_list (f' <$> l) ≤ sum_list (f <$> l))%nat
    by (apply IH; intros; apply H; by right).
  lia.
Qed.

Lemma sum_list_fmap_lt {A : Type} (f f' : A → nat) (l : list A) x :
  (∀ x, x ∈ l → (f' x ≤ f x)%nat) → x ∈ l → (f' x < f x)%nat →
  (sum_list (f' <$> l) < sum_list (f <$> l))%nat.
Proof.
  intros Hle Hx Hlt. induction Hx as [x l|x y l Hx IH]; csimpl.
  - assert (sum_list (f' <$> l) ≤ sum_list (f <$> l))%nat
      by (apply sum_list_fmap_le; intros; apply Hle; by right).
    lia.
  - assert (f' y ≤ f y)%nat by (apply Hle; left).
    assert (sum_list (f' <$> l) < sum_list (f <$> l))%nat
      by (apply IH; [intros; apply Hle; by right|done]).
    lia.
Qed.

Lemma size_remove_le (X : gset Cell) c : (size (X ∖ {[c]}) ≤ size X)%nat.
Proof. apply subseteq_size. set_solver. Qed.

Lemma size_remove_lt (X : gset Cell) c : c ∈ X → (size (X ∖ {[c]}) < size X)%nat.
Proof.
  intros Hc. rewrite (size_difference X {[c]}) by set_solver.
  rewrite size_singleton.
  assert (size X ≠ 0%nat) by (apply size_non_empty_iff; set_solver).
  lia.
Qed.

Lemma weight_mark_mine_le ai c :
  (weight (MinesweeperAI.mark_mine ai c) ≤ weight ai)%nat.
Proof.
  unfold weight. simpl. rewrite <- list_fmap_compose.
  apply sum_list_fmap_le. intros s _. simpl.
  rewrite sentence_mark_mine_cells. apply size_remove_le.
Qed.

Lemma weight_mark_safe_le ai c :
  (weight (MinesweeperAI.mark_safe ai c) ≤ weight ai)%nat.
Proof.
  unfold weight. simpl. rewrite <- list_fmap_compose.
  apply sum_list_fmap_le. intros s _. simpl. apply size_remove_le.
Qed.

Lemma weight_mark_mine_lt ai c s :
  s ∈ MinesweeperAI.knowledge ai → c ∈ Sentence.cells s →
  (weight (MinesweeperAI.mark_mine ai c) < weight ai)%nat.
Proof.
  intros Hs Hc. unfold weight. simpl. rewrite <- list_fmap_compose.
  apply sum_list_fmap_lt with (x := s); [|done|].
  - intros s' _. simpl. rewrite sentence_mark_mine_cells. apply size_remove_le.
  - simpl. rewrite sentence_mark_mine_cells. by apply size_remove_lt.
Qed.

Lemma weight_mark_safe_lt ai c s :
  s ∈ MinesweeperAI.knowledge ai → c ∈ Sentence.cells s →
  (weight (MinesweeperAI.mark_safe ai c) < weight ai)%nat.
Proof.
  intros Hs Hc. unfold weight. simpl. rewrite <- list_fmap_compose.
  apply sum_list_fmap_lt with (x := s); [|done|].
  - intros s' _. simpl. apply size_remove_le.
  - simpl. by apply size_remove_lt.
Qed.

Lemma weight_remove_le ai s :
  (weight (MinesweeperAI.set_knowledge ai
             (list_remove s (MinesweeperAI.knowledge ai))) ≤ weight ai)%nat.
Proof.
  unfold weight. simpl. induction (MinesweeperAI.knowledge ai) as [|y l IH]; csimpl.
  - done.
  - case_decide; csimpl; lia.
Qed.

(** ** Games *)

Lemma play_reachable iter fuel g probes ai :
  Forall (λ cell, in_grid (Minesweeper.height g) (Minesweeper.width g) cell
                  ∧ Minesweeper.is_mine g cell = false) probes →
  play iter fuel g probes = Some ai → reachable iter g ai.
Proof.
  intros Hprobes. unfold play.
  apply for_each_preserves
    with (I := reachable iter g)
         (R := λ cell, in_grid (Minesweeper.height g) (Minesweeper.width g) cell
                       ∧ Minesweeper.is_mine g cell = false);
    [|done|constructor].
  intros a cell a' Ha [Hg Hm] Hrun.
  eapply reachable_add_knowledge; [done| |done]. done.
Qed.

(** ** Sets of cells and their number *)

Lemma elem_of_subsets (X : gset Cell) (l : list Cell) :
  X ⊆ list_to_set l → X ∈ subsets l.
Proof.
  revert X. induction l as [|x l IH]; intros X HX; simpl in *.
  - assert (X = ∅) as -> by set_solver. left.
  - apply elem_of_app. destruct (decide (x ∈ X)) as [Hx|Hx].
    + right. apply list_elem_of_fmap. exists (X ∖ {[x]}). split.
      * apply set_eq. intros p. destruct (decide (p = x)); set_solver.
      * apply IH. set_solver.
    + left. apply IH. set_solver.
Qed.

Lemma length_filter_le {A : Type} (P Q : A → Prop)
    `{!∀ x, Decision (P x)} `{!∀ x, Decision (Q x)} (l : list A) :
  (∀ x, x ∈ l → P x → Q x) →
  (length (filter P l) ≤ length (filter Q l))%nat.
Proof.
  induction l as [|x l IH]; intros Himp; [done|].
  rewrite !filter_cons.
  assert (length (filter P l) ≤ length (filter Q l))%nat
    by (apply IH; intros; apply Himp; [by right|done]).
  destruct (decide (P x)) as [HP|HP].
  - rewrite decide_True by (apply Himp; [left|done]). simpl. lia.
  - case_decide; simpl; lia.
Qed.

Lemma length_filter_lt {A : Type} (P Q : A → Prop)
    `{!∀ x, Decision (P x)} `{!∀ x, Decision (Q x)} (l : list A) y :
  (∀ x, x ∈ l → P x → Q x) → y ∈ l → Q y → ¬ P y →
  (length (filter P l) < length (filter Q l))%nat.
Proof.
  intros Himp Hy HQ HP. induction Hy as [y l|y z l Hy IH].
  - rewrite !filter_cons, decide_False, decide_True by done. simpl.
    assert (length (filter P l) ≤ length (filter Q l))%nat
      by (apply length_filter_le; intros; apply Himp; [by right|done]).
    lia.
  - rewrite !filter_cons.
    assert (length (filter P l) < length (filter Q l))%nat
      by (apply IH; [intros; apply Himp; [by right|done]|done..]).
    destruct (decide (P z)) as [HPz|HPz].
    + rewrite decide_True by (apply Himp; [left|done]). simpl. lia.
    + case_decide; simpl; lia.
Qed.

(** ** Two orders that walk every set alike give the same runs *)

Section Orders.

Variables iter iter' : gset Cell → list Cell.
Hypothesis iter_eq : ∀ X, iter X = iter' X.

Lemma additional_check_ext fuel ai :
  MinesweeperAI.additional_check iter fuel ai
  = MinesweeperAI.additional_check iter' fuel ai.
Proof.
  revert ai. induction fuel as [|fuel IH]; intros ai; [done|]. simpl.
  apply for_each_ext. intros a s.
  destruct (truthy (Sentence.known_mines s)) as [cs|].
  { rewrite iter_eq. by apply for_each_ext. }
  destruct (truthy (Sentence.known_safes s)) as [cs|]; [|done].
  rewrite iter_eq. by apply for_each_ext.
Qed.

Lemma inference_step_ext c :
  MinesweeperAI.inference_step iter c = MinesweeperAI.inference_step iter' c.
Proof.
  destruct c as [[i j] [cn ai]].
  unfold MinesweeperAI.inference_step, MinesweeperAI.inference_body.
  do 2 (destruct (_ !! _); [|done]).
  case_bool_decide; [|done]. destruct (_ && _); [|done].
  destruct (truthy (Sentence.known_mines _)); [by rewrite iter_eq|].
  destruct (truthy (Sentence.known_safes _)); [by rewrite iter_eq|done].
Qed.

Lemma inference_loop_ext fuel c :
  MinesweeperAI.inference_loop iter fuel c
  = MinesweeperAI.inference_loop iter' fuel c.
Proof.
  revert c. induction fuel as [|fuel IH]; intros c; [done|]. simpl.
  rewrite inference_step_ext. by destruct (MinesweeperAI.inference_step iter' c).
Qed.

Lemma inference_ext fuel ai :
  MinesweeperAI.inference iter fuel ai = MinesweeperAI.inference iter' fuel ai.
Proof.
  unfold MinesweeperAI.inference. rewrite inference_loop_ext.
  destruct (MinesweeperAI.inference_loop iter' fuel _) as [[[] a]|]; [|done..].
  apply additional_check_ext.
Qed.

Lemma add_knowledge_ext fuel ai cell count :
  MinesweeperAI.add_knowledge iter fuel ai cell count
  = MinesweeperAI.add_knowledge iter' fuel ai cell count.
Proof.
  unfold MinesweeperAI.add_knowledge. rewrite additional_check_ext.
  destruct (MinesweeperAI.additional_check iter' fuel _); [|done].
  apply inference_ext.
Qed.

Lemma play_ext fuel g probes :
  play iter fuel g probes = play iter' fuel g probes.
Proof.
  unfold play. apply for_each_ext. intros. apply add_knowledge_ext.
Qed.

Lemma closure_again_ext fuel ai :
  closure_again iter fuel ai = closure_again iter' fuel ai.
Proof.
  unfold closure_again. rewrite additional_check_ext.
  destruct (MinesweeperAI.additional_check iter' fuel ai); [|done].
  apply inference_ext.
Qed.

End Orders.

Section Properties.

Variable iter : gset Cell → list Cell.
Hypothesis iter_perm : ∀ X, iter X ≡ₚ elements X.

Lemma elem_of_iter X c : c ∈ iter X ↔ c ∈ X.
Proof. rewrite iter_perm. apply elem_of_elements. Qed.

Lemma iter_nil X : iter X = [] ↔ X = ∅.
Proof.
  split.
  - intros E. apply leibniz_equiv, elements_empty_inv.
    symmetry. apply Permutation_nil_l. rewrite <- E. apply iter_perm.
  - intros ->. apply Permutation_nil_r. rewrite iter_perm.
    by rewrite elements_empty.
Qed.

(** ** Preservation of a property of the agent by the closure

    [P] is a property of agents and [Q] one of sentences, kept by what
    [additional_check] and [inference] do: dropping a sentence, marking
    a cell a sentence with [Q] tells about, deriving a sentence from
    two, appending it. *)
Section Preservation.

Variable P : MinesweeperAI.t → Prop.
Variable Q : Sentence.t → Prop.

Hypothesis P_knowledge : ∀ ai, P ai → Forall Q (MinesweeperAI.knowledge ai).
Hypothesis P_remove : ∀ ai s,
  P ai →
  P (MinesweeperAI.set_knowledge ai (list_remove s (MinesweeperAI.knowledge ai))).
Hypothesis P_mark_mine : ∀ ai s c,
  P ai → Q s → Sentence.known_mines s = Some (Sentence.cells s) →
  c ∈ Sentence.cells s → P (MinesweeperAI.mark_mine ai c).
Hypothesis P_mark_safe : ∀ ai s c,
  P ai → Q s → Sentence.known_safes s = Some (Sentence.cells s) →
  c ∈ Sentence.cells s → P (MinesweeperAI.mark_safe ai c).
Hypothesis Q_derived : ∀ s1 s2,
  Q s1 → Q s2 → Sentence.cells s1 ⊆ Sentence.cells s2 →
  Q (MinesweeperAI.derived s1 s2).
Hypothesis P_append : ∀ ai s1 s2,
  P ai → s1 ∈ MinesweeperAI.knowledge ai → s2 ∈ MinesweeperAI.knowledge ai →
  Sentence.cells s1 ⊆ Sentence.cells s2 →
  ¬ pending (MinesweeperAI.derived s1 s2) →
  MinesweeperAI.derived s1 s2 ∉ MinesweeperAI.knowledge ai →
  P (MinesweeperAI.set_knowledge ai
       (MinesweeperAI.knowledge ai ++ [MinesweeperAI.derived s1 s2])).

Lemma additional_check_preserves fuel ai ai' :
  P ai → MinesweeperAI.additional_check iter fuel ai = Some ai' → P ai'.
Proof.
  revert ai ai'. induction fuel as [|fuel IH]; intros ai ai' HP; [done|].
  simpl. apply for_each_preserves with (I := P) (R := Q); [|by auto|done].
  clear ai HP ai'. intros ai s ai' HP HQ.
  set (ai1 := if bool_decide _ then _ else ai).
  assert (P ai1) as HP1 by (subst ai1; case_bool_decide; auto).
  clearbody ai1. clear ai HP.
  destruct (truthy (Sentence.known_mines s)) as [cs|] eqn:Em.
  { apply truthy_known_mines in Em. pose proof Em as Em'.
    apply known_mines_Some in Em' as (-> & _).
    apply for_each_preserves with (I := P) (R := (.∈ Sentence.cells s)); [|by apply Forall_forall; intros ? ?%elem_of_iter|done].
    intros a c a' Ha Hc. apply IH. eauto. }
  destruct (truthy (Sentence.known_safes s)) as [cs|] eqn:Es.
  { apply truthy_known_safes in Es. pose proof Es as Es'.
    apply known_safes_Some in Es' as (-> & _).
    apply for_each_preserves with (I := P) (R := (.∈ Sentence.cells s)); [|by apply Forall_forall; intros ? ?%elem_of_iter|done].
    intros a c a' Ha Hc. apply IH. eauto. }
  by intros [= <-].
Qed.

Lemma not_pending s :
  Sentence.cells s ≠ ∅ →
  truthy (Sentence.known_mines s) = None →
  truthy (Sentence.known_safes s) = None →
  ¬ pending s.
Proof. unfold pending. tauto. Qed.

Lemma inference_body_preserves s1 s2 cn ai :
  P ai → s1 ∈ MinesweeperAI.knowledge ai → s2 ∈ MinesweeperAI.knowledge ai →
  P (MinesweeperAI.inference_body iter s1 s2 (cn, ai)).2.
Proof.
  intros HP H1 H2. unfold MinesweeperAI.inference_body.
  case_bool_decide as Hsub; [|done].
  destruct (bool_decide _ && bool_decide _) eqn:Hnew; [|done].
  apply andb_prop in Hnew as [Hne%bool_decide_eq_true Hnotin%bool_decide_eq_true].
  assert (Q (MinesweeperAI.derived s1 s2)) as HQ.
  { pose proof (P_knowledge _ HP) as HK. rewrite Forall_forall in HK. auto. }
  destruct (truthy (Sentence.known_mines _)) as [cs|] eqn:Em.
  { apply truthy_known_mines in Em. pose proof Em as Em'.
    apply known_mines_Some in Em' as (-> & _). simpl.
    apply foldl_preserves with (R := (.∈ Sentence.cells (MinesweeperAI.derived s1 s2)));
      [by eauto|by apply Forall_forall; intros ? ?%elem_of_iter|done]. }
  destruct (truthy (Sentence.known_safes _)) as [cs|] eqn:Es.
  { apply truthy_known_safes in Es. pose proof Es as Es'.
    apply known_safes_Some in Es' as (-> & _). simpl.
    apply foldl_preserves with (R := (.∈ Sentence.cells (MinesweeperAI.derived s1 s2)));
      [by eauto|by apply Forall_forall; intros ? ?%elem_of_iter|done]. }
  simpl. apply P_append; [done..| |done].
  apply not_pending; [|done..].
  intros E. rewrite E, size_empty in Hne. lia.
Qed.

Lemma inference_step_preserves c c' :
  P c.2.2 → MinesweeperAI.inference_step iter c = Some c' → P c'.2.2.
Proof.
  destruct c as [[i j] [cn ai]]. simpl. intros HP.
  destruct (MinesweeperAI.knowledge ai !! i) as [s1|] eqn:E1; [|done].
  destruct (MinesweeperAI.knowledge ai !! j) as [s2|] eqn:E2.
  - intros [= <-]. simpl.
    apply inference_body_preserves; [done|by eapply list_elem_of_lookup_2..].
  - by intros [= <-].
Qed.

Lemma inference_loop_preserves fuel c r :
  P c.2.2 → MinesweeperAI.inference_loop iter fuel c = Some r → P r.2.
Proof.
  revert c. induction fuel as [|fuel IH]; intros c HP; [done|]. simpl.
  destruct (MinesweeperAI.inference_step iter c) as [c'|] eqn:E.
  - apply IH. by eapply inference_step_preserves.
  - intros [= <-]. by destruct c as [[??] [??]].
Qed.

Lemma inference_preserves fuel ai ai' :
  P ai → MinesweeperAI.inference iter fuel ai = Some ai' → P ai'.
Proof.
  intros HP. unfold MinesweeperAI.inference.
  destruct (MinesweeperAI.inference_loop _ _ _) as [[cn a]|] eqn:E; [|done].
  apply inference_loop_preserves in E; [|done]. simpl in E.
  destruct cn.
  - by apply additional_check_preserves.
  - by intros [= <-].
Qed.

Lemma add_knowledge_preserves fuel ai cell count ai' :
  P (MinesweeperAI.add_observation ai cell count) →
  MinesweeperAI.add_knowledge iter fuel ai cell count = Some ai' → P ai'.
Proof.
  intros HP. unfold MinesweeperAI.add_knowledge.
  destruct (MinesweeperAI.additional_check _ _ _) as [a|] eqn:E; [|done].
  apply additional_check_preserves in E; [|done].
  by apply inference_preserves.
Qed.

End Preservation.

(** ** The sets of the agent only grow *)

#[local] Instance grows_preorder : PreOrder grows.
Proof.
  split.
  - by intros a.
  - intros a b c (?&?&?) (?&?&?). unfold grows. set_solver.
Qed.

Lemma grows_mark_mine ai c : grows ai (MinesweeperAI.mark_mine ai c).
Proof. unfold grows. simpl. set_solver. Qed.

Lemma grows_mark_safe ai c : grows ai (MinesweeperAI.mark_safe ai c).
Proof. unfold grows. simpl. set_solver. Qed.

Lemma grows_add_observation ai cell count :
  grows ai (MinesweeperAI.add_observation ai cell count).
Proof.
  unfold grows.
  rewrite add_observation_moves_made, add_observation_mines, add_observation_safes.
  set_solver.
Qed.

Lemma additional_check_grows fuel ai0 ai ai' :
  grows ai0 ai →
  MinesweeperAI.additional_check iter fuel ai = Some ai' → grows ai0 ai'.
Proof.
  apply additional_check_preserves with (Q := λ _, True); try done.
  - intros. by apply Forall_true.
  - intros. etrans; [done|apply grows_mark_mine].
  - intros. etrans; [done|apply grows_mark_safe].
Qed.

Lemma inference_grows fuel ai0 ai ai' :
  grows ai0 ai →
  MinesweeperAI.inference iter fuel ai = Some ai' → grows ai0 ai'.
Proof.
  apply inference_preserves with (Q := λ _, True); try done.
  - intros. by apply Forall_true.
  - intros. etrans; [done|apply grows_mark_mine].
  - intros. etrans; [done|apply grows_mark_safe].
Qed.

Lemma add_knowledge_grows fuel ai cell count ai' :
  MinesweeperAI.add_knowledge iter fuel ai cell count = Some ai' →
  grows (MinesweeperAI.add_observation ai cell count) ai'.
Proof.
  unfold MinesweeperAI.add_knowledge.
  destruct (MinesweeperAI.additional_check _ _ _) as [a|] eqn:E; [|done].
  apply inference_grows. by eapply additional_check_grows.
Qed.

Lemma grown_from_mark_mine ai0 ai c :
  grown_from ai0 ai → grown_from ai0 (MinesweeperAI.mark_mine ai c).
Proof.
  intros [H1 H2]. split; [|done].
  etrans; [done|apply grows_mark_mine].
Qed.

Lemma grown_from_mark_safe ai0 ai c :
  grown_from ai0 ai → grown_from ai0 (MinesweeperAI.mark_safe ai c).
Proof.
  intros [H1 H2]. split.
  - etrans; [done|apply grows_mark_safe].
  - simpl. set_solver.
Qed.

Lemma add_knowledge_grown fuel ai cell count ai' :
  MinesweeperAI.moves_made ai ⊆ MinesweeperAI.safes ai →
  MinesweeperAI.add_knowledge iter fuel ai cell count = Some ai' →
  grown_from (MinesweeperAI.add_observation ai cell count) ai'.
Proof.
  intros Hms. apply add_knowledge_preserves with (Q := λ _, True);
    auto using grown_from_mark_mine, grown_from_mark_safe.
  - intros. by apply Forall_true.
  - split; [done|].
    rewrite add_observation_moves_made, add_observation_safes. set_solver.
Qed.

Lemma called_moves_safes h w ai :
  called iter h w ai → MinesweeperAI.moves_made ai ⊆ MinesweeperAI.safes ai.
Proof.
  induction 1 as [|ai fuel cell count ai' _ IH Hrun]; [done|].
  by eapply add_knowledge_grown.
Qed.

Lemma random_loop_agent ai draws : (MinesweeperAI.random_loop ai draws).2 = ai.
Proof.
  induction draws as [|[i j] draws IH]; simpl; [done|].
  by case_bool_decide.
Qed.

Lemma make_random_move_agent ai draws :
  (MinesweeperAI.make_random_move ai draws).2 = ai.
Proof.
  unfold MinesweeperAI.make_random_move.
  case_bool_decide; [apply random_loop_agent|done].
Qed.

Lemma make_safe_move_agent ai : (MinesweeperAI.make_safe_move iter ai).2 = ai.
Proof. unfold MinesweeperAI.make_safe_move. by destruct (iter _). Qed.


(** ** Choosing a move *)

(** C9. [make_safe_move] answers with a cell of [safes] that is not in
    [moves_made] when there is one and with [None] when there is none,
    and it leaves the agent as it was. *)
Theorem make_safe_move_contract (ai : MinesweeperAI.t) :
  let r := MinesweeperAI.make_safe_move iter ai in
  (MinesweeperAI.safes ai ∖ MinesweeperAI.moves_made ai ≠ ∅ ↔
     ∃ cell, r.1 = Some cell
             ∧ cell ∈ MinesweeperAI.safes ai ∧ cell ∉ MinesweeperAI.moves_made ai)
  ∧ (MinesweeperAI.safes ai ∖ MinesweeperAI.moves_made ai = ∅ ↔ r.1 = None)
  ∧ r.2 = ai.
Proof.
  simpl. unfold MinesweeperAI.make_safe_move.
  destruct (iter _) as [|c l] eqn:E; simpl.
  - apply iter_nil in E. split; [|done]. split; [done|]. by intros (c & ? & _).
  - assert (c ∈ MinesweeperAI.safes ai ∖ MinesweeperAI.moves_made ai) as Hc.
    { apply elem_of_iter. rewrite E. left. }
    split; [|split; [|done]].
    + split; [|set_solver]. intros _. exists c. set_solver.
    + split; [set_solver|done].
Qed.

(** ** What a game keeps true *)

Lemma consistent_sentences g ai :
  consistent g ai → Forall (sound g) (MinesweeperAI.knowledge ai).
Proof.
  intros [_ _ _ _ _ _ _ Hho _ Hgr]. apply Forall_and. done.
Qed.

Lemma consistent_known_mines g ai s c :
  consistent g ai → sound g s →
  Sentence.known_mines s = Some (Sentence.cells s) → c ∈ Sentence.cells s →
  consistent g (MinesweeperAI.mark_mine ai c).
Proof.
  intros Ha [Hs Hg] Hk Hin. apply consistent_mark_mine; [done| |set_solver].
  by eapply holds_known_mines.
Qed.

Lemma consistent_known_safes g ai s c :
  consistent g ai → sound g s →
  Sentence.known_safes s = Some (Sentence.cells s) → c ∈ Sentence.cells s →
  consistent g (MinesweeperAI.mark_safe ai c).
Proof.
  intros Ha [Hs Hg] Hk Hin. apply consistent_mark_safe; [done|].
  pose proof (holds_known_safes _ _ Hs Hk). set_solver.
Qed.

Lemma sound_derived g s1 s2 :
  sound g s1 → sound g s2 → Sentence.cells s1 ⊆ Sentence.cells s2 →
  sound g (MinesweeperAI.derived s1 s2).
Proof.
  intros [H1 G1] [H2 G2] Hsub. split; [by apply holds_derived|].
  simpl. set_solver.
Qed.

Lemma additional_check_consistent g fuel ai ai' :
  consistent g ai →
  MinesweeperAI.additional_check iter fuel ai = Some ai' → consistent g ai'.
Proof.
  apply additional_check_preserves with (Q := sound g);
    eauto using consistent_sentences, consistent_remove,
      consistent_known_mines, consistent_known_safes.
Qed.

Lemma inference_step_consistent g c c' :
  consistent g c.2.2 → MinesweeperAI.inference_step iter c = Some c' →
  consistent g c'.2.2.
Proof.
  apply inference_step_preserves with (Q := sound g);
    eauto using consistent_sentences, consistent_known_mines,
      consistent_known_safes, sound_derived, consistent_append.
Qed.

Lemma inference_consistent g fuel ai ai' :
  consistent g ai →
  MinesweeperAI.inference iter fuel ai = Some ai' → consistent g ai'.
Proof.
  apply inference_preserves with (Q := sound g);
    eauto using consistent_sentences, consistent_remove, consistent_known_mines,
      consistent_known_safes, sound_derived, consistent_append.
Qed.

Lemma add_knowledge_consistent g fuel ai cell count ai' :
  consistent g ai → valid_observation g cell count →
  MinesweeperAI.add_knowledge iter fuel ai cell count = Some ai' →
  consistent g ai'.
Proof.
  intros Hc Hv. unfold MinesweeperAI.add_knowledge.
  destruct (MinesweeperAI.additional_check _ _ _) as [a|] eqn:E; [|done].
  apply inference_consistent.
  eapply additional_check_consistent; [|done].
  by apply consistent_add_observation.
Qed.

Lemma reachable_consistent g ai : reachable iter g ai → consistent g ai.
Proof.
  induction 1 as [|ai fuel cell count ai' _ IH Hv Hrun].
  - apply consistent_init.
  - by eapply add_knowledge_consistent.
Qed.

(** A cell that a game probes is not held for a mine. *)
Lemma valid_observation_not_mine g ai cell count :
  reachable iter g ai → valid_observation g cell count →
  cell ∉ MinesweeperAI.mines ai.
Proof.
  intros [_ _ Hm _ _ _ _ _ _ _]%reachable_consistent
         (_ & Hc%bool_decide_eq_false & _).
  set_solver.
Qed.

Lemma inference_steps_consistent g c c' :
  rtc (λ c c', MinesweeperAI.inference_step iter c = Some c') c c' →
  consistent g c.2.2 → consistent g c'.2.2.
Proof.
  induction 1 as [|c1 c2 c3 H12 _ IH]; [done|].
  intros Hc. apply IH. by eapply inference_step_consistent.
Qed.

Lemma inferring_consistent g i j ai : inferring iter g i j ai → consistent g ai.
Proof.
  intros [ai0 fuel cell count ai1 i' j' cn ai' Hr Hv Hac Hsteps].
  apply reachable_consistent in Hr.
  apply (inference_steps_consistent g _ _ Hsteps). simpl.
  eapply additional_check_consistent; [|done].
  by apply consistent_add_observation.
Qed.

(** C2. After each [add_knowledge] call of a game, [mines] and [safes]
    have no cell in common, and no sentence of the knowledge base has a
    cell of [mines] or of [safes]. *)
Theorem knowledge_base_invariant (g : Minesweeper.t) (ai : MinesweeperAI.t) :
  reachable iter g ai →
  MinesweeperAI.mines ai ## MinesweeperAI.safes ai
  ∧ Forall (λ s, Sentence.cells s ## MinesweeperAI.mines ai ∪ MinesweeperAI.safes ai)
           (MinesweeperAI.knowledge ai).
Proof.
  intros [_ _ Hm Hs _ _ _ _ Hli _]%reachable_consistent.
  split; [set_solver|done].
Qed.

(** C3. In a game, every sentence of the knowledge base has a count
    between 0 and the number of its cells, after each [add_knowledge]
    call and while [inference] runs, and so has every sentence
    [inference] derives as [(S2.cells - S1.cells, S2.count - S1.count)]
    from the sentences [S1] and [S2] its loops stand on, when the cells
    of [S1] are among those of [S2]. *)
Theorem subset_subtraction_sound (g : Minesweeper.t) :
  (∀ ai, reachable iter g ai →
     Forall count_in_range (MinesweeperAI.knowledge ai))
  ∧ (∀ i j ai, inferring iter g i j ai →
       Forall count_in_range (MinesweeperAI.knowledge ai)
       ∧ ∀ s1 s2,
           MinesweeperAI.knowledge ai !! i = Some s1 →
           MinesweeperAI.knowledge ai !! j = Some s2 →
           Sentence.cells s1 ⊆ Sentence.cells s2 →
           count_in_range (MinesweeperAI.derived s1 s2)).
Proof.
  split.
  - intros ai [_ _ _ _ _ _ _ Hho _ _]%reachable_consistent.
    eapply Forall_impl; [done|]. intros s. apply holds_count_in_range.
  - intros i j ai [_ _ _ _ _ _ _ Hho _ _]%inferring_consistent. split.
    + eapply Forall_impl; [done|]. intros s. apply holds_count_in_range.
    + intros s1 s2 H1 H2 Hsub. rewrite Forall_forall in Hho.
      apply (holds_count_in_range (Minesweeper.mines g)).
      apply holds_derived; [| |done]; apply Hho; by eapply list_elem_of_lookup_2.
Qed.

Lemma random_loop_spec ai draws :
  match (MinesweeperAI.random_loop ai draws).1 with
  | Some (Some c) =>
      c ∈ draws ∧ c ∉ MinesweeperAI.moves_made ai ∪ MinesweeperAI.mines ai
  | Some None => False
  | None =>
      Forall (λ c, c ∈ MinesweeperAI.moves_made ai ∪ MinesweeperAI.mines ai) draws
  end.
Proof.
  induction draws as [|[i j] draws IH]; simpl; [constructor|].
  case_bool_decide as Hc; simpl.
  - split; [left|done].
  - destruct (MinesweeperAI.random_loop ai draws).1 as [[c|]|].
    + destruct IH. split; [by right|done].
    + done.
    + by constructor.
Qed.

Lemma size_lt_difference (U G : gset Cell) :
  U ⊆ G → Z.of_nat (size U) < Z.of_nat (size G) ↔ G ∖ U ≠ ∅.
Proof.
  intros HUG. pose proof (subseteq_size _ _ HUG). split.
  - intros Hlt E. assert (G ⊆ U) as HGU by set_solver.
    pose proof (subseteq_size _ _ HGU). lia.
  - intros Hne. destruct (decide (size G ≤ size U)%nat) as [Hle|]; [|lia].
    exfalso. apply Hne.
    assert (U ≡ G) as E by by apply set_subseteq_size_equiv.
    set_solver.
Qed.

Lemma make_random_move_answer g ai draws :
  0 ≤ Minesweeper.height g → 0 ≤ Minesweeper.width g → consistent g ai →
  (MinesweeperAI.make_random_move ai draws).1
  = if decide (grid_cells (MinesweeperAI.height ai) (MinesweeperAI.width ai)
               ∖ (MinesweeperAI.moves_made ai ∪ MinesweeperAI.mines ai) ≠ ∅)
    then (MinesweeperAI.random_loop ai draws).1 else Some None.
Proof.
  intros Hh Hw [Eh Ew Hm Hs Hmv Hmg Hmvg _ _ _].
  unfold MinesweeperAI.make_random_move. rewrite Eh, Ew.
  rewrite <- size_grid_cells by done.
  rewrite <- Nat2Z.inj_add, <- size_union by set_solver.
  pose proof (size_lt_difference
    (MinesweeperAI.moves_made ai ∪ MinesweeperAI.mines ai)
    (grid_cells (Minesweeper.height g) (Minesweeper.width g))
    ltac:(set_solver)) as Hlt.
  case_bool_decide as Hc.
  - by rewrite decide_True by by apply Hlt.
  - by rewrite decide_False by by rewrite <- Hlt.
Qed.

(** C8. In a game on a grid of [height] rows and [width] columns,
    with draws that fall on the grid: [make_random_move] answers [None]
    exactly when every cell of the grid is in [moves_made] or in
    [mines]; a cell it answers with is a cell of the grid in neither
    set; its loop goes on exactly as long as there is such a cell and
    none has been drawn; and the agent is left as it was. *)
Theorem make_random_move_contract (g : Minesweeper.t) (ai : MinesweeperAI.t)
    (draws : list Cell) :
  0 ≤ Minesweeper.height g → 0 ≤ Minesweeper.width g →
  reachable iter g ai →
  Forall (in_grid (MinesweeperAI.height ai) (MinesweeperAI.width ai)) draws →
  let r := MinesweeperAI.make_random_move ai draws in
  let free := grid_cells (MinesweeperAI.height ai) (MinesweeperAI.width ai)
              ∖ (MinesweeperAI.moves_made ai ∪ MinesweeperAI.mines ai) in
  (r.1 = Some None ↔ free = ∅)
  ∧ (∀ c, r.1 = Some (Some c) → c ∈ free ∧ c ∈ draws)
  ∧ (r.1 = None ↔ free ≠ ∅ ∧ Forall (λ c, c ∉ free) draws)
  ∧ r.2 = ai.
Proof.
  intros Hh Hw Hr Hdraws r free.
  pose proof (reachable_consistent _ _ Hr) as Hc.
  split; [|split; [|split]]; [| | |apply make_random_move_agent];
    subst r; rewrite (make_random_move_answer g) by done; fold free;
    pose proof (random_loop_spec ai draws) as Hloop;
    (assert (∀ c, c ∈ draws →
               (c ∈ free ↔ c ∉ MinesweeperAI.moves_made ai ∪ MinesweeperAI.mines ai))
       as Hfree;
     [intros c Hin; rewrite Forall_forall in Hdraws;
      apply Hdraws, elem_of_grid_cells in Hin; subst free;
      rewrite elem_of_difference; tauto|]);
    clearbody free;
    destruct (decide (free ≠ ∅)) as [Hne|He%dec_stable].
  - destruct (MinesweeperAI.random_loop ai draws).1 as [[c|]|]; [|done|];
      (split; [done|by intros ?]).
  - done.
  - intros c E. rewrite E in Hloop. destruct Hloop as [Hin Hnot].
    split; [|done]. by apply Hfree.
  - done.
  - split.
    + intros E. rewrite E in Hloop. split; [done|].
      rewrite Forall_forall in Hloop |- *. intros c Hin. rewrite Hfree by done.
      intros Hn. by apply Hn, Hloop.
    + intros [_ Hall]. destruct (MinesweeperAI.random_loop ai draws).1 as [[c|]|];
        [|done..]. destruct Hloop as [Hin Hnot].
      rewrite Forall_forall in Hall. exfalso. apply (Hall c Hin). by apply Hfree.
  - split; [done|]. by intros [? _].
Qed.

(** ** Fact extraction terminates *)

Lemma additional_check_total fuel ai :
  (weight ai < fuel)%nat →
  ∃ ai', MinesweeperAI.additional_check iter fuel ai = Some ai'
         ∧ (weight ai' ≤ weight ai)%nat.
Proof.
  revert ai. induction fuel as [|fuel IH]; intros ai Hfuel; [lia|].
  simpl. pose (W := weight ai).
  assert (weight ai ≤ W)%nat as HW0 by done.
  assert (W ≤ fuel)%nat as HWf by (subst W; lia).
  change (weight ai) with W. clearbody W. clear Hfuel.
  destruct (for_each_total
    (λ cur rem, (weight cur ≤ W)%nat
                ∧ ((weight cur < W)%nat
                   ∨ ∀ x, x ∈ rem → Sentence.cells x ≠ ∅ →
                          x ∈ MinesweeperAI.knowledge cur))
    (λ ai sentence,
       let ai := if bool_decide (Z.of_nat (size (Sentence.cells sentence)) ≤ 0)
                 then MinesweeperAI.set_knowledge ai
                        (list_remove sentence (MinesweeperAI.knowledge ai))
                 else ai in
       match truthy (Sentence.known_mines sentence) with
       | Some cells =>
           for_each (λ ai mine, MinesweeperAI.additional_check iter fuel
                                  (MinesweeperAI.mark_mine ai mine))
                    (iter cells) ai
       | None =>
           match truthy (Sentence.known_safes sentence) with
           | Some cells =>
               for_each (λ ai safe, MinesweeperAI.additional_check iter fuel
                                      (MinesweeperAI.mark_safe ai safe))
                        (iter cells) ai
           | None => Some ai
           end
       end)
    (MinesweeperAI.knowledge ai) ai) as (ai' & Hrun & Hle & _).
  - clear ai HW0. intros cur x rem [Hle Hin].
    set (cur1 := if bool_decide _ then _ else cur).
    assert ((weight cur1 ≤ W)%nat
            ∧ ((weight cur1 < W)%nat
               ∨ ((Sentence.cells x ≠ ∅ → x ∈ MinesweeperAI.knowledge cur1)
                  ∧ ∀ y, y ∈ rem → Sentence.cells y ≠ ∅ →
                         y ∈ MinesweeperAI.knowledge cur1))) as [Hle1 Hin1].
    { subst cur1. case_bool_decide as He.
      - pose proof (weight_remove_le cur x). split; [lia|].
        destruct Hin as [?|Hin]; [left; lia|right].
        assert (Sentence.cells x = ∅) as Hx.
        { apply leibniz_equiv, size_empty_iff. lia. }
        split; [done|]. intros y Hy Hne. simpl.
        apply elem_of_list_remove; [apply Hin; [by right|done]|].
        by intros ->.
      - split; [done|]. destruct Hin as [?|Hin]; [by left|right].
        split; intros; apply Hin; try done; [left|by right]. }
    clearbody cur1. clear cur Hle Hin.
    assert (∀ (mark : MinesweeperAI.t → Cell → MinesweeperAI.t) cs,
              (∀ a c, (weight (mark a c) ≤ weight a)%nat) →
              (∀ a c s, s ∈ MinesweeperAI.knowledge a → c ∈ Sentence.cells s →
                        (weight (mark a c) < weight a)%nat) →
              cs = Sentence.cells x → cs ≠ ∅ →
              ∃ s', for_each (λ a c, MinesweeperAI.additional_check iter fuel (mark a c))
                             (iter cs) cur1 = Some s'
                    ∧ (weight s' ≤ W)%nat
                    ∧ ((weight s' < W)%nat
                       ∨ ∀ y, y ∈ rem → Sentence.cells y ≠ ∅ →
                              y ∈ MinesweeperAI.knowledge s')) as Hinner.
    { intros mark cs Hmle Hmlt -> Hne.
      destruct (for_each_total
        (λ a rem', (∀ c, c ∈ rem' → c ∈ Sentence.cells x)
                   ∧ (weight a ≤ W)%nat
                   ∧ ((weight a < W)%nat
                      ∨ (x ∈ MinesweeperAI.knowledge a ∧ rem' ≠ [])))
        (λ a c, MinesweeperAI.additional_check iter fuel (mark a c))
        (iter (Sentence.cells x)) cur1) as (s' & Hrun & _ & Hle' & Hlt').
      - intros a c rem' (Hcs & Hle & Hlt).
        assert (weight (mark a c) < W)%nat as Hm.
        { destruct Hlt as [Hlt|[Hx _]].
          - pose proof (Hmle a c). lia.
          - assert (c ∈ Sentence.cells x) as Hc by (apply Hcs; left).
            pose proof (Hmlt a c x Hx Hc). lia. }
        destruct (IH (mark a c)) as (a' & Ha' & Hle'); [lia|].
        exists a'. split; [done|]. split; [|split; [lia|left; lia]].
        intros c' Hc'. apply Hcs. by right.
      - split; [by intros c ?%elem_of_iter|]. split; [done|].
        destruct Hin1 as [?|[Hx _]]; [by left|right]. split; [by apply Hx|].
        by rewrite iter_nil.
      - exists s'. split; [done|]. split; [done|]. left.
        destruct Hlt' as [?|[_ ?]]; done. }
    destruct (truthy (Sentence.known_mines x)) as [cs|] eqn:Em.
    { apply truthy_Some in Em as [Em Hne].
      apply known_mines_Some in Em as (-> & _).
      apply Hinner; [apply weight_mark_mine_le|apply weight_mark_mine_lt|done..]. }
    destruct (truthy (Sentence.known_safes x)) as [cs|] eqn:Es.
    { apply truthy_Some in Es as [Es Hne].
      apply known_safes_Some in Es as (-> & _).
      apply Hinner; [apply weight_mark_safe_le|apply weight_mark_safe_lt|done..]. }
    exists cur1. split; [done|]. split; [done|].
    destruct Hin1 as [?|[_ ?]]; [by left|by right].
  - split; [done|]. by right.
  - by exists ai'.
Qed.

Lemma knowledge_mark_mine_notin ai c :
  (∀ s, s ∈ MinesweeperAI.knowledge ai → c ∉ Sentence.cells s) →
  MinesweeperAI.knowledge (MinesweeperAI.mark_mine ai c) = MinesweeperAI.knowledge ai.
Proof.
  simpl. induction (MinesweeperAI.knowledge ai) as [|s l IH]; intros H; [done|].
  csimpl. rewrite sentence_mark_mine_notin by (apply H; left).
  f_equal. apply IH. intros s' Hs'. apply H. by right.
Qed.

Lemma knowledge_mark_safe_notin ai c :
  (∀ s, s ∈ MinesweeperAI.knowledge ai → c ∉ Sentence.cells s) →
  MinesweeperAI.knowledge (MinesweeperAI.mark_safe ai c) = MinesweeperAI.knowledge ai.
Proof.
  simpl. induction (MinesweeperAI.knowledge ai) as [|s l IH]; intros H; [done|].
  csimpl. rewrite sentence_mark_safe_notin by (apply H; left).
  f_equal. apply IH. intros s' Hs'. apply H. by right.
Qed.

Lemma weight_mark_lt_iff (mark : MinesweeperAI.t → Cell → MinesweeperAI.t) ai c :
  (∀ s, s ∈ MinesweeperAI.knowledge ai → c ∈ Sentence.cells s →
        (weight (mark ai c) < weight ai)%nat) →
  ((∀ s, s ∈ MinesweeperAI.knowledge ai → c ∉ Sentence.cells s) →
   MinesweeperAI.knowledge (mark ai c) = MinesweeperAI.knowledge ai) →
  (weight (mark ai c) < weight ai)%nat
  ↔ ∃ s, s ∈ MinesweeperAI.knowledge ai ∧ c ∈ Sentence.cells s.
Proof.
  intros Hlt Heq. split.
  - intros Hw.
    destruct (decide (Exists (λ s, c ∈ Sentence.cells s) (MinesweeperAI.knowledge ai)))
      as [He|Hn].
    + by apply Exists_exists in He.
    + exfalso. rewrite <- Forall_Exists_neg, Forall_forall in Hn.
      unfold weight in Hw. rewrite Heq in Hw by done. lia.
  - intros (s & Hs & Hc). by eapply Hlt.
Qed.

(** C7, amended. [additional_check] terminates on every agent: with a
    budget above the number of (cell, sentence) memberships of the
    knowledge base it returns, so that no chain of nested calls is
    longer than that number plus one, and that number is no larger
    when it returns. A marking never makes that number larger, and it
    makes it strictly smaller exactly when the marked cell is in a
    sentence of the knowledge base: a cell out of the copy that the
    loop walks need not be. *)
Theorem additional_check_terminates (ai : MinesweeperAI.t) (fuel : nat) :
  (weight ai < fuel)%nat →
  (∃ ai', MinesweeperAI.additional_check iter fuel ai = Some ai'
          ∧ (weight ai' ≤ weight ai)%nat)
  ∧ (∀ c, (weight (MinesweeperAI.mark_mine ai c) ≤ weight ai)%nat
          ∧ (weight (MinesweeperAI.mark_safe ai c) ≤ weight ai)%nat)
  ∧ (∀ c, ((weight (MinesweeperAI.mark_mine ai c) < weight ai)%nat
           ↔ ∃ s, s ∈ MinesweeperAI.knowledge ai ∧ c ∈ Sentence.cells s)
          ∧ ((weight (MinesweeperAI.mark_safe ai c) < weight ai)%nat
             ↔ ∃ s, s ∈ MinesweeperAI.knowledge ai ∧ c ∈ Sentence.cells s)).
Proof.
  intros Hfuel. split; [by apply additional_check_total|]. split.
  - intros c. split; [apply weight_mark_mine_le|apply weight_mark_safe_le].
  - intros c. split.
    + apply weight_mark_lt_iff.
      * intros s. apply weight_mark_mine_lt.
      * apply knowledge_mark_mine_notin.
    + apply weight_mark_lt_iff.
      * intros s. apply weight_mark_safe_lt.
      * apply knowledge_mark_safe_notin.
Qed.


(** ** After fact extraction no sentence is pending *)

Lemma settled_filter ai :
  settled ai ↔ filter pending (MinesweeperAI.knowledge ai) = [].
Proof.
  unfold settled. induction (MinesweeperAI.knowledge ai) as [|s l IH].
  - split; [done|constructor].
  - rewrite filter_cons, Forall_cons, IH. case_decide; split; try done.
    + by intros [? _].
    + by intros [_ ?].
Qed.

Lemma additional_check_settled fuel ai ai' :
  MinesweeperAI.additional_check iter fuel ai = Some ai' → settled ai'.
Proof.
  revert ai ai'. induction fuel as [|fuel IH]; intros ai ai'; [done|].
  simpl. intros Hrun. apply settled_filter, submseteq_nil_r.
  revert Hrun.
  apply for_each_preserves_rest
    with (I := λ cur rem, filter pending (MinesweeperAI.knowledge cur) ⊆+ rem);
    [|apply sublist_submseteq, sublist_filter].
  clear ai ai'. intros cur x rem ai' Hinv.
  set (cur1 := if bool_decide _ then _ else cur).
  destruct (truthy (Sentence.known_mines x)) as [cs|] eqn:Em.
  { apply truthy_Some in Em as [_ Hne]. intros Hrun.
    apply for_each_last with (R := settled) in Hrun.
    - apply settled_filter in Hrun. rewrite Hrun. apply submseteq_nil_l.
    - by rewrite iter_nil.
    - intros a c a' _. apply IH. }
  destruct (truthy (Sentence.known_safes x)) as [cs|] eqn:Es.
  { apply truthy_Some in Es as [_ Hne]. intros Hrun.
    apply for_each_last with (R := settled) in Hrun.
    - apply settled_filter in Hrun. rewrite Hrun. apply submseteq_nil_l.
    - by rewrite iter_nil.
    - intros a c a' _. apply IH. }
  intros [= <-]. subst cur1.
  apply submseteq_cons_r in Hinv as [Hinv|(l' & Hperm & Hl')].
  - case_bool_decide; [|done]. simpl.
    etrans; [apply filter_list_remove_submseteq|done].
  - assert (x ∈ filter pending (MinesweeperAI.knowledge cur)) as Hx
      by (rewrite Hperm; left).
    apply list_elem_of_filter in Hx as [Hpx Hx].
    rewrite bool_decide_eq_true_2.
    + simpl. rewrite (filter_list_remove_elem pending x) in Hperm by done.
      apply Permutation_cons_inv in Hperm. by rewrite Hperm.
    + destruct Hpx as [He|[Hm|Hs]]; [|done..].
      rewrite He, size_empty. lia.
Qed.

Lemma settled_additional_check fuel ai :
  settled ai → MinesweeperAI.additional_check iter (S fuel) ai = Some ai.
Proof.
  intros Hs. simpl. apply for_each_id. intros x Hx.
  unfold settled in Hs. rewrite Forall_forall in Hs. specialize (Hs x Hx).
  unfold pending in Hs.
  rewrite bool_decide_eq_false_2.
  - destruct (truthy (Sentence.known_mines x));
      [exfalso; apply Hs; right; left; done|].
    destruct (truthy (Sentence.known_safes x));
      [exfalso; apply Hs; right; right; done|]. done.
  - intros Hle. apply Hs. left. apply leibniz_equiv, size_empty_iff. lia.
Qed.

Lemma inference_step_settled c c' :
  (c.2.1 = false → settled c.2.2) →
  MinesweeperAI.inference_step iter c = Some c' →
  c'.2.1 = false → settled c'.2.2.
Proof.
  destruct c as [[i j] [cn ai]]. simpl. intros Hs.
  destruct (MinesweeperAI.knowledge ai !! i) as [s1|]; [|done].
  destruct (MinesweeperAI.knowledge ai !! j) as [s2|]; [|by intros [= <-]].
  intros [= <-]. simpl. unfold MinesweeperAI.inference_body.
  case_bool_decide; [|done].
  destruct (bool_decide _ && bool_decide _) eqn:Hnew; [|done].
  apply andb_prop in Hnew as [Hne%bool_decide_eq_true _].
  destruct (truthy (Sentence.known_mines _)) eqn:Em; [done|].
  destruct (truthy (Sentence.known_safes _)) eqn:Es; [done|].
  simpl. intros ->. unfold settled. simpl. apply Forall_app. split; [by apply Hs|].
  apply Forall_singleton. apply not_pending; [|done..].
  intros E. simpl in E, Hne. rewrite E, size_empty in Hne. lia.
Qed.

Lemma inference_loop_settled fuel c r :
  (c.2.1 = false → settled c.2.2) →
  MinesweeperAI.inference_loop iter fuel c = Some r →
  r.1 = false → settled r.2.
Proof.
  revert c. induction fuel as [|fuel IH]; intros c Hs; [done|]. simpl.
  destruct (MinesweeperAI.inference_step iter c) as [c'|] eqn:E.
  - apply IH. by eapply inference_step_settled.
  - by intros [= <-].
Qed.

Lemma add_knowledge_settled fuel ai cell count ai' :
  MinesweeperAI.add_knowledge iter fuel ai cell count = Some ai' → settled ai'.
Proof.
  unfold MinesweeperAI.add_knowledge.
  destruct (MinesweeperAI.additional_check _ _ _) as [a|] eqn:E; [|done].
  apply additional_check_settled in E.
  unfold MinesweeperAI.inference.
  destruct (MinesweeperAI.inference_loop _ _ _) as [[cn a']|] eqn:E'; [|done].
  pose proof (inference_loop_settled fuel (O, O, (false, a)) (cn, a') (λ _, E) E')
    as Hs. simpl in Hs.
  destruct cn.
  - apply additional_check_settled.
  - intros [= <-]. by apply Hs.
Qed.

(** What a call of [add_knowledge] does reach: when it has returned,
    no sentence of the knowledge base is empty or tells its cells to be
    mines or to be safe, and [additional_check] changes nothing. *)
Lemma add_knowledge_fact_extraction_done fuel fuel' ai cell count ai' :
  MinesweeperAI.add_knowledge iter fuel ai cell count = Some ai' →
  settled ai' ∧ MinesweeperAI.additional_check iter (S fuel') ai' = Some ai'.
Proof.
  intros H%add_knowledge_settled. split; [done|].
  by apply settled_additional_check.
Qed.

(** ** [add_knowledge] returns *)

Lemma additional_check_fuel_mono fuel fuel' ai r :
  (fuel ≤ fuel')%nat →
  MinesweeperAI.additional_check iter fuel ai = Some r →
  MinesweeperAI.additional_check iter fuel' ai = Some r.
Proof.
  revert fuel' ai r. induction fuel as [|fuel IH]; intros fuel' ai r Hle; [done|].
  destruct fuel' as [|fuel']; [lia|]. simpl.
  apply for_each_mono. intros a s a'.
  destruct (truthy (Sentence.known_mines s)).
  { apply for_each_mono. intros ???. apply IH. lia. }
  destruct (truthy (Sentence.known_safes s)); [|done].
  apply for_each_mono. intros ???. apply IH. lia.
Qed.

Lemma inference_loop_fuel_mono fuel fuel' c r :
  (fuel ≤ fuel')%nat →
  MinesweeperAI.inference_loop iter fuel c = Some r →
  MinesweeperAI.inference_loop iter fuel' c = Some r.
Proof.
  revert fuel' c. induction fuel as [|fuel IH]; intros fuel' c Hle; [done|].
  destruct fuel' as [|fuel']; [lia|]. simpl.
  destruct (MinesweeperAI.inference_step iter c); [|done].
  apply IH. lia.
Qed.

Lemma candidates_mark_mine ai c :
  (length (candidates (MinesweeperAI.mark_mine ai c)) ≤ length (candidates ai))%nat.
Proof.
  unfold candidates. simpl. apply length_filter_le.
  intros X _ [Hd Hn]. split; [set_solver|].
  intros (s & -> & Hs)%list_elem_of_fmap. apply Hn.
  apply list_elem_of_fmap. exists (Sentence.mark_mine s c). split.
  - rewrite sentence_mark_mine_cells. set_solver.
  - apply list_elem_of_fmap. by exists s.
Qed.

Lemma candidates_mark_safe ai c :
  (length (candidates (MinesweeperAI.mark_safe ai c)) ≤ length (candidates ai))%nat.
Proof.
  unfold candidates. simpl. apply length_filter_le.
  intros X _ [Hd Hn]. split; [set_solver|].
  intros (s & -> & Hs)%list_elem_of_fmap. apply Hn.
  apply list_elem_of_fmap. exists (Sentence.mark_safe s c). split.
  - simpl. set_solver.
  - apply list_elem_of_fmap. by exists s.
Qed.

Lemma slack_mark_mine ai c :
  (slack (MinesweeperAI.mark_mine ai c) ≤ slack ai)%nat
  ∧ length (MinesweeperAI.knowledge (MinesweeperAI.mark_mine ai c))
    = length (MinesweeperAI.knowledge ai).
Proof.
  pose proof (candidates_mark_mine ai c). unfold slack. simpl.
  rewrite length_fmap. split; [lia|done].
Qed.

Lemma slack_mark_safe ai c :
  (slack (MinesweeperAI.mark_safe ai c) ≤ slack ai)%nat
  ∧ length (MinesweeperAI.knowledge (MinesweeperAI.mark_safe ai c))
    = length (MinesweeperAI.knowledge ai).
Proof.
  pose proof (candidates_mark_safe ai c). unfold slack. simpl.
  rewrite length_fmap. split; [lia|done].
Qed.

Lemma slack_foldl (mark : MinesweeperAI.t → Cell → MinesweeperAI.t) l ai :
  (∀ a c, (slack (mark a c) ≤ slack a)%nat
          ∧ length (MinesweeperAI.knowledge (mark a c))
            = length (MinesweeperAI.knowledge a)) →
  (slack (foldl mark ai l) ≤ slack ai)%nat
  ∧ length (MinesweeperAI.knowledge (foldl mark ai l))
    = length (MinesweeperAI.knowledge ai).
Proof.
  intros Hmark. revert ai. induction l as [|c l IH]; intros ai; simpl; [done|].
  destruct (IH (mark ai c)) as [H1 H2]. destruct (Hmark ai c) as [H3 H4].
  split; [lia|congruence].
Qed.

Lemma holds_cells_eq T s s' :
  holds T s → holds T s' → Sentence.cells s = Sentence.cells s' → s = s'.
Proof.
  unfold holds. destruct s as [X n], s' as [X' n']. simpl.
  intros -> -> ->. done.
Qed.

Lemma candidates_append g ai s1 s2 :
  consistent g ai →
  s1 ∈ MinesweeperAI.knowledge ai → s2 ∈ MinesweeperAI.knowledge ai →
  Sentence.cells s1 ⊆ Sentence.cells s2 →
  MinesweeperAI.derived s1 s2 ∉ MinesweeperAI.knowledge ai →
  (length (candidates (MinesweeperAI.set_knowledge ai
             (MinesweeperAI.knowledge ai ++ [MinesweeperAI.derived s1 s2])))
   < length (candidates ai))%nat.
Proof.
  intros [Hh Hw Hm Hs Hmv Hmg Hmvg Hho Hli Hgr] H1 H2 Hsub Hnew.
  rewrite Forall_forall in Hho, Hli, Hgr.
  unfold candidates. simpl.
  apply length_filter_lt with (y := Sentence.cells (MinesweeperAI.derived s1 s2)).
  - intros X _ [Hd Hn]. split; [done|]. intros HX. apply Hn.
    rewrite fmap_app. apply elem_of_app. by left.
  - apply elem_of_subsets. rewrite list_to_set_elements_L.
    rewrite Hh, Hw. specialize (Hgr _ H2). simpl. set_solver.
  - split.
    + specialize (Hli _ H2). simpl. set_solver.
    + intros (s & E & Hs')%list_elem_of_fmap. apply Hnew.
      replace (MinesweeperAI.derived s1 s2) with s; [done|].
      symmetry. apply (holds_cells_eq (Minesweeper.mines g)); [|by apply Hho|done].
      apply holds_derived; auto.
  - intros [_ Hn]. apply Hn. rewrite fmap_app. apply elem_of_app. right.
    simpl. left.
Qed.

Lemma slack_inference_body g s1 s2 cn ai :
  consistent g ai →
  s1 ∈ MinesweeperAI.knowledge ai → s2 ∈ MinesweeperAI.knowledge ai →
  (slack (MinesweeperAI.inference_body iter s1 s2 (cn, ai)).2 ≤ slack ai)%nat.
Proof.
  intros Hc H1 H2. unfold MinesweeperAI.inference_body.
  case_bool_decide as Hsub; [|done].
  destruct (bool_decide _ && bool_decide _) eqn:Hnew; [|done].
  apply andb_prop in Hnew as [_ Hnotin%bool_decide_eq_true].
  destruct (truthy (Sentence.known_mines _)).
  { simpl. apply slack_foldl, slack_mark_mine. }
  destruct (truthy (Sentence.known_safes _)).
  { simpl. apply slack_foldl, slack_mark_safe. }
  simpl. pose proof (candidates_append g ai s1 s2 Hc H1 H2 Hsub Hnotin).
  unfold slack. simpl. rewrite length_app. simpl. lia.
Qed.

Lemma inference_loop_total g fuel c :
  consistent g c.2.2 →
  (inference_budget c < fuel)%nat →
  ∃ r, MinesweeperAI.inference_loop iter fuel c = Some r.
Proof.
  revert c. induction fuel as [|fuel IH]; intros c Hc Hfuel; [lia|].
  simpl. destruct (MinesweeperAI.inference_step iter c) as [c'|] eqn:E; [|by eexists].
  apply IH.
  - by eapply inference_step_consistent.
  - destruct c as [[i j] [cn ai]].
    unfold MinesweeperAI.inference_step in E. unfold inference_budget in Hfuel.
    cbn [fst snd] in E, Hc, Hfuel.
    destruct (MinesweeperAI.knowledge ai !! i) as [s1|] eqn:E1; [|done].
    pose proof (lookup_lt_Some _ _ _ E1) as Hi.
    destruct (MinesweeperAI.knowledge ai !! j) as [s2|] eqn:E2.
    + pose proof (lookup_lt_Some _ _ _ E2) as Hj.
      assert (c' = (i, S j, MinesweeperAI.inference_body iter s1 s2 (cn, ai)))
        as -> by congruence.
      pose proof (slack_inference_body g s1 s2 cn ai Hc
                    ltac:(by eapply list_elem_of_lookup_2)
                    ltac:(by eapply list_elem_of_lookup_2)) as Hsl.
      assert (length (MinesweeperAI.knowledge ai) ≤ slack ai)%nat
        by (unfold slack; lia).
      unfold inference_budget. cbv beta iota zeta.
      generalize dependent (slack (MinesweeperAI.inference_body iter s1 s2 (cn, ai)).2).
      intros L' HL'. generalize dependent (slack ai). intros L HL Hlen HL'.
      assert ((L' - i) * (L' + 2) ≤ (L - i) * (L + 2))%nat by nia.
      lia.
    + assert (c' = (S i, O, (cn, ai))) as -> by congruence.
      assert (length (MinesweeperAI.knowledge ai) ≤ slack ai)%nat
        by (unfold slack; lia).
      unfold inference_budget. cbv beta iota zeta. simpl snd.
      generalize dependent (slack ai). intros L HL Hlen. nia.
Qed.

Lemma inference_total g ai :
  consistent g ai →
  ∃ fuel ai', ∀ fuel', (fuel ≤ fuel')%nat →
    MinesweeperAI.inference iter fuel' ai = Some ai'.
Proof.
  intros Hc.
  destruct (inference_loop_total g (S (inference_budget (O, O, (false, ai))))
              (O, O, (false, ai)) Hc) as [[cn a] Hloop]; [lia|].
  destruct cn.
  - destruct (additional_check_total (S (weight a)) a) as (a' & Hac & _); [lia|].
    exists (Nat.max (S (inference_budget (O, O, (false, ai)))) (S (weight a))), a'.
    intros fuel' Hle. unfold MinesweeperAI.inference.
    assert (S (inference_budget (O, O, (false, ai))) ≤ fuel')%nat as Hle1 by lia.
    assert (S (weight a) ≤ fuel')%nat as Hle2 by lia.
    rewrite (inference_loop_fuel_mono _ fuel' _ _ Hle1 Hloop).
    apply (additional_check_fuel_mono _ fuel' _ _ Hle2 Hac).
  - exists (S (inference_budget (O, O, (false, ai)))), a.
    intros fuel' Hle. unfold MinesweeperAI.inference.
    by rewrite (inference_loop_fuel_mono _ fuel' _ _ Hle Hloop).
Qed.

(** In a game every call of [add_knowledge] returns: there is a budget
    from which on the call gives one and the same agent, and this agent
    is again one of the game. *)
Lemma add_knowledge_returns g ai cell count :
  reachable iter g ai → valid_observation g cell count →
  ∃ fuel ai',
    (∀ fuel', (fuel ≤ fuel')%nat →
       MinesweeperAI.add_knowledge iter fuel' ai cell count = Some ai')
    ∧ reachable iter g ai'.
Proof.
  intros Hr Hv. pose proof (reachable_consistent _ _ Hr) as Hc.
  pose proof (consistent_add_observation _ _ _ _ Hc Hv) as Hobs.
  destruct (additional_check_total
              (S (weight (MinesweeperAI.add_observation ai cell count)))
              (MinesweeperAI.add_observation ai cell count))
    as (a1 & Hac & _); [lia|].
  pose proof (additional_check_consistent _ _ _ _ Hobs Hac) as H1.
  destruct (inference_total g a1 H1) as (n & ai' & Hinf).
  set (n0 := S (weight (MinesweeperAI.add_observation ai cell count))) in *.
  assert (∀ fuel', (Nat.max n0 n ≤ fuel')%nat →
            MinesweeperAI.add_knowledge iter fuel' ai cell count = Some ai') as Hrun.
  { intros fuel' Hle. unfold MinesweeperAI.add_knowledge.
    assert (n0 ≤ fuel')%nat as Hle0 by lia.
    rewrite (additional_check_fuel_mono _ fuel' _ _ Hle0 Hac).
    apply Hinf. lia. }
  exists (Nat.max n0 n), ai'. split; [done|].
  eapply reachable_add_knowledge; [done..|]. by apply (Hrun (Nat.max n0 n)).
Qed.

(** C10. After any sequence of [add_knowledge] calls every move made is
    a known safe cell. The first steps of a call, which always end, put
    its cell into both [moves_made] and [safes], and a call that returns
    has kept it there. In a game every call returns, with its cell in
    both sets and every move made a known safe cell. No operation of the
    agent takes a cell out of [moves_made], [mines] or [safes]. *)
Theorem moves_safe_and_sets_grow :
  (∀ h w ai, called iter h w ai →
     MinesweeperAI.moves_made ai ⊆ MinesweeperAI.safes ai)
  ∧ (∀ ai cell count,
       cell ∈ MinesweeperAI.moves_made (MinesweeperAI.add_observation ai cell count)
       ∧ cell ∈ MinesweeperAI.safes (MinesweeperAI.add_observation ai cell count)
       ∧ grows ai (MinesweeperAI.add_observation ai cell count))
  ∧ (∀ fuel ai cell count ai',
       MinesweeperAI.add_knowledge iter fuel ai cell count = Some ai' →
       cell ∈ MinesweeperAI.moves_made ai' ∧ cell ∈ MinesweeperAI.safes ai')
  ∧ (∀ g ai cell count,
       reachable iter g ai → valid_observation g cell count →
       ∃ fuel ai',
         (∀ fuel', (fuel ≤ fuel')%nat →
            MinesweeperAI.add_knowledge iter fuel' ai cell count = Some ai')
         ∧ cell ∈ MinesweeperAI.moves_made ai'
         ∧ cell ∈ MinesweeperAI.safes ai'
         ∧ MinesweeperAI.moves_made ai' ⊆ MinesweeperAI.safes ai'
         ∧ grows ai ai')
  ∧ (∀ ai ai', operation iter ai ai' → grows ai ai').
Proof.
  assert (∀ fuel ai cell count ai',
            MinesweeperAI.add_knowledge iter fuel ai cell count = Some ai' →
            cell ∈ MinesweeperAI.moves_made ai' ∧ cell ∈ MinesweeperAI.safes ai')
    as Hcell.
  { intros fuel ai cell count ai' (Hm & _ & Hs)%add_knowledge_grows.
    rewrite add_observation_moves_made in Hm.
    rewrite add_observation_safes in Hs. set_solver. }
  split; [apply called_moves_safes|]. split; [|split; [done|split]].
  - intros ai cell count.
    rewrite add_observation_moves_made, add_observation_safes.
    split; [set_solver|]. split; [set_solver|]. apply grows_add_observation.
  - intros g ai cell count Hr Hv.
    destruct (add_knowledge_returns g ai cell count Hr Hv)
      as (fuel & ai' & Hrun & Hr').
    pose proof (Hrun fuel (Nat.le_refl _)) as E.
    destruct (Hcell _ _ _ _ _ E) as [Hm Hs].
    destruct (reachable_consistent g ai' Hr') as [_ _ _ _ Hmv _ _ _ _ _].
    exists fuel, ai'. do 4 (split; [done|]).
    etrans; [apply grows_add_observation|by eapply add_knowledge_grows].
  - intros ai ai' [a c|a c|a fuel cell count a' Hrun|a fuel a' Hrun
                  |a fuel a' Hrun|a|a draws].
    + apply grows_mark_mine.
    + apply grows_mark_safe.
    + etrans; [apply grows_add_observation|by eapply add_knowledge_grows].
    + by eapply additional_check_grows.
    + by eapply inference_grows.
    + by rewrite make_safe_move_agent.
    + by rewrite make_random_move_agent.
Qed.

(** ** The closure of one call is not a fixpoint, whatever the order *)

Lemma small_first_eq X : iter X = small_first iter X.
Proof.
  unfold small_first. case_decide as Hs; [|done].
  pose proof (iter_perm X) as Hp.
  destruct (elements X) as [|x [|y l]] eqn:E.
  - by apply Permutation_nil_r in Hp.
  - by apply Permutation_singleton_r in Hp.
  - exfalso. assert (length (elements X) = size X) as Hl by done.
    rewrite E in Hl. simpl in Hl. lia.
Qed.

(** In the first game the loops walk no set of more than one cell: the
    agent after the four calls and what a second run of the closure
    appends are the same for every order. *)
Lemma closure_not_reached_any_order :
  play iter 50 closure_board closure_probes = Some closure_agent
  ∧ closure_again iter 50 closure_agent
    = Some (MinesweeperAI.set_knowledge closure_agent
              (MinesweeperAI.knowledge closure_agent
               ++ [Sentence.mk {[ (1, 0); (2, 0) ]} 1])).
Proof.
  rewrite (play_ext iter (small_first iter) small_first_eq).
  rewrite (closure_again_ext iter (small_first iter) small_first_eq).
  split; vm_compute; reflexivity.
Qed.

End Properties.

(** ** The closure of one call is not a fixpoint *)

Lemma closure_agent_played :
  play elements 50 closure_board closure_probes = Some closure_agent.
Proof. vm_compute. reflexivity. Qed.

Lemma closure_agent_reachable : reachable elements closure_board closure_agent.
Proof.
  eapply play_reachable; [|exact closure_agent_played].
  unfold closure_probes.
  repeat (constructor; [split; [unfold in_grid; simpl; lia|vm_compute; reflexivity]|]).
  constructor.
Qed.

(** C1, on the code. After the fourth [add_knowledge] call of this
    game has returned, running [additional_check] and [inference] once
    more appends the sentence [({(1,0), (2,0)}, 1)] to the knowledge
    base: the call did not reach a fixpoint. During the call,
    [inference] marked (0,2) safe when its outer loop stood on the last
    sentence, which shrank the third sentence to [{(1,1), (2,2)}]; the
    outer loop had passed it, and [inference] is not run again. *)
Theorem closure_not_reached :
  play elements 50 closure_board closure_probes = Some closure_agent
  ∧ reachable elements closure_board closure_agent
  ∧ closure_again elements 50 closure_agent
    = Some (MinesweeperAI.set_knowledge closure_agent
              (MinesweeperAI.knowledge closure_agent
               ++ [Sentence.mk {[ (1, 0); (2, 0) ]} 1])).
Proof.
  split; [exact closure_agent_played|]. split; [exact closure_agent_reachable|].
  vm_compute. reflexivity.
Qed.

(** In the second game the call misses a mine: run once more, the
    closure marks (0,0), and the sentences shrink accordingly. *)
Lemma closure_misses_a_mine :
  play elements 50 missed_board missed_probes = Some missed_agent
  ∧ (closure_again elements 50 missed_agent
     = Some (MinesweeperAI.mark_mine missed_agent (0, 0))).
Proof. split; vm_compute; reflexivity. Qed.


(** ** An observation on a cell the agent holds for a mine *)

(** No game probes a cell that the agent holds for a mine. An agent that
    is told about such a cell all the same, here that (0,1) has no mine
    around, lowers the count by one more: the sentence appended is
    [(N, -1)]. *)
Lemma observation_on_flagged_cell :
  let ai := mined_agent in
  let N := neighbours 1 3 (0, 1) ∖ MinesweeperAI.safes ai ∖ MinesweeperAI.mines ai in
  let m := Z.of_nat (size (neighbours 1 3 (0, 1) ∩ MinesweeperAI.mines ai)) in
  MinesweeperAI.add_knowledge elements 5 (MinesweeperAI.init 1 3) (0, 0) 1 = Some ai
  ∧ (0, 1) ∈ MinesweeperAI.mines ai
  ∧ N = {[ (0, 2) ]} ∧ m = 0
  ∧ MinesweeperAI.knowledge (MinesweeperAI.add_observation ai (0, 1) 0)
    = MinesweeperAI.knowledge (MinesweeperAI.mark_safe ai (0, 1))
      ++ [Sentence.mk N (-1)].
Proof.
  cbv zeta.
  split; [vm_compute; reflexivity|].
  split; [apply (bool_decide_unpack _); vm_compute; exact I|].
  split; [vm_compute; reflexivity|].
  split; [vm_compute; reflexivity|].
  vm_compute; reflexivity.
Qed.

(** ** The theorems at work *)

Lemma elements_perm (X : gset Cell) : elements X ≡ₚ elements X.
Proof. done. Qed.

Lemma strip_agent_played :
  MinesweeperAI.add_knowledge elements 5 (MinesweeperAI.init 1 3) (0, 0) 0
  = Some strip_agent.
Proof. vm_compute. reflexivity. Qed.

Lemma strip_observation : valid_observation strip_board (0, 0) 0.
Proof.
  split; [split; simpl; lia|]. split; vm_compute; reflexivity.
Qed.

Lemma flagged_agent_played :
  MinesweeperAI.add_knowledge elements 5 (MinesweeperAI.init 1 4) (0, 0) 1
  = Some flagged_agent.
Proof. vm_compute. reflexivity. Qed.

Lemma observation_sentence_witness :
  MinesweeperAI.add_knowledge elements 5 (MinesweeperAI.init 1 4) (0, 0) 1
  = Some flagged_agent
  ∧ ((0, 2) ∉ MinesweeperAI.mines flagged_agent)
  ∧ neighbours 1 4 (0, 2) ∖ MinesweeperAI.safes flagged_agent
      ∖ MinesweeperAI.mines flagged_agent = {[ (0, 3) ]}
  ∧ Z.of_nat (size (neighbours 1 4 (0, 2) ∩ MinesweeperAI.mines flagged_agent)) = 1
  ∧ (let h := MinesweeperAI.height flagged_agent in
     let w := MinesweeperAI.width flagged_agent in
     let N := neighbours h w (0, 2) ∖ MinesweeperAI.safes flagged_agent
              ∖ MinesweeperAI.mines flagged_agent in
     let m := Z.of_nat (size (neighbours h w (0, 2)
                              ∩ MinesweeperAI.mines flagged_agent)) in
     MinesweeperAI.knowledge (MinesweeperAI.add_observation flagged_agent (0, 2) 2)
     = MinesweeperAI.knowledge (MinesweeperAI.mark_safe flagged_agent (0, 2))
       ++ (if decide (N = ∅) then [] else [Sentence.mk N (2 - m)])
     ∧ (∀ iter, MinesweeperAI.add_knowledge iter 5 flagged_agent (0, 2) 2
        = MinesweeperAI.additional_check iter 5
            (MinesweeperAI.add_observation flagged_agent (0, 2) 2)
          ≫= MinesweeperAI.inference iter 5)).
Proof.
  assert ((0, 2) ∉ MinesweeperAI.mines flagged_agent) as Hc
    by (apply (bool_decide_unpack _); vm_compute; exact I).
  split; [exact flagged_agent_played|]. split; [exact Hc|].
  split; [vm_compute; reflexivity|]. split; [vm_compute; reflexivity|].
  exact (observation_sentence 5 flagged_agent (0, 2) 2 Hc).
Defined.

Lemma knowledge_base_invariant_witness :
  (∀ X : gset Cell, elements X ≡ₚ elements X)
  ∧ reachable elements closure_board closure_agent
  ∧ MinesweeperAI.mines closure_agent ## MinesweeperAI.safes closure_agent
  ∧ Forall (λ s, Sentence.cells s
                   ## MinesweeperAI.mines closure_agent
                      ∪ MinesweeperAI.safes closure_agent)
           (MinesweeperAI.knowledge closure_agent).
Proof.
  split; [exact elements_perm|]. split; [exact closure_agent_reachable|].
  apply (knowledge_base_invariant elements elements_perm closure_board closure_agent).
  exact closure_agent_reachable.
Defined.

Lemma subset_subtraction_sound_witness :
  (∀ X : gset Cell, elements X ≡ₚ elements X)
  ∧ Forall count_in_range (MinesweeperAI.knowledge closure_agent).
Proof.
  split; [exact elements_perm|].
  apply (subset_subtraction_sound elements elements_perm closure_board).
  exact closure_agent_reachable.
Defined.


Lemma additional_check_terminates_witness :
  (∀ X : gset Cell, elements X ≡ₚ elements X)
  ∧ (weight pending_agent < 3)%nat
  ∧ (∃ ai', MinesweeperAI.additional_check elements 3 pending_agent = Some ai'
            ∧ (weight ai' ≤ weight pending_agent)%nat)
  ∧ ((weight (MinesweeperAI.mark_mine pending_agent (0%Z, 0%Z)) < weight pending_agent)%nat
     ↔ ∃ s, s ∈ MinesweeperAI.knowledge pending_agent ∧ (0, 0) ∈ Sentence.cells s).
Proof.
  split; [exact elements_perm|].
  assert (weight pending_agent < 3)%nat as H by (vm_compute; lia).
  split; [exact H|].
  destruct (additional_check_terminates elements elements_perm pending_agent 3 H)
    as (Hrun & _ & Hlt).
  split; [exact Hrun|]. exact (proj1 (Hlt (0, 0))).
Defined.

(** C7, as stated, fails here. In the game on [flanked_board] a new
    agent is told that (0,1) has two mines around, and
    [additional_check] is called on [pending_agent]. Its loop walks the
    two cells of the copy of the one sentence. Whichever comes first,
    the marking of it and the nested call after it lead to
    [checked_agent], in which both cells are in [mines] and no sentence
    is left. The marking of the other cell, which the nested call has
    marked already, then changes nothing, neither the number of
    memberships nor [mines] nor [safes]; and [additional_check] is
    called once more. *)
Lemma additional_check_terminates_counterexample :
  valid_observation flanked_board (0, 1) 2
  ∧ MinesweeperAI.add_observation (MinesweeperAI.init 1 3) (0, 1) 2 = pending_agent
  ∧ truthy (Sentence.known_mines (Sentence.mk {[ (0, 0); (0, 2) ]} 2))
    = Some {[ (0, 0); (0, 2) ]}
  ∧ elements ({[ (0, 0); (0, 2) ]} : gset Cell) = [ (0, 2); (0, 0) ]
  ∧ MinesweeperAI.additional_check elements 2
      (MinesweeperAI.mark_mine pending_agent (0, 2)) = Some checked_agent
  ∧ MinesweeperAI.additional_check elements 2
      (MinesweeperAI.mark_mine pending_agent (0, 0)) = Some checked_agent
  ∧ MinesweeperAI.mark_mine checked_agent (0, 0) = checked_agent
  ∧ MinesweeperAI.mark_mine checked_agent (0, 2) = checked_agent
  ∧ weight checked_agent = 0%nat
  ∧ ¬ (weight (MinesweeperAI.mark_mine checked_agent (0%Z, 0%Z)) < weight checked_agent)%nat
  ∧ MinesweeperAI.additional_check elements 2
      (MinesweeperAI.mark_mine checked_agent (0, 0)) = Some checked_agent
  ∧ MinesweeperAI.additional_check elements 3 pending_agent = Some checked_agent.
Proof.
  split; [split; [split; simpl; lia|split; vm_compute; reflexivity]|].
  do 8 (split; [vm_compute; reflexivity|]).
  split; [vm_compute; lia|].
  split; vm_compute; reflexivity.
Qed.

Lemma make_random_move_contract_witness :
  (∀ X : gset Cell, elements X ≡ₚ elements X)
  ∧ 0 ≤ Minesweeper.height closure_board
  ∧ 0 ≤ Minesweeper.width closure_board
  ∧ reachable elements closure_board closure_agent
  ∧ Forall (in_grid (MinesweeperAI.height closure_agent)
                    (MinesweeperAI.width closure_agent)) [ (0, 1); (1, 1) ]
  ∧ (let r := MinesweeperAI.make_random_move closure_agent [ (0, 1); (1, 1) ] in
     let free := grid_cells (MinesweeperAI.height closure_agent)
                            (MinesweeperAI.width closure_agent)
                 ∖ (MinesweeperAI.moves_made closure_agent
                    ∪ MinesweeperAI.mines closure_agent) in
     (r.1 = Some None ↔ free = ∅)
     ∧ (∀ c, r.1 = Some (Some c) → c ∈ free ∧ c ∈ [ (0, 1); (1, 1) ])
     ∧ (r.1 = None ↔ free ≠ ∅ ∧ Forall (λ c, c ∉ free) [ (0, 1); (1, 1) ])
     ∧ r.2 = closure_agent).
Proof.
  split; [exact elements_perm|].
  assert (0 ≤ Minesweeper.height closure_board) as Hh by (simpl; lia).
  assert (0 ≤ Minesweeper.width closure_board) as Hw by (simpl; lia).
  assert (Forall (in_grid (MinesweeperAI.height closure_agent)
                          (MinesweeperAI.width closure_agent)) [ (0, 1); (1, 1) ])
    as Hd by (repeat constructor; simpl; lia).
  split; [exact Hh|]. split; [exact Hw|].
  split; [exact closure_agent_reachable|]. split; [exact Hd|].
  exact (make_random_move_contract elements elements_perm closure_board
           closure_agent [ (0, 1); (1, 1) ] Hh Hw closure_agent_reachable Hd).
Defined.

Lemma make_safe_move_contract_witness :
  (∀ X : gset Cell, elements X ≡ₚ elements X)
  ∧ (let r := MinesweeperAI.make_safe_move elements closure_agent in
     (MinesweeperAI.safes closure_agent ∖ MinesweeperAI.moves_made closure_agent ≠ ∅ ↔
        ∃ cell, r.1 = Some cell
                ∧ cell ∈ MinesweeperAI.safes closure_agent
                ∧ cell ∉ MinesweeperAI.moves_made closure_agent)
     ∧ (MinesweeperAI.safes closure_agent ∖ MinesweeperAI.moves_made closure_agent = ∅
        ↔ r.1 = None)
     ∧ r.2 = closure_agent).
Proof.
  split; [exact elements_perm|].
  exact (make_safe_move_contract elements elements_perm closure_agent).
Defined.


Lemma moves_safe_and_sets_grow_witness :
  (∀ X : gset Cell, elements X ≡ₚ elements X)
  ∧ reachable elements strip_board (MinesweeperAI.init 1 3)
  ∧ valid_observation strip_board (0, 0) 0
  ∧ (∃ fuel ai',
       (∀ fuel', (fuel ≤ fuel')%nat →
          MinesweeperAI.add_knowledge elements fuel' (MinesweeperAI.init 1 3) (0, 0) 0
          = Some ai')
       ∧ (0, 0) ∈ MinesweeperAI.moves_made ai'
       ∧ (0, 0) ∈ MinesweeperAI.safes ai'
       ∧ MinesweeperAI.moves_made ai' ⊆ MinesweeperAI.safes ai'
       ∧ grows (MinesweeperAI.init 1 3) ai')
  ∧ MinesweeperAI.add_knowledge elements 5 (MinesweeperAI.init 1 3) (0, 0) 0
    = Some strip_agent
  ∧ (0, 0) ∈ MinesweeperAI.moves_made strip_agent
  ∧ (0, 0) ∈ MinesweeperAI.safes strip_agent.
Proof.
  destruct (moves_safe_and_sets_grow elements elements_perm)
    as (_ & _ & Hrun & Hgame & _).
  split; [exact elements_perm|].
  split; [exact (reachable_init elements strip_board)|].
  split; [exact strip_observation|].
  split; [exact (Hgame strip_board (MinesweeperAI.init 1 3) (0, 0) 0
                   (reachable_init elements strip_board) strip_observation)|].
  split; [exact strip_agent_played|].
  exact (Hrun 5%nat (MinesweeperAI.init 1 3) (0, 0) 0 strip_agent strip_agent_played).
Defined.

(** * More properties *)

(** ** More on [Minesweeper.nearby_mines] *)

Lemma size_list_to_set_le (l : list Cell) :
  (size (list_to_set l : gset Cell) ≤ length l)%nat.
Proof.
  induction l as [|x l IH].
  - done.
  - rewrite list_to_set_cons, size_union_alt, size_singleton. simpl.
    assert (size (list_to_set l ∖ {[x]} : gset Cell) ≤ size (list_to_set l : gset Cell))%nat
      by (apply subseteq_size; set_solver).
    lia.
Qed.

Lemma size_neighbours h w cell : (size (neighbours h w cell) ≤ 8)%nat.
Proof.
  unfold neighbours.
  etrans; [apply size_list_to_set_le|].
  etrans; [apply length_filter|]. done.
Qed.

(** X1. [nearby_mines] counts the mines among the neighbours of the
    cell that are on the board, the cell itself left out: a number from
    0 to 8, whatever the cell, on the board or not. *)
Theorem nearby_mines_counts (g : Minesweeper.t) (cell : Cell) :
  Minesweeper.nearby_mines g cell
  = Z.of_nat (size (neighbours (Minesweeper.height g) (Minesweeper.width g) cell
                    ∩ Minesweeper.mines g))
  ∧ 0 ≤ Minesweeper.nearby_mines g cell ≤ 8
  ∧ Minesweeper.nearby_mines g cell
    = Minesweeper.nearby_mines
        (Minesweeper.mk (Minesweeper.height g) (Minesweeper.width g)
           (Minesweeper.mines g ∖ {[cell]})) cell.
Proof.
  rewrite !nearby_mines_spec. simpl. split; [done|]. split.
  - pose proof (size_neighbours (Minesweeper.height g) (Minesweeper.width g) cell).
    assert (size (neighbours (Minesweeper.height g) (Minesweeper.width g) cell
                  ∩ Minesweeper.mines g)
            ≤ size (neighbours (Minesweeper.height g) (Minesweeper.width g) cell))%nat
      by (apply subseteq_size; set_solver).
    lia.
  - do 2 f_equal. apply set_eq. intros p.
    rewrite !elem_of_intersection, elem_of_difference, elem_of_singleton,
      elem_of_neighbours. tauto.
Qed.

(** ** Sentences and boards *)

(** X2. A sentence that is true of a board stays true when a mine of
    the board is marked as a mine in it and when a cell that is no mine
    is marked safe; the cells it tells to be mines are mines of the
    board, the cells it tells to be safe are not; and its count lies
    between 0 and the number of its cells. *)
Theorem sentence_true_of_board (T : gset Cell) (s : Sentence.t) :
  holds T s →
  (∀ c, c ∈ T → holds T (Sentence.mark_mine s c))
  ∧ (∀ c, c ∉ T → holds T (Sentence.mark_safe s c))
  ∧ (∀ X, Sentence.known_mines s = Some X → X ⊆ T)
  ∧ (∀ X, Sentence.known_safes s = Some X → X ## T)
  ∧ count_in_range s.
Proof.
  intros H. split; [|split; [|split; [|split]]].
  - intros c Hc. by apply holds_mark_mine.
  - intros c Hc. by apply holds_mark_safe.
  - intros X HX. pose proof HX as (-> & _)%known_mines_Some.
    by apply holds_known_mines.
  - intros X HX. pose proof HX as (-> & _)%known_safes_Some.
    by apply holds_known_safes.
  - by eapply holds_count_in_range.
Qed.

(** X3. The rule of [inference]: when two sentences are true of a board
    and the cells of the first are among those of the second, the
    sentence derived from them is true of the board too; and it is the
    only sentence over its cells that is. *)
Theorem derived_true_of_board (T : gset Cell) (s1 s2 : Sentence.t) :
  holds T s1 → holds T s2 → Sentence.cells s1 ⊆ Sentence.cells s2 →
  holds T (MinesweeperAI.derived s1 s2)
  ∧ (∀ s, holds T s →
          Sentence.cells s = Sentence.cells s2 ∖ Sentence.cells s1 →
          s = MinesweeperAI.derived s1 s2).
Proof.
  intros H1 H2 Hsub.
  assert (holds T (MinesweeperAI.derived s1 s2)) as H by by apply holds_derived.
  split; [done|]. intros s Hs E.
  destruct s as [X n]. unfold holds, MinesweeperAI.derived in *. simpl in *.
  subst X. f_equal. congruence.
Qed.

(** ** Marking at the level of the agent *)

Lemma sentence_mark_mine_comm s c c' :
  Sentence.mark_mine (Sentence.mark_mine s c) c'
  = Sentence.mark_mine (Sentence.mark_mine s c') c.
Proof.
  destruct (decide (c = c')) as [->|Hne]; [done|].
  destruct (decide (c ∈ Sentence.cells s)) as [Hc|Hc],
           (decide (c' ∈ Sentence.cells s)) as [Hc'|Hc'].
  - rewrite (sentence_mark_mine_in s c), (sentence_mark_mine_in s c') by done.
    rewrite !sentence_mark_mine_in by (simpl; set_solver). simpl.
    f_equal. set_solver.
  - rewrite (sentence_mark_mine_notin s c') by done.
    rewrite (sentence_mark_mine_notin _ c'); [done|].
    rewrite sentence_mark_mine_cells. set_solver.
  - rewrite (sentence_mark_mine_notin s c) by done.
    rewrite (sentence_mark_mine_notin _ c); [done|].
    rewrite sentence_mark_mine_cells. set_solver.
  - by rewrite (sentence_mark_mine_notin s c), (sentence_mark_mine_notin s c'),
      (sentence_mark_mine_notin s c) by done.
Qed.

Lemma sentence_mark_safe_comm s c c' :
  Sentence.mark_safe (Sentence.mark_safe s c) c'
  = Sentence.mark_safe (Sentence.mark_safe s c') c.
Proof. unfold Sentence.mark_safe. simpl. f_equal. set_solver. Qed.

Lemma sentence_mark_mine_safe_comm s c c' :
  c ≠ c' →
  Sentence.mark_safe (Sentence.mark_mine s c) c'
  = Sentence.mark_mine (Sentence.mark_safe s c') c.
Proof.
  intros Hne. destruct (decide (c ∈ Sentence.cells s)) as [Hc|Hc].
  - rewrite (sentence_mark_mine_in s c) by done.
    rewrite sentence_mark_mine_in by (simpl; set_solver).
    unfold Sentence.mark_safe. simpl. f_equal. set_solver.
  - rewrite (sentence_mark_mine_notin s c) by done.
    by rewrite sentence_mark_mine_notin by (simpl; set_solver).
Qed.

(** X4. Marking at the level of the agent: marking a cell twice is
    marking it once; marks as mines commute, marks as safe commute, and
    a mark as mine commutes with a mark as safe of another cell. For one
    and the same cell the first mark decides: after it the other mark
    leaves the sentences alone. *)
Theorem agent_marks_compose (ai : MinesweeperAI.t) (c c' : Cell) :
  MinesweeperAI.mark_mine (MinesweeperAI.mark_mine ai c) c
  = MinesweeperAI.mark_mine ai c
  ∧ MinesweeperAI.mark_safe (MinesweeperAI.mark_safe ai c) c
    = MinesweeperAI.mark_safe ai c
  ∧ MinesweeperAI.mark_mine (MinesweeperAI.mark_mine ai c) c'
    = MinesweeperAI.mark_mine (MinesweeperAI.mark_mine ai c') c
  ∧ MinesweeperAI.mark_safe (MinesweeperAI.mark_safe ai c) c'
    = MinesweeperAI.mark_safe (MinesweeperAI.mark_safe ai c') c
  ∧ (MinesweeperAI.mark_safe (MinesweeperAI.mark_mine ai c) c'
     = MinesweeperAI.mark_mine (MinesweeperAI.mark_safe ai c') c
     ↔ c ≠ c' ∨ Forall (λ s, c ∉ Sentence.cells s) (MinesweeperAI.knowledge ai))
  ∧ MinesweeperAI.knowledge (MinesweeperAI.mark_safe (MinesweeperAI.mark_mine ai c) c)
    = MinesweeperAI.knowledge (MinesweeperAI.mark_mine ai c)
  ∧ MinesweeperAI.knowledge (MinesweeperAI.mark_mine (MinesweeperAI.mark_safe ai c) c)
    = MinesweeperAI.knowledge (MinesweeperAI.mark_safe ai c).
Proof.
  destruct ai as [h w mv mi sa K].
  unfold MinesweeperAI.mark_mine, MinesweeperAI.mark_safe. simpl.
  split; [|split; [|split; [|split; [|split; [|split]]]]].
  - f_equal; [set_solver|]. rewrite <- list_fmap_compose. apply list_fmap_ext.
    intros _ s _. simpl. apply sentence_mark_mine_notin.
    rewrite sentence_mark_mine_cells. set_solver.
  - f_equal; [set_solver|]. rewrite <- list_fmap_compose. apply list_fmap_ext.
    intros _ s _. simpl. apply sentence_mark_safe_notin. simpl. set_solver.
  - f_equal; [set_solver|]. rewrite <- !list_fmap_compose. apply list_fmap_ext.
    intros _ s _. simpl. apply sentence_mark_mine_comm.
  - f_equal; [set_solver|]. rewrite <- !list_fmap_compose. apply list_fmap_ext.
    intros _ s _. simpl. apply sentence_mark_safe_comm.
  - rewrite <- !list_fmap_compose. split.
    + intros E. destruct (decide (c = c')) as [<-|]; [right|by left].
      injection E as E. apply Forall_forall. intros s Hs Hc.
      apply list_elem_of_lookup in Hs as [i Hi].
      apply (f_equal (λ l, Sentence.count <$> l !! i)) in E.
      rewrite !list_lookup_fmap, Hi in E. simpl in E.
      rewrite sentence_mark_mine_in in E by done.
      rewrite sentence_mark_mine_notin in E by (simpl; set_solver).
      simpl in E. injection E. lia.
    + intros [Hne|Hall].
      * f_equal. apply list_fmap_ext. intros _ s _. simpl.
        by apply sentence_mark_mine_safe_comm.
      * f_equal. apply list_fmap_ext. intros i s Hs. simpl.
        rewrite Forall_forall in Hall.
        assert (c ∉ Sentence.cells s) by (apply Hall; by eapply list_elem_of_lookup_2).
        rewrite (sentence_mark_mine_notin s) by done.
        rewrite sentence_mark_mine_notin by (simpl; set_solver).
        destruct (decide (c = c')) as [<-|]; [|done].
        by rewrite sentence_mark_safe_notin.
  - rewrite <- list_fmap_compose. apply list_fmap_ext.
    intros _ s _. simpl. apply sentence_mark_safe_notin.
    rewrite sentence_mark_mine_cells. set_solver.
  - rewrite <- list_fmap_compose. apply list_fmap_ext.
    intros _ s _. simpl. apply sentence_mark_mine_notin. simpl. set_solver.
Qed.

(** ** The cells the agent knows of *)

Lemma elem_of_known_cells ai c :
  c ∈ known_cells ai ↔
  c ∈ MinesweeperAI.mines ai ∨ c ∈ MinesweeperAI.safes ai
  ∨ ∃ s, s ∈ MinesweeperAI.knowledge ai ∧ c ∈ Sentence.cells s.
Proof.
  unfold known_cells. rewrite !elem_of_union, elem_of_union_list. split.
  - intros [[?|?]|(X & (s & -> & Hs)%list_elem_of_fmap & Hc)]; eauto.
  - intros [?|[?|(s & Hs & Hc)]]; [by left; left|by left; right|right].
    exists (Sentence.cells s). split; [|done]. apply list_elem_of_fmap. eauto.
Qed.

Lemma known_cells_sentence ai s :
  s ∈ MinesweeperAI.knowledge ai → Sentence.cells s ⊆ known_cells ai.
Proof. intros Hs c Hc. apply elem_of_known_cells. eauto. Qed.

Lemma known_cells_remove ai s :
  known_cells (MinesweeperAI.set_knowledge ai
                 (list_remove s (MinesweeperAI.knowledge ai)))
  ⊆ known_cells ai.
Proof.
  intros c. rewrite !elem_of_known_cells. simpl.
  intros [?|[?|(s' & Hs' & Hc)]]; [by left|by right; left|].
  right. right. exists s'. split; [|done]. by eapply list_remove_subseteq.
Qed.

Lemma known_cells_mark_mine ai c :
  known_cells (MinesweeperAI.mark_mine ai c) ⊆ {[c]} ∪ known_cells ai.
Proof.
  intros p. rewrite elem_of_union, !elem_of_known_cells. simpl.
  intros [Hp|[?|(s' & (s & -> & Hs)%list_elem_of_fmap & Hc)]].
  - apply elem_of_union in Hp as [?|?]; [by left|right; by left].
  - right. by right; left.
  - right. right. right. exists s. split; [done|].
    rewrite sentence_mark_mine_cells in Hc. set_solver.
Qed.

Lemma known_cells_mark_safe ai c :
  known_cells (MinesweeperAI.mark_safe ai c) ⊆ {[c]} ∪ known_cells ai.
Proof.
  intros p. rewrite elem_of_union, !elem_of_known_cells. simpl.
  intros [?|[Hp|(s' & (s & -> & Hs)%list_elem_of_fmap & Hc)]].
  - right. by left.
  - apply elem_of_union in Hp as [?|?]; [by left|right; right; by left].
  - right. right. right. exists s. split; [done|]. simpl in Hc. set_solver.
Qed.

Lemma known_cells_append ai s :
  known_cells (MinesweeperAI.set_knowledge ai (MinesweeperAI.knowledge ai ++ [s]))
  ⊆ known_cells ai ∪ Sentence.cells s.
Proof.
  intros p. rewrite elem_of_union, !elem_of_known_cells. simpl.
  intros [?|[?|(s' & Hs' & Hc)]]; [left; by left|left; right; by left|].
  apply elem_of_app in Hs' as [?|Hs'].
  - left. right. right. eauto.
  - apply list_elem_of_singleton in Hs' as ->. by right.
Qed.

Lemma known_cells_add_observation ai cell count :
  known_cells (MinesweeperAI.add_observation ai cell count)
  ⊆ known_cells ai ∪ {[cell]}
    ∪ neighbours (MinesweeperAI.height ai) (MinesweeperAI.width ai) cell.
Proof.
  intros p. rewrite !elem_of_union, !elem_of_known_cells.
  rewrite add_observation_mines, add_observation_safes, add_observation_knowledge.
  intros [?|[Hp|(s & Hs & Hc)]].
  - left. left. by left.
  - apply elem_of_union in Hp as [?|?]; [left; by right|left; left; right; by left].
  - apply elem_of_app in Hs as [(s' & -> & Hs')%list_elem_of_fmap|Hs].
    + left. left. right. right. exists s'. split; [done|]. simpl in Hc. set_solver.
    + case_decide; [by apply elem_of_nil in Hs|].
      apply list_elem_of_singleton in Hs as ->. simpl in Hc. right. set_solver.
Qed.


(** ** The loop of [make_random_move] *)

(** X10. The loop of [make_random_move] never waits in vain. On any
    agent with a grid of [height] rows and [width] columns, neither
    negative: when [make_random_move] does not answer [None] at once,
    some cell of the grid is in neither [moves_made] nor [mines], and
    the call answers as soon as such a cell is drawn; and a cell it
    answers with has been drawn and is in neither set. *)
Theorem make_random_move_has_candidate (ai : MinesweeperAI.t) (draws : list Cell) :
  0 ≤ MinesweeperAI.height ai → 0 ≤ MinesweeperAI.width ai →
  (MinesweeperAI.make_random_move ai draws).1 ≠ Some None →
  (∃ c, in_grid (MinesweeperAI.height ai) (MinesweeperAI.width ai) c
        ∧ (c ∉ MinesweeperAI.moves_made ai ∪ MinesweeperAI.mines ai)
        ∧ (∀ draws', c ∈ draws' →
             ∃ c', (MinesweeperAI.make_random_move ai draws').1 = Some (Some c')))
  ∧ (∀ c, (MinesweeperAI.make_random_move ai draws).1 = Some (Some c) →
          c ∈ draws ∧ c ∉ MinesweeperAI.moves_made ai ∪ MinesweeperAI.mines ai).
Proof.
  intros Hh Hw. unfold MinesweeperAI.make_random_move.
  case_bool_decide as Hlt; [|done]. intros _. split.
  - set (G := grid_cells (MinesweeperAI.height ai) (MinesweeperAI.width ai)).
    set (U := MinesweeperAI.moves_made ai ∪ MinesweeperAI.mines ai).
    assert (∃ c, c ∈ G ∖ U) as [c Hc].
    { apply set_choose_L. intros E.
      assert (G ⊆ U) as HGU.
      { intros x Hx. destruct (decide (x ∈ U)) as [|Hn]; [done|].
        assert (x ∈ G ∖ U) as Hd by by apply elem_of_difference.
        rewrite E in Hd. by apply not_elem_of_empty in Hd. }
      pose proof (subseteq_size _ _ HGU) as Hle.
      pose proof (size_grid_cells _ _ Hh Hw) as HG. fold G in HG.
      assert (size U ≤ size (MinesweeperAI.moves_made ai)
                       + size (MinesweeperAI.mines ai))%nat.
      { subst U. rewrite size_union_alt.
        assert (size (MinesweeperAI.mines ai ∖ MinesweeperAI.moves_made ai)
                ≤ size (MinesweeperAI.mines ai))%nat
          by (apply subseteq_size; set_solver).
        lia. }
      lia. }
    exists c. apply elem_of_difference in Hc as [Hg Hu].
    apply elem_of_grid_cells in Hg.
    split; [done|]. split; [done|]. intros draws' Hin.
    pose proof (random_loop_spec ai draws') as Hloop.
    destruct (MinesweeperAI.random_loop ai draws').1 as [[c'|]|]; [by eexists|done|].
    rewrite Forall_forall in Hloop. by destruct Hu; apply Hloop.
  - intros c E. pose proof (random_loop_spec ai draws) as Hloop.
    by rewrite E in Hloop.
Qed.


#[local] Instance grows_is_preorder : PreOrder grows.
Proof.
  split.
  - by intros a.
  - intros a b c (?&?&?) (?&?&?). unfold grows. set_solver.
Qed.

Section More.

Variable iter : gset Cell → list Cell.
Hypothesis iter_perm : ∀ X, iter X ≡ₚ elements X.

Lemma framed_rule ai0 :
  (∀ ai, framed ai0 ai →
     Forall (λ s, Sentence.cells s ⊆ known_cells ai0) (MinesweeperAI.knowledge ai))
  ∧ (∀ ai s, framed ai0 ai →
       framed ai0 (MinesweeperAI.set_knowledge ai
                     (list_remove s (MinesweeperAI.knowledge ai))))
  ∧ (∀ ai c, framed ai0 ai → c ∈ known_cells ai0 →
       framed ai0 (MinesweeperAI.mark_mine ai c)
       ∧ framed ai0 (MinesweeperAI.mark_safe ai c))
  ∧ (∀ ai s, framed ai0 ai → Sentence.cells s ⊆ known_cells ai0 →
       framed ai0 (MinesweeperAI.set_knowledge ai (MinesweeperAI.knowledge ai ++ [s]))).
Proof.
  split; [|split; [|split]].
  - intros ai (Hk & _). apply Forall_forall. intros s Hs.
    etrans; [by apply known_cells_sentence|done].
  - intros ai s (Hk & Hm & Hh & Hw). split; [|done].
    etrans; [apply known_cells_remove|done].
  - intros ai c (Hk & Hm & Hh & Hw) Hc. split; (split; [|done]).
    + etrans; [apply known_cells_mark_mine|set_solver].
    + etrans; [apply known_cells_mark_safe|set_solver].
  - intros ai s (Hk & Hm & Hh & Hw) Hs. split; [|done].
    etrans; [apply known_cells_append|set_solver].
Qed.

Lemma additional_check_framed fuel ai0 ai ai' :
  framed ai0 ai →
  MinesweeperAI.additional_check iter fuel ai = Some ai' → framed ai0 ai'.
Proof.
  destruct (framed_rule ai0) as (H1 & H2 & H3 & H4).
  apply (additional_check_preserves iter iter_perm)
    with (Q := λ s, Sentence.cells s ⊆ known_cells ai0); [done|done| |].
  - intros a s c Ha Hs _ Hc. apply H3; [done|set_solver].
  - intros a s c Ha Hs _ Hc. apply H3; [done|set_solver].
Qed.

Lemma inference_framed fuel ai0 ai ai' :
  framed ai0 ai →
  MinesweeperAI.inference iter fuel ai = Some ai' → framed ai0 ai'.
Proof.
  destruct (framed_rule ai0) as (H1 & H2 & H3 & H4).
  apply (inference_preserves iter iter_perm)
    with (Q := λ s, Sentence.cells s ⊆ known_cells ai0); [done|done| | | |].
  - intros a s c Ha Hs _ Hc. apply H3; [done|set_solver].
  - intros a s c Ha Hs _ Hc. apply H3; [done|set_solver].
  - intros s1 s2 _ Hs2 _. simpl. set_solver.
  - intros a s1 s2 Ha _ Hs2 _ _ _. apply H4; [done|].
    pose proof (H1 a Ha) as HK. rewrite Forall_forall in HK.
    specialize (HK _ Hs2). simpl. set_solver.
Qed.

Lemma framed_refl ai : framed ai ai.
Proof. by split. Qed.

Lemma add_knowledge_framed fuel ai cell count ai' :
  MinesweeperAI.add_knowledge iter fuel ai cell count = Some ai' →
  known_cells ai'
  ⊆ known_cells ai ∪ {[cell]}
    ∪ neighbours (MinesweeperAI.height ai) (MinesweeperAI.width ai) cell
  ∧ MinesweeperAI.moves_made ai' = {[cell]} ∪ MinesweeperAI.moves_made ai
  ∧ MinesweeperAI.height ai' = MinesweeperAI.height ai
  ∧ MinesweeperAI.width ai' = MinesweeperAI.width ai.
Proof.
  unfold MinesweeperAI.add_knowledge.
  destruct (MinesweeperAI.additional_check _ _ _) as [a|] eqn:E; [|done].
  intros Hinf.
  pose proof (additional_check_framed _ _ _ _ (framed_refl _) E) as Ha.
  pose proof (inference_framed _ _ _ _ Ha Hinf) as (Hk & Hm & Hh & Hw).
  rewrite Hm, Hh, Hw, add_observation_moves_made, add_observation_height,
    add_observation_width.
  split; [|done]. etrans; [done|apply known_cells_add_observation].
Qed.

(** X5. What the closure leaves alone. [additional_check] and
    [inference] change neither [moves_made] nor the size of the grid,
    and every cell of [mines], of [safes] or of a sentence afterwards
    was a cell of [mines], of [safes] or of a sentence before: no cell
    is made up. [add_knowledge] adds its cell, and no other, to
    [moves_made], and the only cells the agent may come to know of are
    that cell and its neighbours on the grid. *)
Theorem closure_frame :
  (∀ fuel ai ai',
     MinesweeperAI.additional_check iter fuel ai = Some ai' → framed ai ai')
  ∧ (∀ fuel ai ai',
       MinesweeperAI.inference iter fuel ai = Some ai' → framed ai ai')
  ∧ (∀ fuel ai cell count ai',
       MinesweeperAI.add_knowledge iter fuel ai cell count = Some ai' →
       known_cells ai'
       ⊆ known_cells ai ∪ {[cell]}
         ∪ neighbours (MinesweeperAI.height ai) (MinesweeperAI.width ai) cell
       ∧ MinesweeperAI.moves_made ai' = {[cell]} ∪ MinesweeperAI.moves_made ai
       ∧ MinesweeperAI.height ai' = MinesweeperAI.height ai
       ∧ MinesweeperAI.width ai' = MinesweeperAI.width ai).
Proof.
  split; [|split].
  - intros fuel ai ai'. apply additional_check_framed, framed_refl.
  - intros fuel ai ai'. apply inference_framed, framed_refl.
  - apply add_knowledge_framed.
Qed.

(** ** What the agent holds for true in a game *)

Lemma reachable_known_cells g ai :
  reachable iter g ai →
  known_cells ai ⊆ grid_cells (Minesweeper.height g) (Minesweeper.width g).
Proof.
  intros Hr. pose proof (reachable_consistent iter iter_perm g ai Hr) as Hc.
  intros c. rewrite elem_of_known_cells.
  destruct Hc as [_ _ _ _ _ Hmg _ _ _ Hgr].
  induction Hr as [|ai fuel cell count ai' Hr IH Hv Hrun].
  - simpl. intros [?|[?|(s & Hs & _)]]; set_solver.
  - rewrite <- elem_of_known_cells. intros Hc.
    apply add_knowledge_framed in Hrun as (Hk & _).
    pose proof (reachable_consistent iter iter_perm g ai Hr) as [Hh Hw _ _ _ Hmg' _ _ _ Hgr'].
    apply Hk in Hc. rewrite Hh, Hw in Hc.
    destruct Hv as (Hcell%elem_of_grid_cells & _).
    pose proof (neighbours_grid (Minesweeper.height g) (Minesweeper.width g) cell).
    apply elem_of_union in Hc as [Hc|Hc]; [|set_solver].
    apply elem_of_union in Hc as [Hc|Hc]; [|set_solver].
    apply IH; [done..|]. by apply elem_of_known_cells.
Qed.

(** X6. In a game the agent is never wrong: every cell of [mines] is a
    mine of the board, no cell of [safes] is, every sentence of the
    knowledge base counts the mines of the board among its cells, and
    every cell the agent knows of is on the grid. *)
Theorem game_knowledge_sound (g : Minesweeper.t) (ai : MinesweeperAI.t) :
  reachable iter g ai →
  MinesweeperAI.mines ai ⊆ Minesweeper.mines g
  ∧ MinesweeperAI.safes ai ## Minesweeper.mines g
  ∧ Forall (holds (Minesweeper.mines g)) (MinesweeperAI.knowledge ai)
  ∧ known_cells ai ⊆ grid_cells (Minesweeper.height g) (Minesweeper.width g).
Proof.
  intros Hr. pose proof (reachable_known_cells g ai Hr).
  by destruct (reachable_consistent iter iter_perm g ai Hr).
Qed.

(** X7. In a game a safe move is safe: a cell [make_safe_move] answers
    with is on the grid, is no mine of the board and has not been
    probed. *)
Theorem make_safe_move_is_safe (g : Minesweeper.t) (ai : MinesweeperAI.t)
    (cell : Cell) :
  reachable iter g ai →
  (MinesweeperAI.make_safe_move iter ai).1 = Some cell →
  in_grid (Minesweeper.height g) (Minesweeper.width g) cell
  ∧ Minesweeper.is_mine g cell = false
  ∧ cell ∉ MinesweeperAI.moves_made ai.
Proof.
  intros Hr. pose proof (reachable_known_cells g ai Hr) as Hk.
  destruct (reachable_consistent iter iter_perm g ai Hr) as [_ _ _ Hs _ _ _ _ _ _].
  unfold MinesweeperAI.make_safe_move.
  destruct (iter _) as [|c l] eqn:E; [done|]. simpl. intros [= ->].
  assert (cell ∈ MinesweeperAI.safes ai ∖ MinesweeperAI.moves_made ai) as Hc.
  { apply (elem_of_iter iter iter_perm). rewrite E. left. }
  split; [|split].
  - apply elem_of_grid_cells, Hk, elem_of_known_cells. set_solver.
  - apply bool_decide_eq_false. set_solver.
  - set_solver.
Qed.

(** ** What fact extraction reaches *)

(** X8. [additional_check] is idempotent: when it has returned, no
    sentence of the knowledge base is empty and none tells its cells to
    be mines or to be safe, and running it again, with any budget,
    gives back the same agent. *)
Theorem additional_check_idempotent (fuel : nat) (ai ai' : MinesweeperAI.t) :
  MinesweeperAI.additional_check iter fuel ai = Some ai' →
  settled ai'
  ∧ ∀ fuel', MinesweeperAI.additional_check iter (S fuel') ai' = Some ai'.
Proof.
  intros H%(additional_check_settled iter iter_perm). split; [done|].
  intros fuel'. by apply settled_additional_check.
Qed.


(** ** Fact extraction acts on every conclusion *)


Lemma concluded_grows s a a' : grows a a' → concluded s a → concluded s a'.
Proof.
  intros (_ & Hm & Hs) [H1 H2]. split; intros X HX.
  - etrans; [by apply H1|done].
  - etrans; [by apply H2|done].
Qed.

Lemma known_mines_not_safes s X :
  Sentence.known_mines s = Some X → Sentence.known_safes s = None.
Proof.
  intros (_ & _ & H)%known_mines_Some. apply known_safes_None. lia.
Qed.

Lemma truthy_known_mines_None s :
  truthy (Sentence.known_mines s) = None → Sentence.known_mines s = None.
Proof.
  destruct (Sentence.known_mines s) as [X|] eqn:E; [|done].
  pose proof E as E'%truthy_known_mines. rewrite E in E'. by rewrite E'.
Qed.

Lemma truthy_known_safes_None s :
  truthy (Sentence.known_safes s) = None → Sentence.known_safes s = None.
Proof.
  destruct (Sentence.known_safes s) as [X|] eqn:E; [|done].
  pose proof E as E'%truthy_known_safes. rewrite E in E'. by rewrite E'.
Qed.

Lemma for_each_marks_grow (mark : MinesweeperAI.t → Cell → MinesweeperAI.t)
    fuel l a a' :
  (∀ a c, grows a (mark a c)) →
  for_each (λ a c, MinesweeperAI.additional_check iter fuel (mark a c)) l a = Some a' →
  grows a a'.
Proof.
  intros Hmark.
  apply for_each_preserves with (I := grows a) (R := λ _, True);
    [|by apply Forall_true|done].
  intros b c b' Hb _ Hrun.
  eapply (additional_check_grows iter iter_perm); [|done].
  etrans; [done|apply Hmark].
Qed.

Lemma for_each_marks_all (mark : MinesweeperAI.t → Cell → MinesweeperAI.t)
    (marked : MinesweeperAI.t → gset Cell) fuel cs a a' :
  (∀ a c, grows a (mark a c)) →
  (∀ a c, c ∈ marked (mark a c)) →
  (∀ a b, grows a b → marked a ⊆ marked b) →
  for_each (λ a c, MinesweeperAI.additional_check iter fuel (mark a c))
           (iter cs) a = Some a' →
  cs ⊆ marked a'.
Proof.
  intros Hmark Hin Hmono Hrun.
  assert (∀ c, c ∈ iter cs → c ∈ [] ∨ c ∈ marked a') as H.
  { apply (for_each_preserves_rest
             (λ cur rem, ∀ c, c ∈ iter cs → c ∈ rem ∨ c ∈ marked cur)
             (λ a c, MinesweeperAI.additional_check iter fuel (mark a c))
             (iter cs) a a'); [|by left|exact Hrun].
    intros cur c0 rem cur' Hinv Hbody c Hc.
    assert (grows (mark cur c0) cur') as Hg
      by (by eapply (additional_check_grows iter iter_perm)).
    destruct (Hinv c Hc) as [[->|?]%elem_of_cons|?].
    - right. eapply Hmono; [done|]. apply Hin.
    - by left.
    - right. eapply Hmono; [|done]. etrans; [apply Hmark|done]. }
  intros c Hc%(elem_of_iter iter iter_perm).
  destruct (H c Hc) as [?%elem_of_nil|?]; done.
Qed.

Lemma additional_check_concluded fuel ai ai' s :
  MinesweeperAI.additional_check iter fuel ai = Some ai' →
  s ∈ MinesweeperAI.knowledge ai → concluded s ai'.
Proof.
  destruct fuel as [|fuel]; [done|]. simpl. intros Hrun Hs.
  assert (∀ s, s ∈ MinesweeperAI.knowledge ai → s ∈ [] ∨ concluded s ai') as H.
  { revert Hrun.
    match goal with
    | |- for_each ?body _ _ = _ → _ =>
        intros Hrun;
        apply (for_each_preserves_rest
                 (λ cur rem, ∀ s, s ∈ MinesweeperAI.knowledge ai →
                                  s ∈ rem ∨ concluded s cur)
                 body (MinesweeperAI.knowledge ai) ai ai'); [|by left|exact Hrun]
    end.
    clear Hrun.
    clear s Hs. intros cur x rem cur' Hinv.
    set (cur1 := if bool_decide _ then _ else cur).
    assert (grows cur cur1) as Hg1 by (subst cur1; by case_bool_decide).
    clearbody cur1. intros Hbody.
    assert (grows cur1 cur' ∧ concluded x cur') as [Hg Hx].
    { destruct (truthy (Sentence.known_mines x)) as [cs|] eqn:Em.
      { apply truthy_known_mines in Em. split.
        - eapply for_each_marks_grow; [|done]. apply (grows_mark_mine iter iter_perm).
        - split; intros X HX.
          + assert (X = cs) as -> by congruence.
            eapply (for_each_marks_all MinesweeperAI.mark_mine MinesweeperAI.mines);
              [apply (grows_mark_mine iter iter_perm)| | |done].
            * intros. simpl. set_solver.
            * by intros ?? (_ & ? & _).
          + by rewrite (known_mines_not_safes _ _ Em) in HX. }
      assert (Sentence.known_mines x = None) as Hnm
        by by apply truthy_known_mines_None.
      destruct (truthy (Sentence.known_safes x)) as [cs|] eqn:Es.
      { apply truthy_known_safes in Es. split.
        - eapply for_each_marks_grow; [|done]. apply (grows_mark_safe iter iter_perm).
        - split; intros X HX; [by rewrite Hnm in HX|].
          assert (X = cs) as -> by congruence.
          eapply (for_each_marks_all MinesweeperAI.mark_safe MinesweeperAI.safes);
            [apply (grows_mark_safe iter iter_perm)| | |done].
          * intros. simpl. set_solver.
          * by intros ?? (_ & _ & ?). }
      assert (Sentence.known_safes x = None) as Hns
        by by apply truthy_known_safes_None.
      injection Hbody as <-. split; [done|].
      split; intros X HX; [by rewrite Hnm in HX|by rewrite Hns in HX]. }
    intros s Hs. destruct (Hinv s Hs) as [[->|?]%elem_of_cons|Hc].
    - by right.
    - by left.
    - right. eapply concluded_grows; [|done]. by etrans. }
  destruct (H s Hs) as [?%elem_of_nil|?]; done.
Qed.

(** X11. [additional_check] acts on every conclusion: the cells a
    sentence of the knowledge base tells to be mines when it is called
    are in [mines] when it returns, and the cells a sentence tells to be
    safe are in [safes]. *)
Theorem additional_check_concludes (fuel : nat) (ai ai' : MinesweeperAI.t)
    (s : Sentence.t) :
  MinesweeperAI.additional_check iter fuel ai = Some ai' →
  s ∈ MinesweeperAI.knowledge ai →
  (∀ X, Sentence.known_mines s = Some X → X ⊆ MinesweeperAI.mines ai')
  ∧ (∀ X, Sentence.known_safes s = Some X → X ⊆ MinesweeperAI.safes ai').
Proof. apply additional_check_concluded. Qed.

(** ** What an observation settles at once *)

Lemma add_knowledge_concluded fuel ai cell count ai' :
  MinesweeperAI.add_knowledge iter fuel ai cell count = Some ai' →
  grows ai ai'
  ∧ ∀ s, s ∈ MinesweeperAI.knowledge (MinesweeperAI.add_observation ai cell count) →
         concluded s ai'.
Proof.
  intros Hrun. split.
  { etrans; [apply (grows_add_observation iter iter_perm)|].
    by eapply (add_knowledge_grows iter iter_perm). }
  revert Hrun. unfold MinesweeperAI.add_knowledge.
  destruct (MinesweeperAI.additional_check _ _ _) as [a|] eqn:E; [|done].
  intros Hinf s Hs. eapply concluded_grows.
  - eapply (inference_grows iter iter_perm); [|done]. done.
  - by eapply additional_check_concluded.
Qed.


(** X13. In a game: when the board tells that a cell has no mine
    around, all the neighbours of the cell on the grid are in [safes]
    when [add_knowledge] returns; when it tells that all the neighbours
    are mines, they are all in [mines]. *)
Theorem observation_clears_or_mines (g : Minesweeper.t) (fuel : nat)
    (ai : MinesweeperAI.t) (cell : Cell) (count : Z) (ai' : MinesweeperAI.t) :
  reachable iter g ai → valid_observation g cell count →
  MinesweeperAI.add_knowledge iter fuel ai cell count = Some ai' →
  let nb := neighbours (Minesweeper.height g) (Minesweeper.width g) cell in
  (count = 0 → nb ⊆ MinesweeperAI.safes ai')
  ∧ (count = Z.of_nat (size nb) → nb ⊆ MinesweeperAI.mines ai').
Proof.
  intros Hr Hv Hrun nb.
  destruct (reachable_consistent iter iter_perm g ai Hr)
    as [Hh Hw Hmi Hsa _ _ _ _ _ _].
  pose proof Hrun as [(_ & Hgm & Hgs) Hc]%add_knowledge_concluded.
  destruct Hv as (Hgrid & Hmine%bool_decide_eq_false & ->).
  rewrite nearby_mines_spec. fold nb.
  assert (∀ n, nb ∖ MinesweeperAI.safes ai ∖ MinesweeperAI.mines ai ≠ ∅ →
            n = Z.of_nat (size (nb ∩ Minesweeper.mines g))
                - Z.of_nat (size (nb ∩ MinesweeperAI.mines ai)) →
            concluded (Sentence.mk (nb ∖ MinesweeperAI.safes ai ∖ MinesweeperAI.mines ai) n)
                      ai') as Hnew.
  { intros n HN ->. apply Hc. rewrite add_observation_knowledge, Hh, Hw. fold nb.
    rewrite decide_False by done. apply elem_of_app. right.
    apply list_elem_of_singleton. f_equal.
    rewrite nearby_mines_spec. fold nb. rewrite decide_False by set_solver. lia. }
  assert (size (nb ∩ MinesweeperAI.mines ai) ≤ size (nb ∩ Minesweeper.mines g))%nat
    as Hle by (apply subseteq_size; set_solver).
  destruct (decide (nb ∖ MinesweeperAI.safes ai ∖ MinesweeperAI.mines ai = ∅))
    as [HN|HN].
  { split; intros E.
    - intros p Hp. apply Hgs. destruct (decide (p ∈ MinesweeperAI.safes ai)); [done|].
      assert (p ∈ MinesweeperAI.mines ai) by set_solver.
      assert (nb ∩ Minesweeper.mines g ≡ ∅) by (apply size_empty_iff; lia).
      set_solver.
    - intros p Hp. apply Hgm.
      assert (nb ∩ Minesweeper.mines g ≡ nb) as Hall.
      { apply set_subseteq_size_equiv; [set_solver|lia]. }
      destruct (decide (p ∈ MinesweeperAI.mines ai)); [done|]. set_solver. }
  specialize (Hnew _ HN eq_refl) as [Hm Hs].
  split; intros E.
  - assert (nb ∩ Minesweeper.mines g ≡ ∅) as HT by (apply size_empty_iff; lia).
    assert (nb ∩ MinesweeperAI.mines ai = ∅) as HM by set_solver.
    intros p Hp. destruct (decide (p ∈ MinesweeperAI.safes ai)); [by apply Hgs|].
    apply (Hs (nb ∖ MinesweeperAI.safes ai ∖ MinesweeperAI.mines ai)); [|set_solver].
    apply known_safes_Some. simpl.
    rewrite HM, size_empty. split; [done|]. split; [lia|].
    assert (size (nb ∖ MinesweeperAI.safes ai ∖ MinesweeperAI.mines ai) ≠ 0%nat)
      by (by apply size_non_empty_iff; intros ?%leibniz_equiv).
    lia.
  - assert (nb ∩ Minesweeper.mines g ≡ nb) as Hall.
    { apply set_subseteq_size_equiv; [set_solver|lia]. }
    assert (nb ∖ MinesweeperAI.safes ai ∖ MinesweeperAI.mines ai
            = nb ∖ (nb ∩ MinesweeperAI.mines ai)) as EN by set_solver.
    intros p Hp. destruct (decide (p ∈ MinesweeperAI.mines ai)); [by apply Hgm|].
    apply (Hm (nb ∖ MinesweeperAI.safes ai ∖ MinesweeperAI.mines ai)); [|set_solver].
    apply known_mines_Some. simpl.
    assert (size (nb ∖ MinesweeperAI.safes ai ∖ MinesweeperAI.mines ai) ≠ 0%nat)
      by (by apply size_non_empty_iff; intros ?%leibniz_equiv).
    rewrite EN in *. rewrite (size_difference nb (nb ∩ MinesweeperAI.mines ai)) in *
      by set_solver.
    assert (size (nb ∩ Minesweeper.mines g) = size nb) by (by rewrite Hall).
    assert (size (nb ∩ MinesweeperAI.mines ai) ≤ size nb)%nat
      by (apply subseteq_size; set_solver).
    split; [done|]. split; lia.
Qed.

(** ** When [inference] has nothing to derive *)

Lemma inference_body_closed ai s1 s2 cn :
  closed ai →
  s1 ∈ MinesweeperAI.knowledge ai → s2 ∈ MinesweeperAI.knowledge ai →
  MinesweeperAI.inference_body iter s1 s2 (cn, ai) = (cn, ai).
Proof.
  intros Hcl H1 H2. unfold MinesweeperAI.inference_body.
  case_bool_decide as Hsub; [|done].
  destruct (Hcl s1 s2 H1 H2 Hsub) as [He|Hin].
  - rewrite bool_decide_eq_false_2; [done|].
    simpl. rewrite He, size_empty. lia.
  - rewrite (bool_decide_eq_false_2 (_ ∉ _)) by (by intros ?).
    by rewrite andb_false_r.
Qed.

Lemma inference_loop_closed ai cn fuel i j :
  closed ai →
  let n := length (MinesweeperAI.knowledge ai) in
  ((n - i) * (n + 2) + (n + 1 - j) < fuel)%nat →
  MinesweeperAI.inference_loop iter fuel (i, j, (cn, ai)) = Some (cn, ai).
Proof.
  intros Hcl n. revert i j.
  induction fuel as [|fuel IH]; intros i j Hfuel; [by apply Nat.nlt_0_r in Hfuel|].
  cbn [MinesweeperAI.inference_loop]. unfold MinesweeperAI.inference_step.
  cbn [fst snd].
  destruct (MinesweeperAI.knowledge ai !! i) as [s1|] eqn:E1; [|done].
  pose proof (lookup_lt_Some _ _ _ E1) as Hi. fold n in Hi.
  destruct (MinesweeperAI.knowledge ai !! j) as [s2|] eqn:E2.
  - pose proof (lookup_lt_Some _ _ _ E2) as Hj. fold n in Hj.
    rewrite inference_body_closed by (done || by eapply list_elem_of_lookup_2).
    apply IH. generalize dependent ((n - i) * (n + 2))%nat. lia.
  - apply IH. replace (n - i)%nat with (S (n - S i)) in Hfuel by lia.
    rewrite Nat.mul_succ_l in Hfuel.
    generalize dependent ((n - S i) * (n + 2))%nat. lia.
Qed.

(** X14. When [inference] has nothing to derive it changes nothing: if
    every sentence that it could derive from two sentences of the
    knowledge base has no cell or is in the knowledge base already,
    [inference] returns the agent as it is, within a budget of
    [(n + 2) * (n + 2)] steps for [n] sentences; and if moreover no
    sentence is pending, running [additional_check] and [inference]
    again returns the agent as it is. *)
Theorem inference_on_closed (fuel : nat) (ai : MinesweeperAI.t) :
  closed ai →
  ((length (MinesweeperAI.knowledge ai) + 2)
   * (length (MinesweeperAI.knowledge ai) + 2) ≤ fuel)%nat →
  MinesweeperAI.inference iter fuel ai = Some ai
  ∧ (settled ai → closure_again iter fuel ai = Some ai).
Proof.
  intros Hcl Hfuel.
  assert (MinesweeperAI.inference iter fuel ai = Some ai) as Hinf.
  { unfold MinesweeperAI.inference.
    rewrite inference_loop_closed; [done..|]. simpl. nia. }
  split; [done|]. intros Hs. unfold closure_again.
  destruct fuel as [|fuel]; [simpl in Hfuel; lia|].
  by rewrite settled_additional_check.
Qed.

(** ** [add_knowledge] returns *)

(** X19. In a game [add_knowledge] returns: for an agent of a game and
    what the board tells about a cell there is a budget from which on
    the call returns, each time the same agent; that agent is again an
    agent of the game, none of its sentences is pending, and the cell
    is in [moves_made] and in [safes]. *)
Theorem add_knowledge_terminates (g : Minesweeper.t) (ai : MinesweeperAI.t)
    (cell : Cell) (count : Z) :
  reachable iter g ai → valid_observation g cell count →
  ∃ fuel ai',
    (∀ fuel', (fuel ≤ fuel')%nat →
       MinesweeperAI.add_knowledge iter fuel' ai cell count = Some ai')
    ∧ reachable iter g ai'
    ∧ settled ai'
    ∧ cell ∈ MinesweeperAI.moves_made ai'
    ∧ cell ∈ MinesweeperAI.safes ai'.
Proof.
  intros Hr Hv.
  destruct (add_knowledge_returns iter iter_perm g ai cell count Hr Hv)
    as (fuel & ai' & Hrun & Hr').
  exists fuel, ai'. split; [done|]. split; [done|].
  pose proof (Hrun fuel (Nat.le_refl _)) as E.
  split; [by eapply (add_knowledge_settled iter iter_perm)|].
  destruct (reachable_consistent iter iter_perm g ai' Hr')
    as [_ _ _ _ Hmv _ _ _ _ _].
  apply add_knowledge_framed in E as (_ & Em & _).
  assert (cell ∈ MinesweeperAI.moves_made ai') by (rewrite Em; set_solver).
  split; [done|]. by apply Hmv.
Qed.

End More.

(** ** The board of [Minesweeper] *)

Lemma foldl_snoc_replicate {A B : Type} (x : A) (l : list B) (acc : list A) :
  foldl (λ acc _, acc ++ [x]) acc l = acc ++ replicate (length l) x.
Proof.
  revert acc. induction l as [|y l IH]; intros acc; simpl.
  - by rewrite app_nil_r.
  - rewrite IH. by rewrite <- app_assoc.
Qed.

Lemma length_range a b : length (range a b) = Z.to_nat (b - a).
Proof. unfold range. apply length_seqZ. Qed.

Lemma empty_board_replicate h w :
  Board.empty_board h w = replicate (Z.to_nat h) (replicate (Z.to_nat w) false).
Proof.
  unfold Board.empty_board. rewrite !foldl_snoc_replicate, !length_range. simpl.
  by rewrite !Z.sub_0_r.
Qed.

Lemma position_in_range {A : Type} (l : list A) i :
  0 ≤ i < Z.of_nat (length l) → Board.position l i = Some (Z.to_nat i).
Proof. intros Hi. unfold Board.position. by rewrite bool_decide_eq_true_2. Qed.

Lemma position_spec {A : Type} (l : list A) i :
  Board.position l i
  = if bool_decide (- Z.of_nat (length l) ≤ i < Z.of_nat (length l))
    then Some (Z.to_nat (i `mod` Z.of_nat (length l))) else None.
Proof.
  unfold Board.position. repeat case_bool_decide; try lia; try done.
  - by rewrite Z.mod_small by lia.
  - f_equal. f_equal.
    rewrite <- (Z.mod_add i 1) by lia. rewrite Z.mod_small by lia. lia.
Qed.


Lemma board_item_in_grid h w board i j :
  shaped h w board → in_grid h w (i, j) →
  ∃ row, board !! Z.to_nat i = Some row ∧ length row = Z.to_nat w
         ∧ Board.board_item board (i, j) = row !! Z.to_nat j.
Proof.
  intros [Hr Hc] [Hi Hj]. simpl in Hi, Hj.
  destruct (lookup_lt_is_Some_2 board (Z.to_nat i)) as [row Hrow]; [lia|].
  exists row. rewrite Forall_forall in Hc.
  assert (length row = Z.to_nat w) as Hl
    by (apply Hc; by eapply list_elem_of_lookup_2).
  split; [done|]. split; [done|].
  unfold Board.board_item, Board.item. simpl.
  rewrite position_in_range by lia. simpl. rewrite Hrow. simpl.
  by rewrite position_in_range by lia.
Qed.

Lemma board_set_item_in_grid h w board i j v :
  shaped h w board → in_grid h w (i, j) →
  ∃ row, board !! Z.to_nat i = Some row
         ∧ Board.board_set_item board (i, j) v
           = Some (<[Z.to_nat i := <[Z.to_nat j := v]> row]> board).
Proof.
  intros Hs Hg. destruct (board_item_in_grid h w board i j Hs Hg) as (row & Hrow & Hl & _).
  destruct Hs as [Hr Hc]. destruct Hg as [Hi Hj]. simpl in Hi, Hj.
  exists row. split; [done|].
  unfold Board.board_set_item, Board.item, Board.set_item. simpl.
  rewrite position_in_range by lia. simpl. rewrite Hrow. simpl.
  by rewrite position_in_range by lia.
Qed.


Lemma agrees_empty h w : agrees h w ∅ (Board.empty_board h w).
Proof.
  rewrite empty_board_replicate. split; [|split].
  - split; [by rewrite length_replicate|].
    apply Forall_replicate. by rewrite length_replicate.
  - set_solver.
  - intros [i j] [Hi Hj]. simpl in Hi, Hj.
    unfold Board.board_item, Board.item. simpl.
    rewrite position_in_range by (rewrite length_replicate; lia). simpl.
    rewrite lookup_replicate_2 by lia. simpl.
    rewrite position_in_range by (rewrite length_replicate; lia). simpl.
    rewrite lookup_replicate_2 by lia.
    by rewrite bool_decide_eq_false_2 by set_solver.
Qed.

Lemma agrees_set h w ms board i j :
  agrees h w ms board → in_grid h w (i, j) →
  ∃ board', Board.board_set_item board (i, j) true = Some board'
            ∧ agrees h w ({[ (i, j) ]} ∪ ms) board'.
Proof.
  intros (Hs & Hm & Hb) Hg.
  destruct (board_set_item_in_grid h w board i j true Hs Hg) as (row & Hrow & ->).
  eexists. split; [done|].
  assert (shaped h w (<[Z.to_nat i := <[Z.to_nat j := true]> row]> board)) as Hs'.
  { destruct Hs as [Hr Hc]. split; [by rewrite length_insert|].
    apply Forall_insert; [done|]. rewrite length_insert.
    rewrite Forall_forall in Hc. apply Hc. by eapply list_elem_of_lookup_2. }
  split; [done|]. split.
  - apply elem_of_grid_cells in Hg. set_solver.
  - intros [i' j'] Hg'.
    destruct (board_item_in_grid _ _ _ i' j' Hs' Hg') as (row' & Hrow' & Hl' & ->).
    pose proof (Hb _ Hg') as Hold.
    destruct (board_item_in_grid _ _ _ i' j' Hs Hg') as (row0 & Hrow0 & Hl0 & E0).
    rewrite E0 in Hold.
    destruct Hg as [Hi Hj], Hg' as [Hi' Hj']. simpl in Hi, Hj, Hi', Hj'.
    destruct (decide (i' = i)) as [->|Hni].
    + rewrite list_lookup_insert_eq in Hrow' by (by eapply lookup_lt_Some).
      assert (row0 = row) as -> by congruence.
      assert (row' = <[Z.to_nat j := true]> row) as -> by congruence.
      destruct (decide (j' = j)) as [->|Hnj].
      * rewrite list_lookup_insert_eq by (rewrite Hl0; lia).
        by rewrite bool_decide_eq_true_2 by set_solver.
      * rewrite list_lookup_insert_ne by lia. rewrite Hold.
        f_equal. apply bool_decide_ext. set_solver.
    + rewrite list_lookup_insert_ne in Hrow' by lia.
      assert (row' = row0) as -> by congruence. rewrite Hold.
      f_equal. apply bool_decide_ext. set_solver.
Qed.

(** The loop of [__init__] on a grid with cells: it keeps the board in
    agreement with the set of mines, and it returns exactly when the
    draws bring the set of mines to the size asked for. *)
Lemma add_mines_spec h w m draws ms board :
  0 < h → 0 < w → Forall (in_grid h w) draws → agrees h w ms board →
  match Board.add_mines h w m (ms, board) draws with
  | Board.Returned (ms', board') =>
      agrees h w ms' board' ∧ Z.of_nat (size ms') = m
      ∧ ms ⊆ ms' ∧ ms' ⊆ ms ∪ list_to_set draws
      ∧ Z.of_nat (size ms) ≤ m ≤ Z.of_nat (size (ms ∪ list_to_set draws))
  | Board.Raised _ => False
  | Board.Running =>
      m < Z.of_nat (size ms) ∨ Z.of_nat (size (ms ∪ list_to_set draws)) < m
  end.
Proof.
  intros Hh Hw Hd. revert ms board.
  induction Hd as [|[i j] draws Hg Hd IH]; intros ms board Ha.
  - simpl. case_bool_decide as Hne.
    + rewrite !bool_decide_eq_false_2 by lia. simpl.
      rewrite union_empty_r_L. lia.
    + try apply dec_stable in Hne. split; [done|]. split; [done|].
      split; [done|]. split; [set_solver|].
      rewrite union_empty_r_L. lia.
  - cbn [Board.add_mines fst snd]. case_bool_decide as Hne.
    + rewrite !bool_decide_eq_false_2 by lia. cbn [orb].
      destruct Ha as (Hs & Hm & Hb). rewrite (Hb _ Hg).
      case_bool_decide as Hin.
      * specialize (IH ms board (conj Hs (conj Hm Hb))).
        assert (ms ∪ list_to_set ((i, j) :: draws) = ms ∪ list_to_set draws :> gset Cell)
          as -> by set_solver.
        done.
      * destruct (agrees_set h w ms board i j (conj Hs (conj Hm Hb)) Hg)
          as (board' & -> & Ha').
        specialize (IH _ _ Ha').
        assert (ms ∪ list_to_set ((i, j) :: draws)
                = ({[ (i, j) ]} ∪ ms) ∪ list_to_set draws :> gset Cell)
          as -> by set_solver.
        assert (size ({[ (i, j) ]} ∪ ms) = S (size ms)) as Hsz
          by (rewrite size_union by set_solver; by rewrite size_singleton).
        rewrite Hsz in IH.
        destruct (Board.add_mines h w m ({[ (i, j) ]} ∪ ms, board') draws)
          as [[ms' board'']|e|]; [|done|lia].
        destruct IH as (? & ? & ? & ? & ?).
        split; [done|]. split; [done|]. split; [set_solver|]. split; [set_solver|lia].
    + try apply dec_stable in Hne. split; [done|]. split; [done|].
      split; [done|]. split; [set_solver|].
      split; [lia|]. rewrite <- Hne. apply Nat2Z.inj_le, subseteq_size. set_solver.
Qed.

Lemma add_mines_no_grid h w m draws st :
  h ≤ 0 ∨ w ≤ 0 →
  Board.add_mines h w m st draws
  = if bool_decide (Z.of_nat (size st.1) ≠ m)
    then Board.Raised Board.ValueError else Board.Returned st.
Proof.
  intros Hhw. destruct draws as [|[i j] draws]; simpl;
    (case_bool_decide; [|done]);
    by destruct Hhw; repeat case_bool_decide; try lia.
Qed.

Lemma in_grid_nil h w draws :
  h ≤ 0 ∨ w ≤ 0 → Forall (in_grid h w) draws → draws = [].
Proof.
  intros Hhw Hd. destruct Hd as [|[i j] draws [Hi Hj] _]; [done|].
  simpl in Hi, Hj. lia.
Qed.

Lemma size_draws h w (draws : list Cell) :
  0 ≤ h → 0 ≤ w → Forall (in_grid h w) draws →
  Z.of_nat (size (list_to_set draws : gset Cell)) ≤ h * w.
Proof.
  intros Hh Hw Hd. rewrite <- size_grid_cells by done.
  apply Nat2Z.inj_le, subseteq_size. intros c Hc.
  apply elem_of_list_to_set in Hc. apply elem_of_grid_cells.
  rewrite Forall_forall in Hd. by apply Hd.
Qed.

Lemma init_cases h w m draws :
  Forall (in_grid h w) draws →
  match Board.init h w m draws with
  | Board.Returned b =>
      0 ≤ m ≤ Z.of_nat (size (list_to_set draws : gset Cell))
      ∧ well_formed b
      ∧ Board.height b = h ∧ Board.width b = w
      ∧ Z.of_nat (size (Board.mines b)) = m
      ∧ Board.mines b ⊆ list_to_set draws
      ∧ Board.mines_found b = ∅
  | Board.Raised e => e = Board.ValueError ∧ m ≠ 0 ∧ (h ≤ 0 ∨ w ≤ 0)
  | Board.Running =>
      0 < h ∧ 0 < w
      ∧ (m < 0 ∨ Z.of_nat (size (list_to_set draws : gset Cell)) < m)
  end.
Proof.
  intros Hd. unfold Board.init.
  destruct (decide (0 < h ∧ 0 < w)) as [[Hh Hw]|Hn].
  - pose proof (add_mines_spec h w m draws ∅ _ Hh Hw Hd (agrees_empty h w)) as Hsp.
    rewrite union_empty_l_L, size_empty in Hsp.
    destruct (Board.add_mines h w m (∅, Board.empty_board h w) draws)
      as [[ms board]|e|]; [|done|].
    + destruct Hsp as ((Hs & Hm & Hb) & Hsz & _ & Hsub & Hle).
      split; [done|]. split; [|split; [done|]; split; [done|]; split; [done|]].
      * destruct Hs. by split.
      * by split.
    + split; [done|]. split; [done|]. lia.
  - assert (h ≤ 0 ∨ w ≤ 0) as Hhw by lia.
    rewrite add_mines_no_grid by done. cbn [fst]. rewrite size_empty.
    rewrite (in_grid_nil h w draws Hhw Hd). simpl.
    case_bool_decide as Hne.
    + split; [done|]. split; [lia|done].
    + try apply dec_stable in Hne. subst m. split; [done|].
      pose proof (agrees_empty h w) as ((? & ?) & ? & ?).
      split; [by split|done].
Qed.

(** X15. How [Minesweeper.__init__] ends, for draws that fall on the
    grid. It returns exactly when the number of mines asked for is not
    negative and at most the number of distinct cells drawn; it raises,
    and then [ValueError], exactly when mines are asked for on a grid
    with no cell; otherwise its loop goes on. On a grid of [height]
    rows and [width] columns it never returns when more than
    [height * width] mines are asked for. *)
Theorem init_outcome (height width mines : Z) (draws : list Cell) :
  Forall (in_grid height width) draws →
  let drawn := Z.of_nat (size (list_to_set draws : gset Cell)) in
  ((∃ b, Board.init height width mines draws = Board.Returned b)
   ↔ 0 ≤ mines ≤ drawn)
  ∧ (∀ e, Board.init height width mines draws = Board.Raised e
          ↔ e = Board.ValueError ∧ mines ≠ 0 ∧ (height ≤ 0 ∨ width ≤ 0))
  ∧ (Board.init height width mines draws = Board.Running
     ↔ 0 < height ∧ 0 < width ∧ (mines < 0 ∨ drawn < mines))
  ∧ (0 ≤ height → 0 ≤ width → height * width < mines →
     ∀ b, Board.init height width mines draws ≠ Board.Returned b).
Proof.
  intros Hd drawn. pose proof (init_cases height width mines draws Hd) as Hc.
  fold drawn in Hc.
  assert (height ≤ 0 ∨ width ≤ 0 → drawn = 0) as Hnil.
  { intros Hhw. subst drawn. by rewrite (in_grid_nil _ _ _ Hhw Hd). }
  assert (0 ≤ height → 0 ≤ width → drawn ≤ height * width) as Hle
    by (intros; by apply size_draws).
  destruct (Board.init height width mines draws) as [b|e|].
  - destruct Hc as (Hm & _). split; [split; [done|by eexists]|].
    split; [intros e; split; [done|intros (_ & ? & Hhw); specialize (Hnil Hhw); lia]|].
    split; [split; [done|lia]|].
    intros Hh Hw Hlt b' _. specialize (Hle Hh Hw). lia.
  - destruct Hc as (-> & Hm & Hhw). specialize (Hnil Hhw).
    split; [split; [by intros [? ?]|lia]|].
    split; [intros e; split; [by intros [= <-]|by intros (-> & _)]|].
    split; [split; [done|lia]|done].
  - destruct Hc as (Hh & Hw & Hm).
    split; [split; [by intros [? ?]|lia]|].
    split; [intros e; split; [done|lia]|].
    split; [done|done].
Qed.

(** X16. The board that [Minesweeper.__init__] returns, for draws that
    fall on the grid: it has [height] rows of [width] squares,
    [board[i][j]] is [True] exactly for the cells of [self.mines],
    which are as many as asked for, are cells of the grid and have been
    drawn; no mine is found yet, so that [won] answers [True] exactly
    when no mine was asked for. *)
Theorem init_well_formed (height width mines : Z) (draws : list Cell) (b : Board.t) :
  Forall (in_grid height width) draws →
  Board.init height width mines draws = Board.Returned b →
  well_formed b
  ∧ Board.height b = height ∧ Board.width b = width
  ∧ Z.of_nat (size (Board.mines b)) = mines
  ∧ Board.mines b ⊆ list_to_set draws
  ∧ Board.mines_found b = ∅
  ∧ (Board.won b = true ↔ mines = 0).
Proof.
  intros Hd E. pose proof (init_cases height width mines draws Hd) as Hc.
  rewrite E in Hc. destruct Hc as (_ & Hwf & Hh & Hw & Hsz & Hsub & Hf).
  do 6 (split; [done|]). unfold Board.won. rewrite Hf, bool_decide_eq_true.
  rewrite <- Hsz. split.
  - intros <-. by rewrite size_empty.
  - intros Hz. symmetry. apply leibniz_equiv, size_empty_iff. lia.
Qed.

Lemma board_item_mod (board : list (list bool)) h w i j :
  shaped h w board →
  Board.board_item board (i, j)
  = if bool_decide (- h ≤ i < h ∧ - w ≤ j < w)
    then Board.board_item board (i `mod` h, j `mod` w) else None.
Proof.
  intros [Hr Hc]. unfold Board.board_item, Board.item. cbn [fst snd].
  rewrite !position_spec. rewrite Hr.
  destruct (decide (- h ≤ i < h)) as [Hi|Hi].
  - assert (Z.of_nat (Z.to_nat h) = h) as -> by lia.
    pose proof (Z.mod_pos_bound i h ltac:(lia)) as Hmi.
    rewrite (bool_decide_eq_true_2 (- h ≤ i < h)) by done.
    rewrite (bool_decide_eq_true_2 (- h ≤ i `mod` h < h)) by lia.
    rewrite Z.mod_mod by lia. simpl.
    destruct (board !! Z.to_nat (i `mod` h)) as [row|] eqn:Hrow; simpl.
    + rewrite Forall_forall in Hc.
      rewrite !position_spec, (Hc row) by by eapply list_elem_of_lookup_2.
      destruct (decide (- w ≤ j < w)) as [Hj|Hj].
      * assert (Z.of_nat (Z.to_nat w) = w) as -> by lia.
        pose proof (Z.mod_pos_bound j w ltac:(lia)) as Hmj.
        rewrite (bool_decide_eq_true_2 (- w ≤ j < w)) by done.
        rewrite (bool_decide_eq_true_2 (- w ≤ j `mod` w < w)) by lia.
        rewrite Z.mod_mod by lia.
        by rewrite bool_decide_eq_true_2 by done.
      * rewrite (bool_decide_eq_false_2 (_ ≤ j < _)) by lia.
        by rewrite bool_decide_eq_false_2 by tauto.
    + by case_bool_decide.
  - rewrite (bool_decide_eq_false_2 (_ ≤ i < _)) by lia. simpl.
    by rewrite bool_decide_eq_false_2 by tauto.
Qed.

(** X17. [is_mine] on a board whose squares agree with its mines. For
    [-height <= i < height] and [-width <= j < width] it answers
    whether the cell [(i mod height, j mod width)] is a mine: a
    negative coordinate counts from the far edge. For every other cell
    it raises [IndexError]. On the cells of the grid it is the
    membership test of [mines]. *)
Theorem is_mine_indexing (b : Board.t) (i j : Z) :
  well_formed b →
  Board.is_mine b (i, j)
  = (if bool_decide (- Board.height b ≤ i < Board.height b
                     ∧ - Board.width b ≤ j < Board.width b)
     then Some (bool_decide ((i `mod` Board.height b, j `mod` Board.width b)
                             ∈ Board.mines b))
     else None)
  ∧ (in_grid (Board.height b) (Board.width b) (i, j) →
     Board.is_mine b (i, j) = Some (Minesweeper.is_mine (game b) (i, j))).
Proof.
  intros [Hr Hc Hm Hb]. split.
  - unfold Board.is_mine.
    rewrite (board_item_mod _ (Board.height b) (Board.width b)) by by split.
    case_bool_decide as Hij; [|done]. apply Hb. split; simpl.
    + apply Z.mod_pos_bound. lia.
    + apply Z.mod_pos_bound. lia.
  - intros Hg. unfold Board.is_mine. by rewrite Hb.
Qed.

Lemma for_each_foldl {A S : Type} (body : S → A → option S) (f : S → A → S) l s :
  (∀ s x, x ∈ l → body s x = Some (f s x)) →
  for_each body l s = Some (foldl f s l).
Proof.
  revert s. induction l as [|x l IH]; intros s Hb; simpl; [done|].
  rewrite Hb by left. apply IH. intros s' y Hy. apply Hb. by right.
Qed.

(** X18. [nearby_mines] on a board whose squares agree with its mines
    never raises, for any cell, on or off the grid: it returns the
    number of mines among the neighbours of the cell on the grid, which
    is what the agent is told. *)
Theorem nearby_mines_of_board (b : Board.t) (cell : Cell) :
  well_formed b →
  Board.nearby_mines b cell = Some (Minesweeper.nearby_mines (game b) cell)
  ∧ Board.nearby_mines b cell
    = Some (Z.of_nat (size (neighbours (Board.height b) (Board.width b) cell
                            ∩ Board.mines b))).
Proof.
  intros [Hr Hc Hm Hb].
  assert (Board.nearby_mines b cell = Some (Minesweeper.nearby_mines (game b) cell))
    as E.
  { unfold Board.nearby_mines, Minesweeper.nearby_mines.
    apply for_each_foldl. intros count i _.
    apply for_each_foldl. intros count' j _. simpl.
    case_bool_decide; [done|].
    destruct (bool_decide (0 ≤ i < Board.height b)) eqn:Ei; [|done].
    destruct (bool_decide (0 ≤ j < Board.width b)) eqn:Ej; [|done].
    apply bool_decide_eq_true in Ei, Ej. simpl.
    rewrite Hb by by split. done. }
  split; [done|]. rewrite E. by rewrite nearby_mines_spec.
Qed.

(** ** The properties at work *)

Lemma drawn_board_init : Board.init 2 2 1 [ (1, 0) ] = Board.Returned drawn_board.
Proof. vm_compute. reflexivity. Qed.

Lemma drawn_board_well_formed : well_formed drawn_board.
Proof.
  pose proof (init_cases 2 2 1 [ (1, 0) ]) as H.
  rewrite drawn_board_init in H. apply H.
  repeat constructor; simpl; lia.
Qed.



Lemma pending_agent_checked :
  MinesweeperAI.additional_check elements 3 pending_agent = Some checked_agent.
Proof. vm_compute. reflexivity. Qed.



Lemma chain_agent_closed : closed chain_agent.
Proof.
  intros s1 s2 H1 H2 Hsub. left.
  apply elem_of_cons in H1 as [->|H1]; [|apply list_elem_of_singleton in H1 as ->];
    (apply elem_of_cons in H2 as [->|H2]; [|apply list_elem_of_singleton in H2 as ->]);
    cbn [Sentence.cells] in *;
    first [ apply (bool_decide_unpack _); vm_compute; exact I
          | exfalso; apply (bool_decide_pack _) in Hsub; vm_compute in Hsub;
            exact Hsub ].
Qed.

Lemma sentence_true_of_board_witness :
  holds {[ (0, 2) ]} (Sentence.mk {[ (0, 1); (0, 2) ]} 1)
  ∧ holds {[ (0, 2) ]} (Sentence.mark_mine (Sentence.mk {[ (0, 1); (0, 2) ]} 1) (0, 2)).
Proof.
  assert (holds {[ (0, 2) ]} (Sentence.mk {[ (0, 1); (0, 2) ]} 1)) as H
    by (vm_compute; reflexivity).
  split; [exact H|].
  apply (sentence_true_of_board {[ (0, 2) ]} (Sentence.mk {[ (0, 1); (0, 2) ]} 1) H).
  apply elem_of_singleton. reflexivity.
Defined.

Lemma derived_true_of_board_witness :
  holds {[ (0, 2) ]} (Sentence.mk {[ (0, 2) ]} 1)
  ∧ holds {[ (0, 2) ]} (Sentence.mk {[ (0, 1); (0, 2) ]} 1)
  ∧ ({[ (0, 2) ]} : gset Cell) ⊆ {[ (0, 1); (0, 2) ]}
  ∧ holds {[ (0, 2) ]}
      (MinesweeperAI.derived (Sentence.mk {[ (0, 2) ]} 1)
                             (Sentence.mk {[ (0, 1); (0, 2) ]} 1)).
Proof.
  assert (holds {[ (0, 2) ]} (Sentence.mk {[ (0, 2) ]} 1)) as H1
    by (vm_compute; reflexivity).
  assert (holds {[ (0, 2) ]} (Sentence.mk {[ (0, 1); (0, 2) ]} 1)) as H2
    by (vm_compute; reflexivity).
  assert (({[ (0, 2) ]} : gset Cell) ⊆ {[ (0, 1); (0, 2) ]}) as Hsub
    by (apply (bool_decide_unpack _); vm_compute; exact I).
  split; [exact H1|]. split; [exact H2|]. split; [exact Hsub|].
  apply (derived_true_of_board {[ (0, 2) ]} (Sentence.mk {[ (0, 2) ]} 1)
           (Sentence.mk {[ (0, 1); (0, 2) ]} 1) H1 H2 Hsub).
Defined.

Lemma make_random_move_has_candidate_witness :
  0 ≤ MinesweeperAI.height closure_agent
  ∧ 0 ≤ MinesweeperAI.width closure_agent
  ∧ (MinesweeperAI.make_random_move closure_agent [ (0, 1); (1, 1) ]).1 ≠ Some None
  ∧ (∀ c, (MinesweeperAI.make_random_move closure_agent [ (0, 1); (1, 1) ]).1
          = Some (Some c) →
          c ∈ [ (0, 1); (1, 1) ]
          ∧ c ∉ MinesweeperAI.moves_made closure_agent
                ∪ MinesweeperAI.mines closure_agent).
Proof.
  assert (0 ≤ MinesweeperAI.height closure_agent) as Hh by (simpl; lia).
  assert (0 ≤ MinesweeperAI.width closure_agent) as Hw by (simpl; lia).
  assert ((MinesweeperAI.make_random_move closure_agent [ (0, 1); (1, 1) ]).1
          ≠ Some None) as Hn
    by (intros E; vm_compute in E; discriminate E).
  split; [exact Hh|]. split; [exact Hw|]. split; [exact Hn|].
  apply (make_random_move_has_candidate closure_agent [ (0, 1); (1, 1) ] Hh Hw Hn).
Defined.

Lemma closure_frame_witness :
  (∀ X : gset Cell, elements X ≡ₚ elements X)
  ∧ MinesweeperAI.additional_check elements 3 pending_agent = Some checked_agent
  ∧ framed pending_agent checked_agent.
Proof.
  split; [exact elements_perm|]. split; [exact pending_agent_checked|].
  apply (proj1 (closure_frame elements elements_perm) 3%nat pending_agent
           checked_agent pending_agent_checked).
Defined.

Lemma game_knowledge_sound_witness :
  (∀ X : gset Cell, elements X ≡ₚ elements X)
  ∧ reachable elements closure_board closure_agent
  ∧ MinesweeperAI.mines closure_agent ⊆ Minesweeper.mines closure_board
  ∧ MinesweeperAI.safes closure_agent ## Minesweeper.mines closure_board
  ∧ Forall (holds (Minesweeper.mines closure_board))
           (MinesweeperAI.knowledge closure_agent)
  ∧ known_cells closure_agent
    ⊆ grid_cells (Minesweeper.height closure_board) (Minesweeper.width closure_board).
Proof.
  split; [exact elements_perm|]. split; [exact closure_agent_reachable|].
  exact (game_knowledge_sound elements elements_perm closure_board closure_agent
           closure_agent_reachable).
Defined.

Lemma make_safe_move_is_safe_witness :
  (∀ X : gset Cell, elements X ≡ₚ elements X)
  ∧ reachable elements closure_board closure_agent
  ∧ (MinesweeperAI.make_safe_move elements closure_agent).1 = Some (0, 2)
  ∧ in_grid (Minesweeper.height closure_board) (Minesweeper.width closure_board) (0, 2)
  ∧ Minesweeper.is_mine closure_board (0, 2) = false
  ∧ (0, 2) ∉ MinesweeperAI.moves_made closure_agent.
Proof.
  assert ((MinesweeperAI.make_safe_move elements closure_agent).1 = Some (0, 2))
    as E by (vm_compute; reflexivity).
  split; [exact elements_perm|]. split; [exact closure_agent_reachable|].
  split; [exact E|].
  exact (make_safe_move_is_safe elements elements_perm closure_board closure_agent
           (0, 2) closure_agent_reachable E).
Defined.

Lemma additional_check_idempotent_witness :
  (∀ X : gset Cell, elements X ≡ₚ elements X)
  ∧ MinesweeperAI.additional_check elements 3 pending_agent = Some checked_agent
  ∧ settled checked_agent
  ∧ ∀ fuel', MinesweeperAI.additional_check elements (S fuel') checked_agent
             = Some checked_agent.
Proof.
  split; [exact elements_perm|]. split; [exact pending_agent_checked|].
  exact (additional_check_idempotent elements elements_perm 3%nat pending_agent
           checked_agent pending_agent_checked).
Defined.


Lemma additional_check_concludes_witness :
  (∀ X : gset Cell, elements X ≡ₚ elements X)
  ∧ MinesweeperAI.additional_check elements 3 pending_agent = Some checked_agent
  ∧ Sentence.mk {[ (0, 0); (0, 2) ]} 2 ∈ MinesweeperAI.knowledge pending_agent
  ∧ (∀ X, Sentence.known_mines (Sentence.mk {[ (0, 0); (0, 2) ]} 2) = Some X →
          X ⊆ MinesweeperAI.mines checked_agent)
  ∧ (∀ X, Sentence.known_safes (Sentence.mk {[ (0, 0); (0, 2) ]} 2) = Some X →
          X ⊆ MinesweeperAI.safes checked_agent).
Proof.
  assert (Sentence.mk {[ (0, 0); (0, 2) ]} 2 ∈ MinesweeperAI.knowledge pending_agent)
    as Hin by (simpl; left).
  split; [exact elements_perm|]. split; [exact pending_agent_checked|].
  split; [exact Hin|].
  exact (additional_check_concludes elements elements_perm 3%nat pending_agent
           checked_agent _ pending_agent_checked Hin).
Defined.


Lemma observation_clears_or_mines_witness :
  (∀ X : gset Cell, elements X ≡ₚ elements X)
  ∧ reachable elements strip_board (MinesweeperAI.init 1 3)
  ∧ valid_observation strip_board (0, 0) 0
  ∧ MinesweeperAI.add_knowledge elements 5 (MinesweeperAI.init 1 3) (0, 0) 0
    = Some strip_agent
  ∧ (let nb := neighbours (Minesweeper.height strip_board)
                          (Minesweeper.width strip_board) (0, 0) in
     (0 = 0 → nb ⊆ MinesweeperAI.safes strip_agent)
     ∧ (0 = Z.of_nat (size nb) → nb ⊆ MinesweeperAI.mines strip_agent)).
Proof.
  split; [exact elements_perm|].
  split; [exact (reachable_init elements strip_board)|].
  split; [exact strip_observation|]. split; [exact strip_agent_played|].
  exact (observation_clears_or_mines elements elements_perm strip_board 5%nat
           (MinesweeperAI.init 1 3) (0, 0) 0 strip_agent
           (reachable_init elements strip_board) strip_observation
           strip_agent_played).
Defined.

Lemma inference_on_closed_witness :
  closed chain_agent
  ∧ ((length (MinesweeperAI.knowledge chain_agent) + 2)
     * (length (MinesweeperAI.knowledge chain_agent) + 2) ≤ 16)%nat
  ∧ MinesweeperAI.inference elements 16 chain_agent = Some chain_agent
  ∧ (settled chain_agent → closure_again elements 16 chain_agent = Some chain_agent).
Proof.
  assert ((length (MinesweeperAI.knowledge chain_agent) + 2)
          * (length (MinesweeperAI.knowledge chain_agent) + 2) ≤ 16)%nat as Hf
    by (simpl; lia).
  split; [exact chain_agent_closed|]. split; [exact Hf|].
  exact (inference_on_closed elements 16%nat chain_agent chain_agent_closed Hf).
Defined.

Lemma add_knowledge_terminates_witness :
  (∀ X : gset Cell, elements X ≡ₚ elements X)
  ∧ reachable elements strip_board (MinesweeperAI.init 1 3)
  ∧ valid_observation strip_board (0, 0) 0
  ∧ ∃ fuel ai',
      (∀ fuel', (fuel ≤ fuel')%nat →
         MinesweeperAI.add_knowledge elements fuel' (MinesweeperAI.init 1 3) (0, 0) 0
         = Some ai')
      ∧ reachable elements strip_board ai'
      ∧ settled ai'
      ∧ (0, 0) ∈ MinesweeperAI.moves_made ai'
      ∧ (0, 0) ∈ MinesweeperAI.safes ai'.
Proof.
  split; [exact elements_perm|].
  split; [exact (reachable_init elements strip_board)|].
  split; [exact strip_observation|].
  exact (add_knowledge_terminates elements elements_perm strip_board
           (MinesweeperAI.init 1 3) (0, 0) 0
           (reachable_init elements strip_board) strip_observation).
Defined.

Lemma init_outcome_witness :
  Forall (in_grid 2 2) [ (1, 0) ]
  ∧ ((∃ b, Board.init 2 2 1 [ (1, 0) ] = Board.Returned b)
     ↔ 0 ≤ 1 ≤ Z.of_nat (size (list_to_set [ (1, 0) ] : gset Cell))).
Proof.
  assert (Forall (in_grid 2 2) [ (1, 0) ]) as Hd
    by (repeat constructor; simpl; lia).
  split; [exact Hd|].
  apply (init_outcome 2 2 1 [ (1, 0) ] Hd).
Defined.

Lemma init_well_formed_witness :
  Forall (in_grid 2 2) [ (1, 0) ]
  ∧ Board.init 2 2 1 [ (1, 0) ] = Board.Returned drawn_board
  ∧ well_formed drawn_board
  ∧ Board.height drawn_board = 2 ∧ Board.width drawn_board = 2
  ∧ Z.of_nat (size (Board.mines drawn_board)) = 1
  ∧ Board.mines drawn_board ⊆ list_to_set [ (1, 0) ]
  ∧ Board.mines_found drawn_board = ∅
  ∧ (Board.won drawn_board = true ↔ 1 = 0).
Proof.
  assert (Forall (in_grid 2 2) [ (1, 0) ]) as Hd
    by (repeat constructor; simpl; lia).
  split; [exact Hd|]. split; [exact drawn_board_init|].
  exact (init_well_formed 2 2 1 [ (1, 0) ] drawn_board Hd drawn_board_init).
Defined.

Lemma is_mine_indexing_witness :
  well_formed drawn_board
  ∧ Board.is_mine drawn_board (-1, 0)
    = (if bool_decide (- Board.height drawn_board ≤ -1 < Board.height drawn_board
                       ∧ - Board.width drawn_board ≤ 0 < Board.width drawn_board)
       then Some (bool_decide (((-1) `mod` Board.height drawn_board,
                                0 `mod` Board.width drawn_board)
                               ∈ Board.mines drawn_board))
       else None).
Proof.
  split; [exact drawn_board_well_formed|].
  apply (is_mine_indexing drawn_board (-1) 0 drawn_board_well_formed).
Defined.

Lemma nearby_mines_of_board_witness :
  well_formed drawn_board
  ∧ Board.nearby_mines drawn_board (0, 0)
    = Some (Minesweeper.nearby_mines (game drawn_board) (0, 0)).
Proof.
  split; [exact drawn_board_well_formed|].
  apply (nearby_mines_of_board drawn_board (0, 0) drawn_board_well_formed).
Defined.
